(** * MO_contextual_bandits: multi-objective contextual bandit (MO-LinUCB)

    A shallow embedding of [misc.py] and [MOCB.py].

    Conventions of the embedding.
    - A numpy [float64] array is a list of real numbers ([vec]); a 2-D array is
      a record of its column count and its rows ([mat]).  Arithmetic is the
      exact arithmetic of [R]: rounding to 53 bits is outside the model.
    - Where [np.exp] can leave the range of [float64], in
      [MOCB.mirror_descent], the code is also embedded over [F64.t]: a result
      of magnitude [2^1024] or more is an infinity, one of magnitude
      [2^-1075] or less is zero, and infinities and [nan] propagate as in
      IEEE 754.
    - A Python [int] attribute ([K], [D], [M], [T], [I], [max_iter]) is a [Z];
      [range(n)] is [seq 0 (Z.to_nat n)], empty for [n <= 0].
    - A computation that raises (an index or key that is absent, an unbound
      local, a reduction of an empty array, a negative shape, an integer
      division by zero, a singular matrix handed to [np.linalg.inv]) is
      [None] in the [option] monad.
    - A float division by zero does not raise in numpy: it yields [inf] or
      [nan].  In the reported metric such a value is [NonFinite] in [xreal]
      and a finite one is [Finite r]; an array whose every entry is [inf] or
      [nan] ([np_divide] by a zero sum) is [None], as no array of reals is
      left to compute with.
    - The random draws of [gaussian_test] are read from an explicit
      environment [env], so that a run is a function of its draws.
    - Elementwise numpy arithmetic is modelled on arrays of the documented
      shapes (alpha: [K], Theta: [M] x [D], X[k]: [M]); on other shapes numpy
      broadcasts or raises, which is not modelled. *)

From Stdlib Require Import Reals Lra Lia List ZArith Permutation Sorted.
From Stdlib Require Import ClassicalDescription IndefiniteDescription.
Import ListNotations.

Open Scope R_scope.

(** ** The error monad *)

Definition bind {A B : Type} (m : option A) (f : A -> option B) : option B :=
  match m with
  | Some a => f a
  | None => None
  end.

Notation "x <- m ;; k" := (bind m (fun x => k))
  (at level 61, m at next level, right associativity).
Notation "' p <- m ;; k" := (bind m (fun p => k))
  (at level 61, p pattern, m at next level, right associativity).

(** [range(n)] for a Python int [n]. *)
Definition range (n : Z) : list nat := seq 0 (Z.to_nat n).

(** [for k in rng: s = body(k, s)], where the body may raise. *)
Fixpoint for_each {S : Type} (rng : list nat) (body : nat -> S -> option S)
    (s : S) : option S :=
  match rng with
  | [] => Some s
  | k :: rng' => s' <- body k s ;; for_each rng' body s'
  end.

(** ** Vectors (1-D arrays) *)

Definition vec := list R.

(** [np.sum(v)]. *)
Definition np_sum (v : vec) : R := fold_right Rplus 0 v.

(** [v - x] for a scalar [x]. *)
Definition vsub_scalar (v : vec) (x : R) : vec := map (fun vi => vi - x) v.

(** [np.maximum(v, c)] for a scalar [c]. *)
Definition np_maximum (v : vec) (c : R) : vec := map (fun vi => Rmax vi c) v.

(** [np.min(v)] and [np.max(v)]: both raise on an empty array. *)
Definition np_min (v : vec) : option R :=
  match v with
  | [] => None
  | a :: l => Some (fold_left Rmin l a)
  end.

Definition np_max (v : vec) : option R :=
  match v with
  | [] => None
  | a :: l => Some (fold_left Rmax l a)
  end.

(** ** misc.py *)

Module Misc.

(** [func = lambda x: np.sum(np.maximum(v - x, 0)) - z]. *)
Definition func (v : vec) (z : R) (x : R) : R :=
  np_sum (np_maximum (vsub_scalar v x) 0) - z.

(** The [for it in range(max_iter)] loop.  [last] is the binding of
    [(midpoint, it)] left by the previous pass, [None] before the first. *)
Fixpoint bisect_loop (f : R -> R) (tau : R) (rng : list nat)
    (lower upper : R) (last : option (R * nat)) : option (R * nat) :=
  match rng with
  | [] => last
  | it :: rng' =>
      let midpoint := (upper + lower) / 2 in
      let value := f midpoint in
      if Rle_dec (Rabs value) tau then Some (midpoint, it)
      else if Rle_dec value 0
           then bisect_loop f tau rng' lower midpoint (Some (midpoint, it))
           else bisect_loop f tau rng' midpoint upper (Some (midpoint, it))
  end.

(** The final [(midpoint, it)] of the loop of
    [projection_simplex_bisection(v, z, tau, max_iter)]. *)
Definition bisection (v : vec) (z tau : R) (max_iter : Z) : option (R * nat) :=
  mn <- np_min v ;;
  mx <- np_max v ;;
  let lower := mn - z / INR (length v) in
  let upper := mx in
  bisect_loop (func v z) tau (range max_iter) lower upper None.

(** [projection_simplex_bisection(v, z, tau, max_iter)].  With no pass of the
    loop, [midpoint] is unbound at the [return]. *)
Definition projection_simplex_bisection (v : vec) (z tau : R) (max_iter : Z)
    : option vec :=
  '(midpoint, _) <- bisection v z tau max_iter ;;
  Some (np_maximum (vsub_scalar v midpoint) 0).

(** The defaults [z=1, tau=1e-6, max_iter=1000]. *)
Definition default_z : R := 1.
Definition default_tau : R := / 1000000.
Definition default_max_iter : Z := 1000%Z.

End Misc.

(** ** More numpy primitives *)

(** [np.zeros(n)] and [np.ones(n)] raise on a negative [n]. *)
Definition np_zeros (n : Z) : option vec :=
  if (n <? 0)%Z then None else Some (repeat 0 (Z.to_nat n)).

Definition np_ones (n : Z) : option vec :=
  if (n <? 0)%Z then None else Some (repeat 1 (Z.to_nat n)).

(** [c * v], [u + v], [u * v] (elementwise) and [u.dot(v)]. *)
Definition vscale (c : R) (v : vec) : vec := map (fun x => c * x) v.

Fixpoint vadd (u v : vec) : vec :=
  match u, v with
  | a :: u', b :: v' => (a + b) :: vadd u' v'
  | _, _ => []
  end.

Fixpoint vmul (u v : vec) : vec :=
  match u, v with
  | a :: u', b :: v' => (a * b) :: vmul u' v'
  | _, _ => []
  end.

Fixpoint vdot (u v : vec) : R :=
  match u, v with
  | a :: u', b :: v' => a * b + vdot u' v'
  | _, _ => 0
  end.

(** [np.sort(x)]: the ascending arrangement of the entries. *)
Fixpoint insert (a : R) (l : vec) : vec :=
  match l with
  | [] => [a]
  | b :: l' => if Rle_dec a b then a :: l else b :: insert a l'
  end.

Definition np_sort (x : vec) : vec := fold_right insert [] x.

(** [np.argsort(x)]: indices that arrange [x] in ascending order.  numpy does
    not fix the order of equal keys; the model puts the lower index first. *)
Fixpoint insert_by (key : nat -> R) (i : nat) (l : list nat) : list nat :=
  match l with
  | [] => [i]
  | j :: l' => if Rle_dec (key i) (key j) then i :: l else j :: insert_by key i l'
  end.

Definition np_argsort (x : vec) : list nat :=
  fold_right (insert_by (fun i => nth i x 0)) [] (seq 0 (length x)).

(** [temp[order]]: indexing by an index array; an index out of bounds raises. *)
Fixpoint take (temp : vec) (order : list nat) : option vec :=
  match order with
  | [] => Some []
  | i :: order' =>
      a <- nth_error temp i ;;
      rest <- take temp order' ;;
      Some (a :: rest)
  end.

(** [l[k] = v]: raises when [k] is out of range. *)
Fixpoint list_set {A : Type} (l : list A) (k : nat) (v : A) : option (list A) :=
  match l, k with
  | [], _ => None
  | _ :: l', O => Some (v :: l')
  | a :: l', S k' => l'' <- list_set l' k' v ;; Some (a :: l'')
  end.

(** [np.argmax(v)]: the first index of the maximum; raises on an empty array. *)
Fixpoint argmax_from (best : nat) (bv : R) (i : nat) (l : vec) : nat :=
  match l with
  | [] => best
  | a :: l' => if Rlt_dec bv a then argmax_from i a (S i) l'
               else argmax_from best bv (S i) l'
  end.

Definition np_argmax (v : vec) : option nat :=
  match v with
  | [] => None
  | a :: l => Some (argmax_from 0 a 1 l)
  end.

(** [temp / s] for a scalar [s].  On a non-empty array a zero [s] yields
    [inf] and [nan] entries only: there is no array of reals to return. *)
Definition np_divide (temp : vec) (s : R) : option vec :=
  match temp with
  | [] => Some []
  | _ => if Req_dec_T s 0 then None else Some (map (fun x => x / s) temp)
  end.

(** Floats that may have left the reals. *)
Inductive xreal : Type :=
| Finite (r : R)
| NonFinite.

(** [v / t] for a Python int [t]: division by [0] gives [inf] or [nan]. *)
Definition np_true_divide (v : vec) (t : nat) : list xreal :=
  map (fun x => if Nat.eqb t 0 then NonFinite else Finite (x / INR t)) v.

Fixpoint all_finite (xs : list xreal) : option vec :=
  match xs with
  | [] => Some []
  | Finite r :: xs' => u <- all_finite xs' ;; Some (r :: u)
  | NonFinite :: _ => None
  end.

(** [np.sort(xs).dot(w)]: an [inf] or [nan] entry makes the sum [inf] or [nan]. *)
Definition sort_dot (xs : list xreal) (w : vec) : xreal :=
  match all_finite xs with
  | Some u => Finite (vdot (np_sort u) w)
  | None => NonFinite
  end.

(** ** Matrices (2-D arrays) *)

Record mat : Type := mkMat { ncols : nat; rows : list vec }.

Definition nrows (A : mat) : nat := length (rows A).

Definition wf_mat (A : mat) : Prop :=
  Forall (fun r => length r = ncols A) (rows A).

(** Column [j] of [A]. *)
Definition col (j : nat) (A : mat) : vec := map (fun r => nth j r 0) (rows A).

(** [A.T]. *)
Definition transpose (A : mat) : mat :=
  {| ncols := nrows A; rows := map (fun j => col j A) (seq 0 (ncols A)) |}.

(** [A.dot(x)], [x.dot(A)] and [A.dot(B)]. *)
Definition matvec (A : mat) (x : vec) : vec := map (fun r => vdot r x) (rows A).

Definition vecmat (x : vec) (A : mat) : vec :=
  map (fun j => vdot x (col j A)) (seq 0 (ncols A)).

Definition mat_mul (A B : mat) : mat :=
  {| ncols := ncols B; rows := map (fun r => vecmat r B) (rows A) |}.

(** [np.identity(n)], on a natural number and on a Python int. *)
Definition identity (n : nat) : mat :=
  {| ncols := n;
     rows := map (fun i => map (fun j => if Nat.eqb i j then 1 else 0) (seq 0 n))
                 (seq 0 n) |}.

Definition np_identity (n : Z) : option mat :=
  if (n <? 0)%Z then None else Some (identity (Z.to_nat n)).

(** [np.zeros((m, n))]. *)
Definition np_zeros2 (m n : Z) : option mat :=
  if ((m <? 0) || (n <? 0))%Z%bool then None
  else Some {| ncols := Z.to_nat n;
               rows := repeat (repeat 0 (Z.to_nat n)) (Z.to_nat m) |}.

(** [c * A], [A + s] for a scalar [s] (broadcast to every entry), [A + B]. *)
Definition mscale (c : R) (A : mat) : mat :=
  {| ncols := ncols A; rows := map (vscale c) (rows A) |}.

Definition madd_scalar (A : mat) (s : R) : mat :=
  {| ncols := ncols A; rows := map (map (fun a => a + s)) (rows A) |}.

Fixpoint vadd_rows (ra rb : list vec) : list vec :=
  match ra, rb with
  | a :: ra', b :: rb' => vadd a b :: vadd_rows ra' rb'
  | _, _ => []
  end.

Definition madd (A B : mat) : mat :=
  {| ncols := ncols A; rows := vadd_rows (rows A) (rows B) |}.

(** [x.reshape(m, 1)] and [r.reshape(1, n)] raise when the sizes differ. *)
Definition reshape_col (x : vec) (m : Z) : option mat :=
  if (Z.of_nat (length x) =? m)%Z
  then Some {| ncols := 1; rows := map (fun a => [a]) x |}
  else None.

Definition reshape_row (r : vec) (n : Z) : option mat :=
  if (Z.of_nat (length r) =? n)%Z
  then Some {| ncols := length r; rows := [r] |}
  else None.

(** [np.linalg.inv(A)]: the inverse of a square non-singular matrix; raises
    [LinAlgError] otherwise.  The routine is external; it is specified by what
    it returns. *)
Definition is_inverse (A Ai : mat) : Prop :=
  ncols A = nrows A /\ ncols Ai = nrows A /\ nrows Ai = nrows A /\ wf_mat Ai /\
  mat_mul A Ai = identity (nrows A) /\ mat_mul Ai A = identity (nrows A).

Definition linalg_inv (A : mat) : option mat :=
  match excluded_middle_informative (exists Ai, is_inverse A Ai) with
  | left H => Some (proj1_sig (constructive_indefinite_description _ H))
  | right _ => None
  end.

(** [np.linspace(start, stop, num)] raises on a negative [num];
    [np.power(b, e)] is elementwise. *)
Definition np_linspace (start stop : R) (num : Z) : option vec :=
  if (num <? 0)%Z then None
  else Some (map (fun i => if (num =? 1)%Z then start
                           else start + INR i * ((stop - start) / (IZR num - 1)))
                 (seq 0 (Z.to_nat num))).

Definition np_power (b : R) (e : vec) : vec := map (Rpower b) e.

(** ** MOCB.py *)

Module MOCB.

(** The attributes set by [__init__]. *)
Record t : Type := mk {
  K : Z;      (* number of bandits *)
  D : Z;      (* dimension of rewards *)
  M : Z;      (* dimension of features *)
  T : Z;      (* maximum rounds *)
  lam : R;    (* weighting parameter for A *)
  eta : R;    (* step-size for GD *)
  I : Z;      (* iteration number for GD *)
  w : vec
}.

(** [MOCB.__init__(K, D, M, T, lam, eta, I)]. *)
Definition init (K D M T : Z) (lam eta : R) (I : Z) : option t :=
  e <- np_linspace 0 (IZR (- D + 1)) D ;;
  Some (mk K D M T lam eta I (np_power 2 e)).

(** The aggregate [x] of [GGI] and [grad]:
    [x = np.zeros(D); for k in range(K): x += alpha[k] * Theta.T.dot(X[k])]. *)
Definition aggregate (self : t) (alpha : vec) (Theta : mat) (X : list vec)
    : option vec :=
  x0 <- np_zeros (D self) ;;
  for_each (range (K self))
    (fun k x =>
       a <- nth_error alpha k ;;
       Xk <- nth_error X k ;;
       Some (vadd x (vscale a (matvec (transpose Theta) Xk))))
    x0.

(** [MOCB.GGI(alpha, Theta, X)]. *)
Definition GGI (self : t) (alpha : vec) (Theta : mat) (X : list vec) : option R :=
  x <- aggregate self alpha Theta X ;;
  Some (vdot (np_sort x) (w self)).

(** [MOCB.grad(alpha, Theta_hat, X)]. *)
Definition grad (self : t) (alpha : vec) (Theta_hat : mat) (X : list vec)
    : option vec :=
  x <- aggregate self alpha Theta_hat X ;;
  let order := np_argsort x in
  gradient0 <- np_zeros (K self) ;;
  for_each (range (K self))
    (fun k gradient =>
       Xk <- nth_error X k ;;
       let temp := matvec (transpose Theta_hat) Xk in
       temp_order <- take temp order ;;
       list_set gradient k (vdot (w self) temp_order))
    gradient0.

(** [MOCB.grad_descent(alpha, Theta_hat, X)]. *)
Definition grad_descent (self : t) (alpha : vec) (Theta_hat : mat) (X : list vec)
    : option vec :=
  for_each (range (I self))
    (fun _ alpha =>
       g <- grad self alpha Theta_hat X ;;
       Misc.projection_simplex_bisection (vadd alpha (vscale (eta self) g))
         Misc.default_z Misc.default_tau Misc.default_max_iter)
    alpha.

(** One pass of the loop of [mirror_descent]. *)
Definition mirror_step (self : t) (Theta_hat : mat) (X : list vec) (alpha : vec)
    : option vec :=
  g <- grad self alpha Theta_hat X ;;
  let temp := vmul alpha (map exp (vscale (eta self) g)) in
  np_divide temp (np_sum temp).

(** [MOCB.mirror_descent(alpha, Theta_hat, X)]. *)
Definition mirror_descent (self : t) (alpha : vec) (Theta_hat : mat) (X : list vec)
    : option vec :=
  for_each (range (I self)) (fun _ alpha => mirror_step self Theta_hat X alpha) alpha.

(** The draws of a run.  [np.random.normal(loc, scale)] is
    [loc + scale * xi] for a standard normal draw [xi]. *)
Record env : Type := mkEnv {
  uniform : nat -> nat -> R;            (* Theta[m][d], in [0, 1) *)
  normal_X : nat -> nat -> nat -> R;    (* round, arm, coordinate *)
  normal_r : nat -> nat -> R            (* round, objective *)
}.

(** The variables of [gaussian_test] that live across rounds. *)
Record state : Type := mkState {
  A : mat;
  B : mat;
  alpha : vec;
  r_ave : vec;
  GGI_list : list xreal
}.

(** [Theta = np.random.uniform(0, 1, (M, D))]. *)
Definition draw_Theta (self : t) (e : env) : option mat :=
  if ((M self <? 0) || (D self <? 0))%Z%bool then None
  else Some {| ncols := Z.to_nat (D self);
               rows := map (fun m => map (uniform e m) (seq 0 (Z.to_nat (D self))))
                           (seq 0 (Z.to_nat (M self))) |}.

(** [np.random.normal(1/M, 1/M, M)]: [1/self.M] raises when [M] is [0]. *)
Definition features (self : t) (e : env) (rnd k : nat) : vec :=
  map (fun m => 1 / IZR (M self) + 1 / IZR (M self) * normal_X e rnd k m)
      (seq 0 (Z.to_nat (M self))).

Definition draw_X (self : t) (e : env) (rnd k : nat) : option vec :=
  if (M self =? 0)%Z then None else Some (features self e rnd k).

(** [for k in range(K): X[k] = ...]: every key of [range(K)] is rebound in
    every round, so the dictionary is the list of the round's draws. *)
Definition draw_features (self : t) (e : env) (rnd : nat) : option (list vec) :=
  for_each (range (K self))
    (fun k X => Xk <- draw_X self e rnd k ;; Some (X ++ [Xk])) [].

(** [[np.random.normal(0, 0.1 * abs(mu[d])) for d in range(D)]]. *)
Fixpoint draw_noise (e : env) (rnd : nat) (mu : vec) (ds : list nat) : option vec :=
  match ds with
  | [] => Some []
  | d :: ds' =>
      mu_d <- nth_error mu d ;;
      rest <- draw_noise e rnd mu ds' ;;
      Some ((0 + / 10 * Rabs mu_d * normal_r e rnd d) :: rest)
  end.

(** Lines 104 and 105: [A += X[k].dot(X[k].T)] and
    [B += X[k].reshape(M, 1).dot(r.reshape(1, D))].  [X[k]] is 1-D, so
    [X[k].T] is [X[k]] and the first product is a scalar. *)
Definition update_A (A : mat) (Xk : vec) : mat := madd_scalar A (vdot Xk Xk).

Definition update_B (self : t) (B : mat) (Xk r : vec) : option mat :=
  c <- reshape_col Xk (M self) ;;
  rw <- reshape_row r (D self) ;;
  Some (madd B (mat_mul c rw)).

(** Line 107: [np.sort(r_ave / t).dot(self.w)]. *)
Definition running_metric (self : t) (r_ave : vec) (rnd : nat) : xreal :=
  sort_dot (np_true_divide r_ave rnd) (w self).

(** The body of [for t in range(T)].  The [print] of every 50th round is left
    out. *)
Definition round (self : t) (e : env) (Theta : mat) (rnd : nat) (st : state)
    : option state :=
  Ainv <- linalg_inv (A st) ;;
  let Theta_hat := mat_mul Ainv (B st) in
  X <- draw_features self e rnd ;;
  alpha <- mirror_descent self (alpha st) Theta_hat X ;;
  k <- np_argmax alpha ;;
  Xk <- nth_error X k ;;
  let mu := vecmat Xk Theta in
  noise <- draw_noise e rnd mu (range (D self)) ;;
  let r := vadd mu noise in
  let r_ave := vadd (r_ave st) r in
  let A := update_A (A st) Xk in
  B <- update_B self (B st) Xk r ;;
  GGI_list <- list_set (GGI_list st) rnd (running_metric self r_ave rnd) ;;
  Some (mkState A B alpha r_ave GGI_list).

(** The state before the first round. *)
Definition init_state (self : t) : option state :=
  idM <- np_identity (M self) ;;
  let A := mscale (lam self) idM in
  B <- np_zeros2 (M self) (D self) ;;
  let GGI_list := repeat (Finite 0) (Z.to_nat (T self)) in
  ones <- (if (K self =? 0)%Z then None else np_ones (K self)) ;;
  let alpha := vscale (1 / IZR (K self)) ones in
  r_ave <- np_zeros (D self) ;;
  Some (mkState A B alpha r_ave GGI_list).

(** The state after the first [n] rounds. *)
Definition run_rounds (self : t) (e : env) (n : nat) : option state :=
  st0 <- init_state self ;;
  Theta <- draw_Theta self e ;;
  for_each (seq 0 n) (round self e Theta) st0.

(** [MOCB.gaussian_test()], up to the plot: the state after [T] rounds. *)
Definition gaussian_test (self : t) (e : env) : option state :=
  run_rounds self e (Z.to_nat (T self)).

End MOCB.

(** ** The range of [float64] *)

Module F64.

(** A [float64] value: a finite number, an infinity or [nan].  Inside the
    range a finite value is a real number: rounding to 53 bits and the sign
    of a zero are not modelled. *)
Inductive t : Type :=
| Fin (r : R)
| PInf
| NInf
| NaN.

(** A result of magnitude [2^1024] or more overflows to an infinity; a result
    of magnitude [2^-1075] (half the least positive [float64]) or less rounds
    to zero. *)
Definition huge : R := 2 ^ 1024.

Definition tiny : R := / 2 ^ 1075.

(** The least positive normal [float64]: from there up, rounding is
    relative. *)
Definition least_normal : R := / 2 ^ 1022.

Definition rnd (r : R) : t :=
  if Rle_dec huge r then PInf
  else if Rle_dec r (- huge) then NInf
  else if Rle_dec (Rabs r) tiny then Fin 0
  else Fin r.

(** [x + y], [x * y] and [x / y] follow IEEE 754 on infinities and [nan];
    a zero divisor is [+0.0]. *)
Definition add (x y : t) : t :=
  match x, y with
  | NaN, _ | _, NaN => NaN
  | PInf, NInf | NInf, PInf => NaN
  | PInf, _ | _, PInf => PInf
  | NInf, _ | _, NInf => NInf
  | Fin a, Fin b => rnd (a + b)
  end.

Definition scale_inf (a : R) (pos : bool) : t :=
  if Rlt_dec 0 a then (if pos then PInf else NInf)
  else if Rlt_dec a 0 then (if pos then NInf else PInf)
  else NaN.

Definition mul (x y : t) : t :=
  match x, y with
  | NaN, _ | _, NaN => NaN
  | Fin a, Fin b => rnd (a * b)
  | Fin a, PInf | PInf, Fin a => scale_inf a true
  | Fin a, NInf | NInf, Fin a => scale_inf a false
  | PInf, PInf | NInf, NInf => PInf
  | PInf, NInf | NInf, PInf => NInf
  end.

Definition div (x y : t) : t :=
  match x, y with
  | NaN, _ | _, NaN => NaN
  | Fin a, Fin b => if Req_dec_T b 0 then scale_inf a true else rnd (a / b)
  | Fin _, PInf | Fin _, NInf => Fin 0
  | PInf, Fin b => if Rle_dec 0 b then PInf else NInf
  | NInf, Fin b => if Rle_dec 0 b then NInf else PInf
  | PInf, PInf | PInf, NInf | NInf, PInf | NInf, NInf => NaN
  end.

(** [np.exp]. *)
Definition exp (x : t) : t :=
  match x with
  | Fin r => rnd (Rtrigo_def.exp r)
  | PInf => PInf
  | NInf => Fin 0
  | NaN => NaN
  end.

(** The order [np.argsort] sorts by: [nan] comes last. *)
Definition leb (x y : t) : bool :=
  match x, y with
  | _, NaN => true
  | NaN, _ => false
  | NInf, _ => true
  | _, NInf => false
  | _, PInf => true
  | PInf, _ => false
  | Fin a, Fin b => if Rle_dec a b then true else false
  end.

(** [u + v], [u * v] (elementwise), [u.dot(v)] and [np.sum(v)]. *)
Fixpoint vadd (u v : list t) : list t :=
  match u, v with
  | a :: u', b :: v' => add a b :: vadd u' v'
  | _, _ => []
  end.

Fixpoint vmul (u v : list t) : list t :=
  match u, v with
  | a :: u', b :: v' => mul a b :: vmul u' v'
  | _, _ => []
  end.

Fixpoint dot (u v : list t) : t :=
  match u, v with
  | a :: u', b :: v' => add (mul a b) (dot u' v')
  | _, _ => Fin 0
  end.

Definition sum (v : list t) : t := fold_left add v (Fin 0).

(** [np.argsort(x)], equal keys in index order. *)
Fixpoint insert_by (key : nat -> t) (i : nat) (l : list nat) : list nat :=
  match l with
  | [] => [i]
  | j :: l' => if leb (key i) (key j) then i :: l else j :: insert_by key i l'
  end.

Definition argsort (x : list t) : list nat :=
  fold_right (insert_by (fun i => nth i x NaN)) [] (seq 0 (length x)).

(** [temp[order]]. *)
Fixpoint take (temp : list t) (order : list nat) : option (list t) :=
  match order with
  | [] => Some []
  | i :: order' =>
      a <- nth_error temp i ;;
      rest <- take temp order' ;;
      Some (a :: rest)
  end.

(** [A.dot(x)], and [Theta.T.dot(Xk)] of finite [Theta] and [Xk]. *)
Definition matvec (A : mat) (x : list t) : list t :=
  map (fun r => dot (map Fin r) x) (rows A).

Definition per_arm (Theta : mat) (Xk : vec) : list t :=
  matvec (transpose Theta) (map Fin Xk).

(** Lines 51 to 53 of [MOCB.grad]. *)
Definition aggregate (self : MOCB.t) (alpha : list t) (Theta : mat) (X : list vec)
    : option (list t) :=
  x0 <- np_zeros (MOCB.D self) ;;
  for_each (range (MOCB.K self))
    (fun k x =>
       a <- nth_error alpha k ;;
       Xk <- nth_error X k ;;
       Some (vadd x (map (mul a) (per_arm Theta Xk))))
    (map Fin x0).

(** [MOCB.grad(alpha, Theta_hat, X)]. *)
Definition grad (self : MOCB.t) (alpha : list t) (Theta_hat : mat) (X : list vec)
    : option (list t) :=
  x <- aggregate self alpha Theta_hat X ;;
  let order := argsort x in
  gradient0 <- np_zeros (MOCB.K self) ;;
  for_each (range (MOCB.K self))
    (fun k gradient =>
       Xk <- nth_error X k ;;
       let temp := per_arm Theta_hat Xk in
       temp_order <- take temp order ;;
       list_set gradient k (dot (map Fin (MOCB.w self)) temp_order))
    (map Fin gradient0).

(** One pass of the loop of [MOCB.mirror_descent] (lines 71 and 72). *)
Definition mirror_step (self : MOCB.t) (Theta_hat : mat) (X : list vec)
    (alpha : list t) : option (list t) :=
  g <- grad self alpha Theta_hat X ;;
  let temp := vmul alpha (map exp (map (mul (Fin (MOCB.eta self))) g)) in
  Some (map (fun x => div x (sum temp)) temp).

(** [MOCB.mirror_descent(alpha, Theta_hat, X)]. *)
Definition mirror_descent (self : MOCB.t) (alpha : list t) (Theta_hat : mat)
    (X : list vec) : option (list t) :=
  for_each (range (MOCB.I self)) (fun _ alpha => mirror_step self Theta_hat X alpha) alpha.

End F64.

(** ** Notions used by the statements *)

(** Squared Euclidean distance and Euclidean distance. *)
Fixpoint dist2 (u v : vec) : R :=
  match u, v with
  | a :: u', b :: v' => (a - b) * (a - b) + dist2 u' v'
  | _, _ => 0
  end.

Definition distance (u v : vec) : R := sqrt (dist2 u v).

(** [sum_i (a_i - b_i) * (b_i - c_i)]. *)
Fixpoint cross (a b c : vec) : R :=
  match a, b, c with
  | x :: a', y :: b', u :: c' => (x - y) * (y - u) + cross a' b' c'
  | _, _, _ => 0
  end.

Definition nonneg (v : vec) : Prop := Forall (fun a => 0 <= a) v.

Definition positive (v : vec) : Prop := Forall (fun a => 0 < a) v.

(** The probability simplex. *)
Definition on_simplex (alpha : vec) : Prop := nonneg alpha /\ np_sum alpha = 1.

(** [sum_n n f] is the sum of [f k] over [k < n]. *)
Fixpoint sum_n (n : nat) (f : nat -> R) : R :=
  match n with
  | O => 0
  | S n' => sum_n n' f + f n'
  end.

(** Entry [(m, d)] of a matrix and entry [m] of the [k]-th feature vector. *)
Definition entry (A : mat) (m d : nat) : R := nth d (nth m (rows A) []) 0.

Definition feature (X : list vec) (k m : nat) : R := nth m (nth k X []) 0.

(** Coordinate [d] of [Theta^T . X[k]], and of the aggregate
    [sum_k alpha[k] . (Theta^T . X[k])]. *)
Definition per_objective (Theta : mat) (X : list vec) (k d : nat) : R :=
  sum_n (nrows Theta) (fun m => entry Theta m d * feature X k m).

Definition aggregate_spec (alpha : vec) (Theta : mat) (X : list vec) (d : nat) : R :=
  sum_n (length alpha) (fun k => nth k alpha 0 * per_objective Theta X k d).

(** The documented shapes: [alpha] of length [K], [Theta] with [D] columns and
    rows of that length, [K] feature vectors of the row count of [Theta]. *)
Definition well_shaped (self : MOCB.t) (alpha : vec) (Theta : mat) (X : list vec)
    : Prop :=
  Z.of_nat (length alpha) = MOCB.K self /\
  Z.of_nat (length X) = MOCB.K self /\
  Z.of_nat (ncols Theta) = MOCB.D self /\
  wf_mat Theta /\
  Forall (fun Xk => length Xk = nrows Theta) X.

(** Kronecker delta, and the matrix [lam * identity(n) + c] of entries
    [lam * delta i j + c]. *)
Definition delta (i j : nat) : R := if Nat.eqb i j then 1 else 0.

Definition ridge (n : nat) (lam c : R) : mat :=
  {| ncols := n;
     rows := map (fun i => map (fun j => lam * delta i j + c) (seq 0 n)) (seq 0 n) |}.

(** The outer product [x . r^T]. *)
Definition outer (x r : vec) : mat :=
  {| ncols := length r; rows := map (fun a => map (fun b => a * b) r) x |}.

(** ** A small instance: two arms, two objectives, two features *)

Definition two_arms : MOCB.t := MOCB.mk 2 2 2 1 1 1 1 [1; / 2].

Definition two_arms_alpha : vec := [/ 2; / 2].

Definition two_arms_Theta : mat := identity 2.

Definition two_arms_X : list vec := [[1; 0]; [0; 1]].


(** Two arms, one objective: the second arm's estimated reward is [-3000]. *)
Definition far_arms : MOCB.t := MOCB.mk 2 1 2 1 1 1 1 [1].

Definition far_Theta : mat := {| ncols := 1; rows := [[0]; [-3000]] |}.

(** ** The run *)

(** Configurations on which every round of a run can proceed. *)
Definition runnable (self : MOCB.t) : Prop :=
  (0 < MOCB.K self)%Z /\ (0 < MOCB.M self)%Z /\ (0 <= MOCB.D self)%Z /\
  0 < MOCB.lam self.

(** What holds of the state after [n] rounds. *)
Definition loop_inv (self : MOCB.t) (n : nat) (st : MOCB.state) : Prop :=
  (exists c, 0 <= c /\
             MOCB.A st = ridge (Z.to_nat (MOCB.M self)) (MOCB.lam self) c) /\
  ncols (MOCB.B st) = Z.to_nat (MOCB.D self) /\
  length (MOCB.alpha st) = Z.to_nat (MOCB.K self) /\
  on_simplex (MOCB.alpha st) /\
  length (MOCB.r_ave st) = Z.to_nat (MOCB.D self) /\
  length (MOCB.GGI_list st) = Z.to_nat (MOCB.T self) /\
  ((1 <= n)%nat -> (1 <= Z.to_nat (MOCB.D self))%nat ->
   nth 0 (MOCB.GGI_list st) (Finite 0) = NonFinite) /\
  (forall t, (1 <= t < n)%nat ->
             exists x, nth t (MOCB.GGI_list st) (Finite 0) = Finite x).

(** A run of one round with one arm and two features: the arm's feature
    vector is [[1, 2]]. *)
Definition one_arm : MOCB.t := MOCB.mk 1 1 2 1 1 1 1 [1].

Definition one_arm_env : MOCB.env :=
  MOCB.mkEnv (fun _ _ => / 2)
             (fun _ _ m => match m with O => 1 | _ => 3 end)
             (fun _ _ => 0).

(** The weights have the shape [__init__] gives them: one per objective. *)
Definition weights_shaped (self : MOCB.t) : Prop :=
  length (MOCB.w self) = Z.to_nat (MOCB.D self).

(** ** The passes of the bisection *)

(** The bracket [(lower, upper)] at the start of pass [n] of the loop of
    [projection_simplex_bisection], when no pass before it left by the
    [break]: lines 26 to 29 applied [n] times. *)
Fixpoint bracket_at (f : R -> R) (n : nat) (lower upper : R) : R * R :=
  match n with
  | O => (lower, upper)
  | S n' =>
      let midpoint := (upper + lower) / 2 in
      if Rle_dec (f midpoint) 0 then bracket_at f n' lower midpoint
      else bracket_at f n' midpoint upper
  end.

(** The midpoint that pass [n] evaluates (line 20). *)
Definition midpoint_at (f : R -> R) (n : nat) (lower upper : R) : R :=
  let '(l, u) := bracket_at f n lower upper in (u + l) / 2.

(** ** The ascent inside the range of [float64] *)

(** The finite part of [F64.rnd]. *)
Definition flush (r : R) : R := if Rle_dec (Rabs r) F64.tiny then 0 else r.

(** Values that stay finite within a bound. *)
Definition fin_le (b : R) (x : F64.t) : Prop := exists r, x = F64.Fin r /\ Rabs r <= b.

(** For every arm [k] and objective [d], the products that make up coordinate
    [d] of [Theta^T . X[k]] total at most [Y] in magnitude:
    [sum_m |Theta[m][d]| * |X[k][m]| <= Y]. *)
Definition bounded_by (Y : R) (Theta : mat) (X : list vec) : Prop :=
  Forall (fun Xk =>
            Forall (fun r => vdot (map Rabs r) (map Rabs Xk) <= Y)
                   (rows (transpose Theta))) X.

(** [sum_j |w_j|]. *)
Definition weight_mass (self : MOCB.t) : R := np_sum (map Rabs (MOCB.w self)).

(** [Theta^T . X[k]] and the gradient entries stay finite, a factor 2 below
    the overflow threshold, and [eta] times a gradient entry stays within
    [L]. *)
Definition in_range (self : MOCB.t) (Theta : mat) (X : list vec) (L : R) : Prop :=
  exists Y, 0 <= Y /\ bounded_by Y Theta X /\
            2 * Y <= F64.huge /\ 2 * (weight_mass self * Y) <= F64.huge /\
            Rabs (MOCB.eta self) * (weight_mass self * Y) <= L.

(** How one pass moves an entry: a zero stays zero, and an entry well above
    the underflow threshold shrinks by [exp (-2L)] at most. *)
Definition entry_kept (L : R) (x o : R) : Prop :=
  (x = 0 -> o = 0) /\
  (F64.tiny * exp (2 * L) < x -> x * exp (- (2 * L)) <= o).

(** On the simplex up to the mass that underflow can take from [n] entries. *)
Definition near_simplex (n : nat) (a : vec) : Prop :=
  nonneg a /\ 1 - INR n * F64.tiny <= np_sum a <= 1.

(** * Properties *)

(** ** Sums and elementwise bounds *)

Lemma np_sum_map_ge (g : R -> R) (c : R) (v : vec) :
  (forall a, In a v -> c <= g a) ->
  INR (length v) * c <= np_sum (map g v).
Proof.
  induction v as [|a v IH]; intros Hg.
  - simpl. lra.
  - change (length (a :: v)) with (S (length v)). rewrite S_INR.
    simpl. assert (c <= g a) by (apply Hg; now left).
    assert (INR (length v) * c <= np_sum (map g v)) by (apply IH; intros; apply Hg; now right).
    lra.
Qed.

Lemma np_sum_nonneg (v : vec) : nonneg v -> 0 <= np_sum v.
Proof. induction 1; simpl; lra. Qed.

Lemma fold_left_Rmin_le (l : vec) (a : R) :
  fold_left Rmin l a <= a /\ forall b, In b l -> fold_left Rmin l a <= b.
Proof.
  revert a. induction l as [|c l IH]; intros a; simpl.
  - split; [lra | tauto].
  - destruct (IH (Rmin a c)) as [H1 H2]. split.
    + pose proof (Rmin_l a c). lra.
    + intros b [<- | Hb]; [pose proof (Rmin_r a c); lra | now apply H2].
Qed.

Lemma fold_left_Rmax_ge (l : vec) (a : R) :
  a <= fold_left Rmax l a /\ forall b, In b l -> b <= fold_left Rmax l a.
Proof.
  revert a. induction l as [|c l IH]; intros a; simpl.
  - split; [lra | tauto].
  - destruct (IH (Rmax a c)) as [H1 H2]. split.
    + pose proof (Rmax_l a c). lra.
    + intros b [<- | Hb]; [pose proof (Rmax_r a c); lra | now apply H2].
Qed.

Lemma np_min_le (v : vec) (mn : R) :
  np_min v = Some mn -> forall a, In a v -> mn <= a.
Proof.
  destruct v as [|c l]; [discriminate|]. intros [= <-] a [<- | Ha].
  - apply (proj1 (fold_left_Rmin_le l c)).
  - now apply (proj2 (fold_left_Rmin_le l c)).
Qed.

Lemma np_max_ge (v : vec) (mx : R) :
  np_max v = Some mx -> forall a, In a v -> a <= mx.
Proof.
  destruct v as [|c l]; [discriminate|]. intros [= <-] a [<- | Ha].
  - apply (proj1 (fold_left_Rmax_ge l c)).
  - now apply (proj2 (fold_left_Rmax_ge l c)).
Qed.

Lemma np_min_le_np_max (v : vec) (mn mx : R) :
  np_min v = Some mn -> np_max v = Some mx -> mn <= mx.
Proof.
  intros Hmn Hmx. destruct v as [|a l]; [discriminate|].
  pose proof (np_min_le _ _ Hmn a (or_introl eq_refl)).
  pose proof (np_max_ge _ _ Hmx a (or_introl eq_refl)). lra.
Qed.

(** ** The bisection loop *)

Section Bisect.

Variable f : R -> R.
Variable tau : R.

(** A loop of at least one pass binds [midpoint], runs at most as many passes
    as the range holds, and stops before the last one only by the tolerance
    test. *)
Lemma bisect_loop_steps (n s : nat) (lower upper : R) (last : option (R * nat)) :
  exists m it,
    Misc.bisect_loop f tau (seq s (S n)) lower upper last = Some (m, it) /\
    (s <= it < s + S n)%nat /\
    ((it + 1 < s + S n)%nat -> Rabs (f m) <= tau).
Proof.
  revert s lower upper last. induction n as [|n IH]; intros s lower upper last.
  - simpl. destruct (Rle_dec (Rabs (f ((upper + lower) / 2))) tau).
    + eexists _, _. split; [reflexivity|]. split; [lia|]. auto.
    + destruct (Rle_dec (f ((upper + lower) / 2)) 0);
        (eexists _, _; split; [reflexivity|]; split; lia).
  - change (seq s (S (S n))) with (s :: seq (S s) (S n)).
    cbv beta iota delta [Misc.bisect_loop]; fold Misc.bisect_loop. cbv zeta.
    destruct (Rle_dec (Rabs (f ((upper + lower) / 2))) tau).
    + eexists _, _. split; [reflexivity|]. split; [lia|]. auto.
    + destruct (Rle_dec (f ((upper + lower) / 2)) 0).
      * destruct (IH (S s) lower ((upper + lower) / 2) (Some ((upper + lower) / 2, s)))
          as (m & it & E & Hit & Htol).
        exists m, it. split; [exact E|]. split; [lia|]. intros; apply Htol; lia.
      * destruct (IH (S s) ((upper + lower) / 2) upper (Some ((upper + lower) / 2, s)))
          as (m & it & E & Hit & Htol).
        exists m, it. split; [exact E|]. split; [lia|]. intros; apply Htol; lia.
Qed.

(** The pass the loop stops at is the first whose midpoint meets the
    tolerance, or the last pass; the midpoints are those of the bisection. *)
Lemma bisect_loop_trace (n s : nat) (lower upper : R) (last : option (R * nat)) :
  exists j,
    (j <= n)%nat /\
    Misc.bisect_loop f tau (seq s (S n)) lower upper last
    = Some (midpoint_at f j lower upper, (s + j)%nat) /\
    (forall i, (i < j)%nat -> tau < Rabs (f (midpoint_at f i lower upper))) /\
    (Rabs (f (midpoint_at f j lower upper)) <= tau \/ j = n).
Proof.
  revert s lower upper last. induction n as [|n IH]; intros s lower upper last.
  - exists O. split; [lia|]. cbn [seq Misc.bisect_loop].
    unfold midpoint_at. cbn [bracket_at].
    destruct (Rle_dec (Rabs (f ((upper + lower) / 2))) tau) as [Ht|Ht].
    + split; [f_equal; f_equal; lia|]. split; [intros; lia | now left].
    + split.
      * destruct (Rle_dec (f ((upper + lower) / 2)) 0); f_equal; f_equal; lia.
      * split; [intros; lia | now right].
  - change (seq s (S (S n))) with (s :: seq (S s) (S n)).
    cbv beta iota delta [Misc.bisect_loop]; fold Misc.bisect_loop. cbv zeta.
    destruct (Rle_dec (Rabs (f ((upper + lower) / 2))) tau) as [Ht|Ht].
    + exists O. split; [lia|]. unfold midpoint_at. cbn [bracket_at].
      split; [f_equal; f_equal; lia|]. split; [intros; lia | now left].
    + assert (T0 : tau < Rabs (f (midpoint_at f 0 lower upper))).
      { unfold midpoint_at. cbn [bracket_at]. lra. }
      destruct (Rle_dec (f ((upper + lower) / 2)) 0) as [Hv|Hv].
      * destruct (IH (S s) lower ((upper + lower) / 2) (Some ((upper + lower) / 2, s)))
          as (j & Hj & E & Hbefore & Hstop).
        exists (S j). split; [lia|].
        assert (Hm : forall i, midpoint_at f (S i) lower upper
                               = midpoint_at f i lower ((upper + lower) / 2)).
        { intros i. unfold midpoint_at. cbn [bracket_at].
          destruct (Rle_dec (f ((upper + lower) / 2)) 0); [reflexivity | contradiction]. }
        rewrite Hm. split; [rewrite E; f_equal; f_equal; lia|]. split.
        -- intros [|i] Hi; [exact T0|]. rewrite Hm. apply Hbefore. lia.
        -- destruct Hstop as [Hs| ->]; [now left | now right].
      * destruct (IH (S s) ((upper + lower) / 2) upper (Some ((upper + lower) / 2, s)))
          as (j & Hj & E & Hbefore & Hstop).
        exists (S j). split; [lia|].
        assert (Hm : forall i, midpoint_at f (S i) lower upper
                               = midpoint_at f i ((upper + lower) / 2) upper).
        { intros i. unfold midpoint_at. cbn [bracket_at].
          destruct (Rle_dec (f ((upper + lower) / 2)) 0); [contradiction | reflexivity]. }
        rewrite Hm. split; [rewrite E; f_equal; f_equal; lia|]. split.
        -- intros [|i] Hi; [exact T0|]. rewrite Hm. apply Hbefore. lia.
        -- destruct Hstop as [Hs| ->]; [now left | now right].
Qed.

End Bisect.

(** ** The returned vector *)

Lemma clip_nonneg (v : vec) (m : R) : nonneg (np_maximum (vsub_scalar v m) 0).
Proof.
  unfold nonneg, np_maximum, vsub_scalar. rewrite map_map.
  apply Forall_forall. intros x Hx. apply in_map_iff in Hx as (a & <- & _).
  apply Rmax_r.
Qed.

Lemma clip_length (v : vec) (m : R) :
  length (np_maximum (vsub_scalar v m) 0) = length v.
Proof. unfold np_maximum, vsub_scalar. now rewrite !length_map. Qed.

(** [max(v - m, 0)] is the nearest point to [v] among the non-negative vectors
    of its own total. *)
Lemma clip_nearest_aux (m : R) (v q : vec) :
  length q = length v -> nonneg q ->
  2 * m * (np_sum (np_maximum (vsub_scalar v m) 0) - np_sum q)
  <= dist2 v q - dist2 v (np_maximum (vsub_scalar v m) 0).
Proof.
  unfold nonneg, np_maximum, vsub_scalar.
  revert q. induction v as [|a v IH]; intros [|b q] Hlen Hq; simpl in *;
    try discriminate; [lra|].
  inversion Hq as [|? ? Hb Hq']; subst.
  specialize (IH q ltac:(lia) Hq').
  set (S := np_sum _) in *. set (Dp := dist2 v _) in *.
  destruct (Rle_dec (a - m) 0) as [Hle | Hgt].
  - rewrite Rmax_right by exact Hle.
    assert (0 <= b * (m - a)) by (apply Rmult_le_pos; lra). nra.
  - rewrite Rmax_left by lra.
    pose proof (Rle_0_sqr (a - b - m)) as Hsq. unfold Rsqr in Hsq. nra.
Qed.

Lemma dist2_nonneg (u v : vec) : 0 <= dist2 u v.
Proof.
  revert v. induction u as [|a u IH]; intros [|b v]; simpl; try lra.
  specialize (IH v). pose proof (Rle_0_sqr (a - b)) as Hsq. unfold Rsqr in Hsq. lra.
Qed.

Lemma clip_nearest (m : R) (v q : vec) :
  length q = length v -> nonneg q ->
  np_sum q = np_sum (np_maximum (vsub_scalar v m) 0) ->
  distance v (np_maximum (vsub_scalar v m) 0) <= distance v q.
Proof.
  intros Hlen Hq Hsum. unfold distance. apply sqrt_le_1_alt.
  pose proof (clip_nearest_aux m v q Hlen Hq) as H. rewrite Hsum in H. lra.
Qed.

(** ** The triangle inequality of the Euclidean distance *)



Lemma dist2_cross (a b c : vec) :
  length a = length b -> length b = length c ->
  dist2 a c = dist2 a b + dist2 b c + 2 * cross a b c.
Proof.
  revert b c. induction a as [|x a IH]; intros [|y b] [|u c] H1 H2;
    simpl in *; try discriminate; [lra|].
  rewrite (IH b c) by lia. ring.
Qed.

Lemma cross_bound (a b c : vec) (s t : R) :
  length a = length b -> length b = length c ->
  2 * s * t * cross a b c <= s * s * dist2 a b + t * t * dist2 b c.
Proof.
  revert b c. induction a as [|x a IH]; intros [|y b] [|u c] H1 H2;
    simpl in *; try discriminate; [lra|].
  specialize (IH b c ltac:(lia) ltac:(lia)).
  pose proof (Rle_0_sqr (s * (x - y) - t * (y - u))) as Hsq. unfold Rsqr in Hsq.
  nra.
Qed.

Lemma distance_triangle (a b c : vec) :
  length a = length b -> length b = length c ->
  distance a c <= distance a b + distance b c.
Proof.
  intros H1 H2. unfold distance.
  pose proof (dist2_nonneg a b) as HA. pose proof (dist2_nonneg b c) as HB.
  pose proof (dist2_nonneg a c) as HC.
  set (al := sqrt (dist2 a b)). set (be := sqrt (dist2 b c)).
  assert (Hal : 0 <= al) by apply sqrt_pos.
  assert (Hbe : 0 <= be) by apply sqrt_pos.
  assert (Eal : al * al = dist2 a b) by (apply sqrt_sqrt; exact HA).
  assert (Ebe : be * be = dist2 b c) by (apply sqrt_sqrt; exact HB).
  assert (Hc : cross a b c <= al * be).
  { destruct (Rle_dec (cross a b c) 0) as [Hneg|Hpos].
    - assert (0 <= al * be) by now apply Rmult_le_pos. lra.
    - apply Rnot_le_lt in Hpos.
      destruct (Rle_dec al 0) as [Ha0|Ha0].
      + assert (al = 0) by lra. subst al.
        pose proof (cross_bound a b c ((dist2 b c + 1) / (2 * cross a b c)) 1 H1 H2) as Hb.
        rewrite <- Eal in Hb. rewrite H in Hb.
        replace (2 * ((dist2 b c + 1) / (2 * cross a b c)) * 1 * cross a b c)
          with (dist2 b c + 1) in Hb by (field; lra). lra.
      + destruct (Rle_dec be 0) as [Hb0|Hb0].
        * assert (be = 0) by lra.
          pose proof (cross_bound a b c 1 ((dist2 a b + 1) / (2 * cross a b c)) H1 H2) as Hb.
          rewrite <- Ebe in Hb. rewrite H in Hb.
          replace (2 * 1 * ((dist2 a b + 1) / (2 * cross a b c)) * cross a b c)
            with (dist2 a b + 1) in Hb by (field; lra). lra.
        * pose proof (cross_bound a b c be al H1 H2) as Hb.
          rewrite <- Eal, <- Ebe in Hb.
          assert (0 < al * be) by (apply Rmult_lt_0_compat; lra).
          nra. }
  rewrite (dist2_cross a b c H1 H2).
  apply Rsqr_incr_0_var; [|lra].
  rewrite Rsqr_sqrt by (rewrite <- (dist2_cross a b c H1 H2); exact HC).
  unfold Rsqr. nra.
Qed.

(** ** Moving a point of one simplex to a simplex of another total *)

Lemma np_sum_map_scale (c : R) (q : vec) : np_sum (map (fun x => c * x) q) = c * np_sum q.
Proof. induction q as [|a q IH]; simpl; [lra | rewrite IH; lra]. Qed.

Lemma dist2_scale (c : R) (q : vec) :
  nonneg q -> dist2 q (map (fun x => c * x) q) <= (1 - c) * (1 - c) * (np_sum q * np_sum q).
Proof.
  intros Hq. induction q as [|a q IH]; simpl; [lra|].
  inversion Hq as [|? ? Ha Hq']; subst. specialize (IH Hq').
  pose proof (np_sum_nonneg q Hq') as HS.
  pose proof (Rle_0_sqr (1 - c)) as Hsq. unfold Rsqr in Hsq.
  assert (H1 : 0 <= a * np_sum q) by now apply Rmult_le_pos.
  assert (H2 : 0 <= (1 - c) * (1 - c) * (a * np_sum q)) by now apply Rmult_le_pos.
  replace ((a - c * a) * (a - c * a)) with ((1 - c) * (1 - c) * (a * a)) by ring.
  replace ((1 - c) * (1 - c) * ((a + np_sum q) * (a + np_sum q)))
    with ((1 - c) * (1 - c) * (a * a) + 2 * ((1 - c) * (1 - c) * (a * np_sum q))
          + (1 - c) * (1 - c) * (np_sum q * np_sum q)) by ring.
  lra.
Qed.

(** A non-negative [q] of total [z > 0] has, within [|s - z|], a non-negative
    vector of total [s >= 0]. *)
Lemma simplex_shift (q : vec) (z s : R) :
  q <> [] -> nonneg q -> np_sum q = z -> 0 < z -> 0 <= s ->
  exists q', length q' = length q /\ nonneg q' /\ np_sum q' = s /\
             distance q q' <= Rabs (s - z).
Proof.
  intros Hne Hq Hsum Hz Hs.
  destruct (Rle_dec z s) as [Hle|Hgt].
  - destruct q as [|a q]; [congruence|].
    exists ((a + (s - z)) :: q). simpl in *.
    inversion Hq as [|? ? Ha Hq']; subst.
    split; [reflexivity|]. split; [constructor; [lra | exact Hq']|].
    split; [lra|].
    unfold distance. simpl.
    assert (E : dist2 q q = 0).
    { clear. induction q as [|b q IH]; simpl; [reflexivity | rewrite IH; ring]. }
    rewrite E. rewrite Rabs_right by lra.
    replace ((a - (a + (s - (a + np_sum q)))) * (a - (a + (s - (a + np_sum q)))) + 0)
      with (Rsqr (s - (a + np_sum q))) by (unfold Rsqr; ring).
    rewrite sqrt_Rsqr by lra. lra.
  - apply Rnot_le_lt in Hgt.
    exists (map (fun x => s / z * x) q).
    split; [apply length_map|]. split.
    { unfold nonneg in *. apply Forall_forall. intros x Hx.
      apply in_map_iff in Hx as (y & <- & Hy).
      rewrite Forall_forall in Hq. apply Rmult_le_pos; [|now apply Hq].
      apply Rmult_le_pos; [lra|]. left. now apply Rinv_0_lt_compat. }
    split.
    { rewrite np_sum_map_scale, Hsum. field. lra. }
    unfold distance.
    pose proof (dist2_scale (s / z) q Hq) as Hd. rewrite Hsum in Hd.
    replace ((1 - s / z) * (1 - s / z) * (z * z)) with (Rsqr (z - s)) in Hd
      by (unfold Rsqr; field; lra).
    rewrite Rabs_left by lra.
    replace (- (s - z)) with (z - s) by ring.
    rewrite <- (sqrt_Rsqr (z - s)) by lra.
    apply sqrt_le_1_alt. exact Hd.
Qed.

(** [max(v - m, 0)] of a total within [tau] of [z] is within [tau] of the
    nearest point to [v] on the simplex of total [z]. *)
Lemma clip_near_nearest (m : R) (v q : vec) (z tau : R) :
  v <> [] -> 0 < z ->
  Rabs (np_sum (np_maximum (vsub_scalar v m) 0) - z) <= tau ->
  length q = length v -> nonneg q -> np_sum q = z ->
  distance v (np_maximum (vsub_scalar v m) 0) <= distance v q + tau.
Proof.
  intros Hv Hz Htol Hlen Hq Hsum.
  set (p := np_maximum (vsub_scalar v m) 0) in *.
  assert (Hqne : q <> []).
  { intros ->. destruct v; [congruence | discriminate]. }
  destruct (simplex_shift q z (np_sum p) Hqne Hq Hsum Hz
              (np_sum_nonneg p (clip_nonneg v m)))
    as (q' & Hlen' & Hq' & Hsum' & Hd).
  pose proof (clip_nearest m v q' ltac:(congruence) Hq' Hsum') as H1.
  pose proof (distance_triangle v q q' ltac:(congruence) ltac:(congruence)) as H2.
  fold p in H1. lra.
Qed.

Lemma range_pos (n : Z) : (1 <= n)%Z -> range n = seq 0 (S (Z.to_nat n - 1)).
Proof. intros H. unfold range. f_equal. lia. Qed.

(** On a non-empty [v] and with [max_iter >= 1] the loop binds [midpoint]. *)
Lemma bisection_last_midpoint (v : vec) (z tau : R) (max_iter : Z) :
  v <> [] -> (1 <= max_iter)%Z ->
  exists midpoint it,
    Misc.bisection v z tau max_iter = Some (midpoint, it) /\
    (it < Z.to_nat max_iter)%nat /\
    ((it + 1 < Z.to_nat max_iter)%nat -> Rabs (Misc.func v z midpoint) <= tau).
Proof.
  intros Hv Hn. destruct v as [|a l]; [congruence|].
  unfold Misc.bisection. cbn [np_min np_max bind]. rewrite (range_pos _ Hn).
  destruct (bisect_loop_steps (Misc.func (a :: l) z) tau (Z.to_nat max_iter - 1) 0
              (fold_left Rmin l a - z / INR (length (a :: l))) (fold_left Rmax l a) None)
    as (m & it & E & Hit & Htol).
  exists m, it. split; [exact E|]. split; [lia|]. intros; apply Htol; lia.
Qed.

Lemma projection_of_bisection (v : vec) (z tau : R) (max_iter : Z) (m : R) (it : nat) :
  Misc.bisection v z tau max_iter = Some (m, it) ->
  Misc.projection_simplex_bisection v z tau max_iter
  = Some (np_maximum (vsub_scalar v m) 0).
Proof. intros E. unfold Misc.projection_simplex_bisection. now rewrite E. Qed.


(** C4 (as amended): on a non-empty [v] and with [max_iter >= 1] the loop
    runs [it + 1 <= max_iter] passes and stops early: pass [it] is the first
    whose midpoint meets the tolerance [|func midpoint| <= tau], or the last
    pass when none does.  Every earlier midpoint missed the tolerance, the
    midpoints being those of the bisection from [[min v - z/n, max v]].  The
    function returns [max(v - midpoint, 0)] for the midpoint of pass [it],
    whether or not the tolerance was reached. *)
Theorem projection_terminates (v : vec) (z tau : R) (max_iter : Z) :
  v <> [] -> (1 <= max_iter)%Z ->
  exists mn mx it,
    np_min v = Some mn /\ np_max v = Some mx /\
    (it < Z.to_nat max_iter)%nat /\
    (forall i, (i < it)%nat ->
       tau < Rabs (Misc.func v z
                     (midpoint_at (Misc.func v z) i (mn - z / INR (length v)) mx))) /\
    (Rabs (Misc.func v z
             (midpoint_at (Misc.func v z) it (mn - z / INR (length v)) mx)) <= tau
     \/ (it + 1)%nat = Z.to_nat max_iter) /\
    Misc.bisection v z tau max_iter
    = Some (midpoint_at (Misc.func v z) it (mn - z / INR (length v)) mx, it) /\
    Misc.projection_simplex_bisection v z tau max_iter
    = Some (map (fun vi =>
                   Rmax (vi - midpoint_at (Misc.func v z) it
                                (mn - z / INR (length v)) mx) 0) v).
Proof.
  intros Hv Hn. destruct v as [|a l]; [congruence|].
  set (v := a :: l) in *.
  exists (fold_left Rmin l a), (fold_left Rmax l a).
  destruct (bisect_loop_trace (Misc.func v z) tau (Z.to_nat max_iter - 1) 0
              (fold_left Rmin l a - z / INR (length v)) (fold_left Rmax l a) None)
    as (j & Hj & E & Hbefore & Hstop).
  exists j. split; [reflexivity|]. split; [reflexivity|].
  split; [lia|]. split; [exact Hbefore|]. split.
  { destruct Hstop as [Hs | ->]; [now left | right; lia]. }
  assert (Eb : Misc.bisection v z tau max_iter
               = Some (midpoint_at (Misc.func v z) j
                         (fold_left Rmin l a - z / INR (length v)) (fold_left Rmax l a), j)).
  { unfold Misc.bisection. unfold v at 1 2. cbn [np_min np_max bind].
    rewrite (range_pos _ Hn). exact E. }
  split; [exact Eb|].
  rewrite (projection_of_bisection _ _ _ _ _ _ Eb).
  unfold np_maximum, vsub_scalar. now rewrite map_map.
Qed.

(** C4, witness: [v = [1, 3]] with the defaults. *)
Lemma projection_terminates_witness :
  exists mn mx it,
    np_min [1; 3] = Some mn /\ np_max [1; 3] = Some mx /\
    (it < Z.to_nat 1000)%nat /\
    (forall i, (i < it)%nat ->
       Misc.default_tau
       < Rabs (Misc.func [1; 3] 1
                 (midpoint_at (Misc.func [1; 3] 1) i (mn - 1 / INR (length [1; 3])) mx))) /\
    (Rabs (Misc.func [1; 3] 1
             (midpoint_at (Misc.func [1; 3] 1) it (mn - 1 / INR (length [1; 3])) mx))
     <= Misc.default_tau
     \/ (it + 1)%nat = Z.to_nat 1000) /\
    Misc.bisection [1; 3] 1 Misc.default_tau 1000
    = Some (midpoint_at (Misc.func [1; 3] 1) it (mn - 1 / INR (length [1; 3])) mx, it) /\
    Misc.projection_simplex_bisection [1; 3] 1 Misc.default_tau 1000
    = Some (map (fun vi =>
                   Rmax (vi - midpoint_at (Misc.func [1; 3] 1) it
                                (mn - 1 / INR (length [1; 3])) mx) 0) [1; 3]).
Proof.
  apply (projection_terminates [1; 3] 1 Misc.default_tau 1000).
  - discriminate.
  - lia.
Defined.

(** C4, counterexample: with [max_iter = 0] the loop makes no pass, [midpoint]
    is unbound at the [return], and the call raises. *)
Lemma projection_no_pass_raises :
  Misc.projection_simplex_bisection [1] Misc.default_z Misc.default_tau 0 = None.
Proof. reflexivity. Qed.


(** C3 (as amended): on a non-empty [v], with [z > 0] and [max_iter >= 1], the
    projection returns [p = max(v - midpoint, 0)] of the length of [v] with
    every entry [>= 0].  The total of [p] is within [tau] of [z] exactly when
    the last midpoint met the tolerance test, which it did whenever the loop
    stopped before its last pass.  [p] is the Euclidean-nearest point to [v]
    among the non-negative vectors of its own total and, when that total is
    within [tau] of [z], it is within [tau] of the nearest among the
    non-negative vectors of total [z]. *)
Theorem projection_simplex_spec (v : vec) (z tau : R) (max_iter : Z) :
  v <> [] -> (1 <= max_iter)%Z -> 0 < z ->
  exists midpoint it p,
    Misc.bisection v z tau max_iter = Some (midpoint, it) /\
    Misc.projection_simplex_bisection v z tau max_iter = Some p /\
    length p = length v /\
    nonneg p /\
    ((it + 1 < Z.to_nat max_iter)%nat -> Rabs (np_sum p - z) <= tau) /\
    (Rabs (Misc.func v z midpoint) <= tau <-> Rabs (np_sum p - z) <= tau) /\
    (forall q, length q = length v -> nonneg q -> np_sum q = np_sum p ->
               distance v p <= distance v q) /\
    (Rabs (np_sum p - z) <= tau ->
     forall q, length q = length v -> nonneg q -> np_sum q = z ->
               distance v p <= distance v q + tau).
Proof.
  intros Hv Hn Hz.
  destruct (bisection_last_midpoint v z tau max_iter Hv Hn) as (m & it & E & _ & Htol).
  pose proof (projection_of_bisection v z tau max_iter m it E) as Ep.
  exists m, it, (np_maximum (vsub_scalar v m) 0).
  split; [exact E|]. split; [exact Ep|].
  split; [apply clip_length|]. split; [apply clip_nonneg|].
  split; [exact Htol|]. split; [reflexivity|]. split.
  - intros q Hlen Hq Hsum. now apply clip_nearest.
  - intros Hs q Hlen Hq Hsum. now apply clip_near_nearest with (z := z).
Qed.

(** C3, witness: [v = [1, 3]] with the defaults. *)
Lemma projection_simplex_spec_witness :
  exists midpoint it p,
    Misc.bisection [1; 3] 1 Misc.default_tau 1000 = Some (midpoint, it) /\
    Misc.projection_simplex_bisection [1; 3] 1 Misc.default_tau 1000 = Some p /\
    length p = length [1; 3] /\
    nonneg p /\
    ((it + 1 < Z.to_nat 1000)%nat -> Rabs (np_sum p - 1) <= Misc.default_tau) /\
    (Rabs (Misc.func [1; 3] 1 midpoint) <= Misc.default_tau
     <-> Rabs (np_sum p - 1) <= Misc.default_tau) /\
    (forall q, length q = length [1; 3] -> nonneg q -> np_sum q = np_sum p ->
               distance [1; 3] p <= distance [1; 3] q) /\
    (Rabs (np_sum p - 1) <= Misc.default_tau ->
     forall q, length q = length [1; 3] -> nonneg q -> np_sum q = 1 ->
               distance [1; 3] p <= distance [1; 3] q + Misc.default_tau).
Proof.
  apply (projection_simplex_spec [1; 3] 1 Misc.default_tau 1000).
  - discriminate.
  - lia.
  - lra.
Defined.

(** ** Runs that miss the claim *)

Lemma pow2_pos (n : nat) : 0 < 2 ^ n.
Proof. apply pow_lt. lra. Qed.

Lemma pow2_ge_1 (n : nat) : 1 <= 2 ^ n.
Proof. apply pow_R1_Rle. lra. Qed.

(** On [v = [1]] with [z = 1] the function bisected is [x |-> -x] on [[0, 1]]. *)
Lemma func_one (m : R) : m <= 1 -> Misc.func [1] 1 m = - m.
Proof.
  intros H. unfold Misc.func, np_maximum, vsub_scalar. simpl.
  rewrite Rmax_left by lra. lra.
Qed.

(** From the bracket [[0, u]] the midpoints are [u/2, u/4, ...]: the loop
    stops at the first of them that is at most [tau]. *)
Lemma bisect_loop_halving (tau : R) (n : nat) :
  forall (s r : nat) (u : R) (last : option (R * nat)),
    0 < u <= 1 -> tau < u / 2 ^ n -> u / 2 ^ S n <= tau ->
    Misc.bisect_loop (Misc.func [1] 1) tau (seq s (S n + r)) 0 u last
    = Some (u / 2 ^ S n, (s + n)%nat).
Proof.
  induction n as [|n IH]; intros s r u last Hu Hlt Hle.
  - change (seq s (1 + r)) with (s :: seq (S s) r).
    cbv beta iota delta [Misc.bisect_loop]; fold Misc.bisect_loop. cbv zeta.
    replace ((u + 0) / 2) with (u / 2 ^ 1) by (simpl; field).
    simpl in Hle, Hlt |- *. rewrite func_one by lra.
    rewrite Rabs_Ropp, Rabs_right by lra.
    destruct (Rle_dec (u / (2 * 1)) tau); [|contradiction].
    f_equal. f_equal. lia.
  - change (seq s (S (S n) + r)) with (s :: seq (S s) (S n + r)).
    cbv beta iota delta [Misc.bisect_loop]; fold Misc.bisect_loop. cbv zeta.
    pose proof (pow2_ge_1 n) as Hp.
    assert (Hp' : 0 < / 2 ^ n <= 1).
    { split; [apply Rinv_0_lt_compat; lra|].
      rewrite <- Rinv_1. apply Rinv_le_contravar; lra. }
    assert (Hun : u / 2 ^ S n = u / 2 / 2 ^ n) by (simpl; field; lra).
    assert (Hun' : u / 2 ^ S (S n) = u / 2 / 2 ^ S n).
    { change (2 ^ S (S n)) with (2 * 2 ^ S n). field.
      pose proof (pow2_pos (S n)). lra. }
    rewrite func_one by lra.
    replace ((u + 0) / 2) with (u / 2) by field.
    rewrite Rabs_Ropp, Rabs_right by lra.
    assert (Hgt : tau < u / 2).
    { rewrite Hun in Hlt. unfold Rdiv in Hlt |- *.
      assert (u * / 2 * / 2 ^ n <= u * / 2 * 1)
        by (apply Rmult_le_compat_l; lra). lra. }
    destruct (Rle_dec (u / 2) tau) as [Hc|_]; [lra|].
    destruct (Rle_dec (- (u / 2)) 0) as [_|Hc]; [|lra].
    rewrite (IH (S s) r (u / 2)); [| lra | lra | lra].
    rewrite Hun'. f_equal. f_equal. lia.
Qed.

(** C3, counterexample.  With one pass allowed, on [v = [0, 4]] the function
    returns [[0, 9/4]], whose total misses [z = 1] by more than the
    tolerance.  With the defaults, on [v = [1]] the loop stops at its 20th
    pass and the function returns [[1 - 2^-20]]: the vector [[1]] meets the
    constraints of the claim and is nearer to [v]. *)
Lemma projection_misses_claim :
  (Misc.projection_simplex_bisection [0; 4] Misc.default_z Misc.default_tau 1
   = Some [0; 9 / 4] /\
   ~ Rabs (np_sum [0; 9 / 4] - Misc.default_z) <= Misc.default_tau) /\
  (Misc.projection_simplex_bisection [1]
     Misc.default_z Misc.default_tau Misc.default_max_iter
   = Some [1 - / 2 ^ 20] /\
   Rabs (np_sum [1] - Misc.default_z) <= Misc.default_tau /\
   Forall (fun q_i => - Misc.default_tau <= q_i) [1] /\
   distance [1] [1] < distance [1] [1 - / 2 ^ 20]).
Proof.
  unfold Misc.default_z, Misc.default_tau, Misc.default_max_iter. split.
  - split.
    + unfold Misc.projection_simplex_bisection, Misc.bisection.
      change (range 1) with [0%nat].
      cbn [np_min np_max bind fold_left length Misc.bisect_loop].
      rewrite Rmin_left by lra. rewrite Rmax_right by lra.
      replace ((4 + (0 - 1 / INR 2)) / 2) with (7 / 4) by (simpl; field).
      unfold Misc.func, np_maximum, vsub_scalar. cbn [map np_sum fold_right].
      rewrite Rmax_right by lra. rewrite Rmax_left by lra.
      destruct (Rle_dec (Rabs (0 + (4 - 7 / 4 + 0) - 1)) (/ 1000000)) as [Habs|_].
      { rewrite Rabs_right in Habs by lra. lra. }
      destruct (Rle_dec (0 + (4 - 7 / 4 + 0) - 1) 0); [lra|].
      cbn [bind]. rewrite Rmax_right by lra. rewrite Rmax_left by lra.
      f_equal. f_equal. f_equal. lra.
    + cbn [np_sum fold_right]. rewrite Rabs_right by lra. lra.
  - assert (Hp : 2 ^ 20 = 1048576) by (simpl; lra).
    split.
    + unfold Misc.projection_simplex_bisection, Misc.bisection, range.
      cbn [np_min np_max bind fold_left length].
      replace (1 - 1 / INR 1) with 0 by (simpl; field).
      change (Z.to_nat 1000) with (S 19 + 980)%nat.
      rewrite (bisect_loop_halving (/ 1000000) 19 0 980 1 None).
      * cbn [bind]. unfold np_maximum, vsub_scalar. cbn [map].
        f_equal. f_equal. rewrite Rmax_left; [unfold Rdiv; lra|].
        rewrite Hp. lra.
      * lra.
      * assert (2 ^ 19 = 524288) as -> by (simpl; lra). lra.
      * rewrite Hp. lra.
    + split; [|split].
      * cbn [np_sum fold_right]. rewrite Rabs_right; lra.
      * constructor; [lra | constructor].
      * unfold distance. cbn [dist2].
        replace ((1 - 1) * (1 - 1) + 0) with 0 by ring. rewrite sqrt_0.
        apply sqrt_lt_R0. rewrite Hp. lra.
Qed.

(** ** Loops *)

Lemma for_each_app {S : Type} (l1 l2 : list nat) (body : nat -> S -> option S) (s : S) :
  for_each (l1 ++ l2) body s = (s' <- for_each l1 body s ;; for_each l2 body s').
Proof.
  revert s. induction l1 as [|k l1 IH]; intros s; simpl; [reflexivity|].
  destruct (body k s); simpl; [apply IH | reflexivity].
Qed.

(** A loop over [range(n)] whose body keeps an invariant and does not raise
    ends in a state of the invariant. *)
Lemma for_each_invariant {S : Type} (P : nat -> S -> Prop)
    (body : nat -> S -> option S) (n : nat) (s0 : S) :
  P O s0 ->
  (forall k s, (k < n)%nat -> P k s -> exists s', body k s = Some s' /\ P (Datatypes.S k) s') ->
  exists s, for_each (seq 0 n) body s0 = Some s /\ P n s.
Proof.
  intros H0. induction n as [|n IH]; intros Hstep.
  - exists s0. split; [reflexivity | exact H0].
  - destruct IH as (s & E & Hs).
    { intros k s Hk. apply Hstep. lia. }
    destruct (Hstep n s ltac:(lia) Hs) as (s' & E' & Hs').
    exists s'. rewrite seq_S, for_each_app, E. simpl. rewrite E'. auto.
Qed.

(** ** Indexing *)

Lemma sum_n_ext (n : nat) (f g : nat -> R) :
  (forall k, (k < n)%nat -> f k = g k) -> sum_n n f = sum_n n g.
Proof.
  induction n as [|n IH]; intros H; simpl; [reflexivity|].
  rewrite IH by (intros; apply H; lia). rewrite H by lia. reflexivity.
Qed.

Lemma nth_vadd (u v : vec) (d : nat) :
  length u = length v -> nth d (vadd u v) 0 = nth d u 0 + nth d v 0.
Proof.
  revert v d. induction u as [|a u IH]; intros [|b v] d Hlen; try discriminate.
  - destruct d; simpl; lra.
  - destruct d; simpl; [reflexivity | apply IH; simpl in Hlen; lia].
Qed.

Lemma length_vadd (u v : vec) :
  length u = length v -> length (vadd u v) = length u.
Proof.
  revert v. induction u as [|a u IH]; intros [|b v] Hlen; try discriminate;
    simpl; [reflexivity|]. f_equal. apply IH. simpl in Hlen. lia.
Qed.

Lemma nth_vscale (c : R) (v : vec) (d : nat) :
  nth d (vscale c v) 0 = c * nth d v 0.
Proof.
  revert d. induction v as [|a v IH]; intros [|d]; simpl; try lra. apply IH.
Qed.

Lemma nth_repeat_0 (n d : nat) : nth d (repeat 0 n) 0 = 0.
Proof.
  revert d. induction n as [|n IH]; intros [|d]; simpl; try reflexivity. apply IH.
Qed.

Lemma nth_map_seq {A : Type} (f : nat -> A) (n d : nat) (a : A) :
  (d < n)%nat -> nth d (map f (seq 0 n)) a = f d.
Proof.
  intros Hd. rewrite nth_indep with (d' := f O) by (rewrite length_map, length_seq; lia).
  rewrite map_nth, seq_nth by lia. reflexivity.
Qed.

Lemma sum_n_shift (n : nat) (f : nat -> R) :
  sum_n (S n) f = f O + sum_n n (fun k => f (S k)).
Proof.
  induction n as [|n IH]; [simpl; lra|].
  change (sum_n (S (S n)) f) with (sum_n (S n) f + f (S n)). rewrite IH. simpl. lra.
Qed.

Lemma vdot_sum_n (u v : vec) :
  length u = length v ->
  vdot u v = sum_n (length u) (fun m => nth m u 0 * nth m v 0).
Proof.
  revert v. induction u as [|a u IH]; intros [|b v] Hlen; try discriminate.
  - reflexivity.
  - change (length (a :: u)) with (S (length u)). rewrite sum_n_shift.
    simpl. rewrite IH by (simpl in Hlen; lia). reflexivity.
Qed.

Lemma nth_col (A : mat) (d m : nat) : nth m (col d A) 0 = entry A m d.
Proof.
  unfold col, entry. destruct (Nat.lt_ge_cases m (length (rows A))) as [Hm|Hm].
  - rewrite nth_indep with (d' := nth d [] 0) by (now rewrite length_map).
    now rewrite (map_nth (fun r => nth d r 0)).
  - rewrite (nth_overflow (rows A)) by exact Hm.
    rewrite nth_overflow by (now rewrite length_map).
    now destruct d.
Qed.

(** Coordinate [d] of [Theta.T.dot(Xk)]. *)
Lemma nth_matvec_transpose (Theta : mat) (X : list vec) (k d : nat) (Xk : vec) :
  nth_error X k = Some Xk -> length Xk = nrows Theta -> (d < ncols Theta)%nat ->
  nth d (matvec (transpose Theta) Xk) 0 = per_objective Theta X k d.
Proof.
  intros HXk Hlen Hd. unfold matvec, transpose, per_objective, feature. simpl rows.
  rewrite map_map, nth_map_seq by exact Hd.
  rewrite vdot_sum_n by (unfold col; rewrite length_map; symmetry; exact Hlen).
  unfold col at 1. rewrite length_map. apply sum_n_ext. intros m Hm.
  rewrite nth_col. now rewrite (nth_error_nth _ _ _ HXk).
Qed.

Lemma length_matvec_transpose (Theta : mat) (Xk : vec) :
  length (matvec (transpose Theta) Xk) = ncols Theta.
Proof. unfold matvec, transpose. simpl. now rewrite !length_map, length_seq. Qed.

(** ** Sorting *)

Lemma insert_perm (a : R) (l : vec) : Permutation (insert a l) (a :: l).
Proof.
  induction l as [|b l IH]; simpl; [reflexivity|].
  destruct (Rle_dec a b); [reflexivity|].
  rewrite IH. apply perm_swap.
Qed.

Lemma np_sort_perm (x : vec) : Permutation (np_sort x) x.
Proof.
  induction x as [|a x IH]; simpl; [reflexivity|].
  rewrite insert_perm. now constructor.
Qed.

Lemma insert_sorted (a : R) (l : vec) : Sorted Rle l -> Sorted Rle (insert a l).
Proof.
  induction l as [|b l IH]; intros Hs; simpl.
  - repeat constructor.
  - destruct (Rle_dec a b) as [Hab|Hab].
    + constructor; [exact Hs | now constructor].
    + inversion Hs as [|? ? Hs' Hhd]; subst. constructor; [now apply IH|].
      destruct l as [|c l]; simpl.
      * constructor. lra.
      * destruct (Rle_dec a c); constructor; [lra|].
        inversion Hhd; subst. assumption.
Qed.

Lemma np_sort_sorted (x : vec) : Sorted Rle (np_sort x).
Proof.
  induction x as [|a x IH]; simpl; [constructor | now apply insert_sorted].
Qed.

Lemma Rle_trans' : Relations_1.Transitive Rle.
Proof. intros a b c. apply Rle_trans. Qed.

(** The ascending arrangement of a vector is unique. *)
Lemma sorted_perm_eq (l1 l2 : vec) :
  Sorted Rle l1 -> Sorted Rle l2 -> Permutation l1 l2 -> l1 = l2.
Proof.
  intros H1 H2. apply (Sorted_StronglySorted Rle_trans') in H1, H2.
  revert l2 H2. induction H1 as [|a l1 Hs1 IH Ha]; intros l2 H2 Hp.
  - apply Permutation_nil in Hp. now subst.
  - destruct H2 as [|b l2 Hs2 Hb].
    + apply Permutation_sym, Permutation_nil in Hp. discriminate.
    + assert (a = b) as ->.
      { assert (In a (b :: l2)) as Hin1 by (apply (Permutation_in _ Hp); now left).
        assert (In b (a :: l1)) as Hin2
            by (apply (Permutation_in _ (Permutation_sym Hp)); now left).
        rewrite Forall_forall in Ha, Hb.
        destruct Hin1 as [->|Hin1]; [reflexivity|].
        destruct Hin2 as [->|Hin2]; [reflexivity|].
        specialize (Ha _ Hin2). specialize (Hb _ Hin1). lra. }
      f_equal. apply IH; [exact Hs2 | now apply Permutation_cons_inv in Hp].
Qed.

Lemma np_sort_unique (x s : vec) :
  Permutation s x -> Sorted Rle s -> s = np_sort x.
Proof.
  intros Hp Hs. apply sorted_perm_eq; [exact Hs | apply np_sort_sorted|].
  rewrite Hp. symmetry. apply np_sort_perm.
Qed.

Lemma insert_by_perm (key : nat -> R) (i : nat) (l : list nat) :
  Permutation (insert_by key i l) (i :: l).
Proof.
  induction l as [|j l IH]; simpl; [reflexivity|].
  destruct (Rle_dec (key i) (key j)); [reflexivity|].
  rewrite IH. apply perm_swap.
Qed.

Lemma map_insert_by (key : nat -> R) (i : nat) (l : list nat) :
  map key (insert_by key i l) = insert (key i) (map key l).
Proof.
  induction l as [|j l IH]; simpl; [reflexivity|].
  destruct (Rle_dec (key i) (key j)); simpl; [reflexivity | now rewrite IH].
Qed.

Lemma map_nth_seq (x : vec) : map (fun i => nth i x 0) (seq 0 (length x)) = x.
Proof.
  induction x as [|a x IH]; simpl; [reflexivity|].
  f_equal. rewrite <- seq_shift, map_map. exact IH.
Qed.

(** [np.argsort(x)] is a permutation of the indices of [x], and reading [x]
    through it gives [np.sort(x)]. *)
Lemma np_argsort_perm (x : vec) : Permutation (np_argsort x) (seq 0 (length x)).
Proof.
  unfold np_argsort. induction (seq 0 (length x)) as [|i l IH]; simpl; [reflexivity|].
  rewrite insert_by_perm. now constructor.
Qed.

Lemma map_fold_insert_by (key : nat -> R) (idx : list nat) :
  map key (fold_right (insert_by key) [] idx) = fold_right insert [] (map key idx).
Proof.
  induction idx as [|i l IH]; simpl; [reflexivity|].
  now rewrite map_insert_by, IH.
Qed.

Lemma np_argsort_sort (x : vec) :
  map (fun i => nth i x 0) (np_argsort x) = np_sort x.
Proof.
  unfold np_argsort, np_sort. now rewrite map_fold_insert_by, map_nth_seq.
Qed.

Lemma take_in_range (temp : vec) (order : list nat) :
  Forall (fun i => (i < length temp)%nat) order ->
  take temp order = Some (map (fun i => nth i temp 0) order).
Proof.
  induction 1 as [|i order Hi _ IH]; simpl; [reflexivity|].
  rewrite (nth_error_nth' temp 0 Hi), IH. reflexivity.
Qed.

Lemma list_set_in_range {A : Type} (l : list A) (k : nat) (v d : A) :
  (k < length l)%nat ->
  exists l', list_set l k v = Some l' /\ length l' = length l /\
             nth k l' d = v /\ forall j, j <> k -> nth j l' d = nth j l d.
Proof.
  revert k. induction l as [|a l IH]; intros k Hk; simpl in Hk; [lia|].
  destruct k as [|k]; simpl.
  - exists (v :: l). repeat split. intros [|j] Hj; [congruence | reflexivity].
  - destruct (IH k ltac:(lia)) as (l' & -> & Hlen & Hk' & Hj).
    exists (a :: l'). simpl. repeat split; try congruence.
    intros [|j] Hne; [reflexivity | apply Hj; congruence].
Qed.

(** ** The aggregate vector *)

Lemma np_zeros_of_nat (n : nat) : np_zeros (Z.of_nat n) = Some (repeat 0 n).
Proof.
  unfold np_zeros. destruct (Z.ltb_spec (Z.of_nat n) 0); [lia|]. now rewrite Nat2Z.id.
Qed.

Lemma range_of_nat (n : nat) : range (Z.of_nat n) = seq 0 n.
Proof. unfold range. now rewrite Nat2Z.id. Qed.

Lemma aggregate_ok (self : MOCB.t) (alpha : vec) (Theta : mat) (X : list vec) :
  well_shaped self alpha Theta X ->
  exists x, MOCB.aggregate self alpha Theta X = Some x /\
            length x = ncols Theta /\
            forall d, (d < ncols Theta)%nat -> nth d x 0 = aggregate_spec alpha Theta X d.
Proof.
  intros (HK & HX & HD & Hwf & HXk). unfold MOCB.aggregate.
  rewrite <- HD, np_zeros_of_nat, <- HK, range_of_nat. cbn [bind].
  apply (for_each_invariant
           (fun n x => length x = ncols Theta /\
                       forall d, (d < ncols Theta)%nat ->
                                 nth d x 0 = sum_n n (fun k => nth k alpha 0 * per_objective Theta X k d))).
  - split; [apply repeat_length|]. intros d _. apply nth_repeat_0.
  - intros k x Hk [Hlen Hx].
    rewrite (nth_error_nth' alpha 0 Hk). cbn [bind].
    assert (Hk' : (k < length X)%nat) by lia.
    rewrite (nth_error_nth' X [] Hk'). cbn [bind].
    assert (HXkk : length (nth k X []) = nrows Theta).
    { rewrite Forall_forall in HXk. apply HXk. now apply nth_In. }
    eexists. split; [reflexivity|].
    assert (Hl : length x = length (vscale (nth k alpha 0) (matvec (transpose Theta) (nth k X [])))).
    { unfold vscale. now rewrite length_map, length_matvec_transpose. }
    split; [now rewrite length_vadd|].
    intros d Hd. rewrite nth_vadd by exact Hl. rewrite nth_vscale, Hx by exact Hd.
    simpl. rewrite (nth_matvec_transpose Theta X k d); auto.
    apply nth_error_nth'. exact Hk'.
Qed.

(** C5: on the documented shapes, [GGI] returns the ascending arrangement of
    the aggregate [x = sum_k alpha[k] . (Theta^T . X[k])] dotted with [w]. *)
Theorem GGI_value (self : MOCB.t) (alpha : vec) (Theta : mat) (X : list vec) :
  well_shaped self alpha Theta X ->
  exists x,
    length x = ncols Theta /\
    (forall d, (d < ncols Theta)%nat -> nth d x 0 = aggregate_spec alpha Theta X d) /\
    forall s, Permutation s x -> Sorted Rle s ->
              MOCB.GGI self alpha Theta X = Some (vdot s (MOCB.w self)).
Proof.
  intros Hws. destruct (aggregate_ok self alpha Theta X Hws) as (x & E & Hlen & Hx).
  exists x. split; [exact Hlen|]. split; [exact Hx|].
  intros s Hp Hs. unfold MOCB.GGI. rewrite E. cbn [bind].
  now rewrite (np_sort_unique x s Hp Hs).
Qed.

(** ** The gradient *)

Lemma grad_ok (self : MOCB.t) (alpha : vec) (Theta_hat : mat) (X : list vec) :
  well_shaped self alpha Theta_hat X ->
  exists x g,
    MOCB.aggregate self alpha Theta_hat X = Some x /\
    MOCB.grad self alpha Theta_hat X = Some g /\
    length g = length alpha /\
    forall k, (k < length alpha)%nat ->
      nth k g 0 = vdot (MOCB.w self)
                       (map (fun j => per_objective Theta_hat X k j) (np_argsort x)).
Proof.
  intros Hws. destruct (aggregate_ok self alpha Theta_hat X Hws) as (x & E & Hlen & Hx).
  destruct Hws as (HK & HX & HD & Hwf & HXk).
  exists x. unfold MOCB.grad. rewrite E. cbn [bind].
  rewrite <- HK, np_zeros_of_nat, range_of_nat. cbn [bind].
  assert (Hord : Forall (fun i => (i < ncols Theta_hat)%nat) (np_argsort x)).
  { apply Forall_forall. intros i Hi.
    apply (Permutation_in _ (np_argsort_perm x)) in Hi.
    apply in_seq in Hi. lia. }
  destruct (for_each_invariant
              (fun n g => length g = length alpha /\
                          forall k, (k < n)%nat ->
                            nth k g 0 = vdot (MOCB.w self)
                              (map (fun j => per_objective Theta_hat X k j) (np_argsort x)))
              (fun k gradient =>
                 Xk <- nth_error X k ;;
                 temp_order <- take (matvec (transpose Theta_hat) Xk) (np_argsort x) ;;
                 list_set gradient k (vdot (MOCB.w self) temp_order))
              (length alpha) (repeat 0 (length alpha))) as (g & Eg & Hg1 & Hg2).
  - split; [apply repeat_length | intros; lia].
  - intros k g Hk [Hgl Hg].
    assert (Hk' : (k < length X)%nat) by lia.
    rewrite (nth_error_nth' X [] Hk'). cbn [bind].
    assert (HXkk : length (nth k X []) = nrows Theta_hat).
    { rewrite Forall_forall in HXk. apply HXk. now apply nth_In. }
    rewrite take_in_range by (now rewrite length_matvec_transpose). cbn [bind].
    destruct (list_set_in_range g k
                (vdot (MOCB.w self)
                   (map (fun i => nth i (matvec (transpose Theta_hat) (nth k X [])) 0)
                      (np_argsort x))) 0 ltac:(lia))
      as (g' & Eg' & Hl' & Hk'' & Hj).
    exists g'. split; [exact Eg'|]. split; [congruence|].
    intros j Hj'. destruct (Nat.eq_dec j k) as [->|Hne].
    + rewrite Hk''. f_equal. apply map_ext_in. intros i Hi.
      rewrite Forall_forall in Hord.
      apply (nth_matvec_transpose Theta_hat X k i); auto.
      now apply nth_error_nth'.
    + rewrite Hj by exact Hne. apply Hg. lia.
  - exists g. auto.
Qed.

(** C6: on the documented shapes, [grad] computes the aggregate [x] and a
    permutation [order] of the objectives that arranges [x] in ascending
    order, the arrangement that [GGI] dots with [w]; entry [k] of the result
    is [w] dotted with [Theta_hat^T . X[k]] read through [order]. *)
Theorem grad_value (self : MOCB.t) (alpha : vec) (Theta_hat : mat) (X : list vec) :
  well_shaped self alpha Theta_hat X ->
  exists x order g,
    length x = ncols Theta_hat /\
    (forall d, (d < ncols Theta_hat)%nat ->
               nth d x 0 = aggregate_spec alpha Theta_hat X d) /\
    Permutation order (seq 0 (ncols Theta_hat)) /\
    Sorted Rle (map (fun j => nth j x 0) order) /\
    MOCB.GGI self alpha Theta_hat X
    = Some (vdot (map (fun j => nth j x 0) order) (MOCB.w self)) /\
    MOCB.grad self alpha Theta_hat X = Some g /\
    length g = length alpha /\
    forall k, (k < length alpha)%nat ->
      nth k g 0 = vdot (MOCB.w self)
                       (map (fun j => per_objective Theta_hat X k j) order).
Proof.
  intros Hws.
  destruct (aggregate_ok self alpha Theta_hat X Hws) as (x & E & Hlen & Hx).
  destruct (grad_ok self alpha Theta_hat X Hws) as (x' & g & E' & Eg & Hgl & Hg).
  rewrite E in E'. injection E' as <-.
  exists x, (np_argsort x), g.
  split; [exact Hlen|]. split; [exact Hx|].
  split; [rewrite <- Hlen; apply np_argsort_perm|].
  split; [rewrite np_argsort_sort; apply np_sort_sorted|].
  split; [unfold MOCB.GGI; rewrite E; cbn [bind]; now rewrite np_argsort_sort|].
  auto.
Qed.

(** ** Multiplicative-weights ascent *)

Lemma positive_map_exp (v : vec) : positive (map exp v).
Proof. apply Forall_forall. intros x Hx. apply in_map_iff in Hx as (a & <- & _). apply exp_pos. Qed.

Lemma length_vmul (u v : vec) : length u = length v -> length (vmul u v) = length u.
Proof.
  revert v. induction u as [|a u IH]; intros [|b v] Hlen; try discriminate;
    simpl; [reflexivity|]. f_equal. apply IH. simpl in Hlen. lia.
Qed.

Lemma vmul_nonneg (u e : vec) : nonneg u -> positive e -> nonneg (vmul u e).
Proof.
  intros Hu. revert e. induction Hu as [|a u Ha Hu IH]; intros e He; simpl.
  - constructor.
  - destruct He as [|b e Hb He]; constructor; [|now apply IH].
    apply Rmult_le_pos; lra.
Qed.

Lemma np_sum_vmul_pos (u e : vec) :
  nonneg u -> positive e -> length e = length u -> 0 < np_sum u ->
  0 < np_sum (vmul u e).
Proof.
  intros Hu. revert e. induction Hu as [|a u Ha Hu IH]; intros e He Hlen Hs; simpl in *.
  - lra.
  - destruct He as [|b e Hb He]; [discriminate|]. simpl.
    pose proof (np_sum_nonneg _ (vmul_nonneg u e Hu He)).
    destruct (Rle_lt_or_eq_dec 0 a Ha) as [Hpos|<-].
    + pose proof (Rmult_lt_0_compat a b Hpos Hb). lra.
    + rewrite Rmult_0_l, Rplus_0_l. apply IH; auto. lra.
Qed.

Lemma np_sum_map_div (v : vec) (s : R) :
  np_sum (map (fun x => x / s) v) = np_sum v / s.
Proof.
  induction v as [|a v IH]; simpl; [unfold Rdiv; lra|]. rewrite IH. unfold Rdiv. lra.
Qed.

Lemma np_divide_pos (temp : vec) (s : R) :
  0 < s -> np_divide temp s = Some (map (fun x => x / s) temp).
Proof.
  intros Hs. unfold np_divide. destruct temp as [|a temp]; [reflexivity|].
  destruct (Req_dec_T s 0); [lra | reflexivity].
Qed.

Lemma well_shaped_length (self : MOCB.t) (a a' : vec) (Theta : mat) (X : list vec) :
  length a' = length a -> well_shaped self a Theta X -> well_shaped self a' Theta X.
Proof. intros Hl (HK & H). split; [congruence | exact H]. Qed.

(** One pass keeps a point of the simplex on the simplex. *)
Lemma mirror_step_simplex (self : MOCB.t) (alpha : vec) (Theta_hat : mat) (X : list vec) :
  well_shaped self alpha Theta_hat X -> on_simplex alpha ->
  exists alpha', MOCB.mirror_step self Theta_hat X alpha = Some alpha' /\
                 length alpha' = length alpha /\ on_simplex alpha'.
Proof.
  intros Hws [Hnn Hsum].
  destruct (grad_ok self alpha Theta_hat X Hws) as (x & g & _ & Eg & Hgl & _).
  unfold MOCB.mirror_step. rewrite Eg. cbn [bind].
  set (e := map exp (vscale (MOCB.eta self) g)).
  assert (He : positive e) by apply positive_map_exp.
  assert (Hel : length e = length alpha).
  { unfold e, vscale. now rewrite !length_map. }
  assert (Hpos : 0 < np_sum (vmul alpha e)).
  { apply np_sum_vmul_pos; auto. lra. }
  rewrite np_divide_pos by exact Hpos.
  eexists. split; [reflexivity|]. split.
  - rewrite length_map. now apply length_vmul.
  - split.
    + apply Forall_forall. intros y Hy. apply in_map_iff in Hy as (a & <- & Ha).
      pose proof (vmul_nonneg alpha e Hnn He) as Hv.
      unfold nonneg, positive in Hv. rewrite Forall_forall in Hv. specialize (Hv a Ha).
      apply Rmult_le_pos; [exact Hv|]. left. now apply Rinv_0_lt_compat.
    + rewrite np_sum_map_div. field. lra.
Qed.

(** A loop of passes that keep a property of [alpha] keeps it. *)
Lemma mirror_loop (P : vec -> Prop) (self : MOCB.t) (alpha : vec) (Theta_hat : mat)
    (X : list vec) :
  (forall a, length a = length alpha -> P a ->
     exists a', MOCB.mirror_step self Theta_hat X a = Some a' /\
                length a' = length alpha /\ P a') ->
  P alpha ->
  forall n, exists a,
    for_each (seq 0 n) (fun _ a => MOCB.mirror_step self Theta_hat X a) alpha = Some a /\
    length a = length alpha /\ P a.
Proof.
  intros Hstep HP n.
  apply (for_each_invariant (fun _ a => length a = length alpha /\ P a)).
  - auto.
  - intros k a _ [Hl Ha]. destruct (Hstep a Hl Ha) as (a' & E & Hl' & Ha'). eauto.
Qed.

Lemma mirror_loop_simplex (self : MOCB.t) (alpha : vec) (Theta_hat : mat)
    (X : list vec) :
  well_shaped self alpha Theta_hat X -> on_simplex alpha ->
  forall n, exists a,
    for_each (seq 0 n) (fun _ a => MOCB.mirror_step self Theta_hat X a) alpha = Some a /\
    length a = length alpha /\ on_simplex a.
Proof.
  intros Hws Hs. apply (mirror_loop on_simplex); [|exact Hs].
  intros a Hl Ha.
  destruct (mirror_step_simplex self a Theta_hat X) as (a' & E & Hl' & Ha'); auto.
  - now apply (well_shaped_length self alpha a).
  - exists a'. split; [exact E|]. split; [congruence | exact Ha'].
Qed.

(** ** The ascent in the range of [float64] *)

Lemma huge_big : 1000000 < F64.huge.
Proof.
  unfold F64.huge. replace 1024%nat with (20 + 1004)%nat by reflexivity.
  rewrite pow_add. pose proof (pow2_ge_1 1004).
  assert (2 ^ 20 = 1048576) as -> by (simpl; lra). lra.
Qed.

Lemma tiny_pos : 0 < F64.tiny.
Proof. unfold F64.tiny. apply Rinv_0_lt_compat, pow2_pos. Qed.

Lemma tiny_small : F64.tiny < / 1000000.
Proof.
  unfold F64.tiny. apply Rinv_lt_contravar.
  - pose proof (pow2_pos 1075). lra.
  - replace 1075%nat with (20 + 1055)%nat by reflexivity.
    rewrite pow_add. pose proof (pow2_ge_1 1055).
    assert (2 ^ 20 = 1048576) as -> by (simpl; lra). lra.
Qed.

Lemma tiny_lt_least_normal : F64.tiny < F64.least_normal.
Proof.
  unfold F64.tiny, F64.least_normal. apply Rinv_lt_contravar.
  - apply Rmult_lt_0_compat; apply pow2_pos.
  - apply Rlt_pow; [lra | lia].
Qed.

Lemma least_normal_small : F64.least_normal < / 1000000.
Proof.
  unfold F64.least_normal. apply Rinv_lt_contravar.
  - pose proof (pow2_pos 1022). lra.
  - replace 1022%nat with (20 + 1002)%nat by reflexivity.
    rewrite pow_add. pose proof (pow2_ge_1 1002).
    assert (2 ^ 20 = 1048576) as -> by (simpl; lra). lra.
Qed.

Lemma rnd_flush (r : R) : Rabs r < F64.huge -> F64.rnd r = F64.Fin (flush r).
Proof.
  intros H. unfold F64.rnd, flush.
  destruct (Rle_dec F64.huge r) as [H1|_].
  { pose proof (Rle_abs r). lra. }
  destruct (Rle_dec r (- F64.huge)) as [H1|_].
  { pose proof (Rle_abs (- r)). rewrite Rabs_Ropp in H0. lra. }
  destruct (Rle_dec (Rabs r) F64.tiny); reflexivity.
Qed.


Lemma flush_0 : flush 0 = 0.
Proof. unfold flush. destruct (Rle_dec (Rabs 0) F64.tiny); reflexivity. Qed.

Lemma flush_id (r : R) : F64.tiny < Rabs r -> flush r = r.
Proof. intros H. unfold flush. destruct (Rle_dec (Rabs r) F64.tiny); [lra | reflexivity]. Qed.

Lemma flush_small (r : R) : Rabs r <= F64.tiny -> flush r = 0.
Proof. intros H. unfold flush. destruct (Rle_dec (Rabs r) F64.tiny); [reflexivity | contradiction]. Qed.

Lemma flush_cases (r : R) : flush r = 0 \/ (flush r = r /\ F64.tiny < Rabs r).
Proof.
  unfold flush. destruct (Rle_dec (Rabs r) F64.tiny); [now left | right; split; lra].
Qed.

Lemma flush_abs_le (r : R) : Rabs (flush r) <= Rabs r.
Proof.
  destruct (flush_cases r) as [-> | [-> _]]; [|lra].
  rewrite Rabs_R0. apply Rabs_pos.
Qed.

Lemma flush_nonneg (r : R) : 0 <= r -> 0 <= flush r <= r /\ r - F64.tiny <= flush r.
Proof.
  intros Hr. unfold flush. destruct (Rle_dec (Rabs r) F64.tiny) as [H|H].
  - rewrite Rabs_right in H by lra. lra.
  - pose proof tiny_pos. lra.
Qed.

Lemma rnd_0 : F64.rnd 0 = F64.Fin 0.
Proof.
  rewrite rnd_flush, flush_0; [reflexivity|].
  rewrite Rabs_R0. pose proof huge_big. lra.
Qed.

Lemma rnd_id (r : R) : F64.tiny < Rabs r < F64.huge -> F64.rnd r = F64.Fin r.
Proof. intros [H1 H2]. rewrite rnd_flush by exact H2. now rewrite flush_id. Qed.



Lemma rnd_fin_le (r b : R) : Rabs r <= b -> b < F64.huge -> fin_le b (F64.rnd r).
Proof.
  intros Hr Hb. exists (flush r). split; [apply rnd_flush; lra|].
  pose proof (flush_abs_le r). lra.
Qed.

Lemma mul_fin_le (x y : F64.t) (a b : R) :
  fin_le a x -> fin_le b y -> a * b < F64.huge -> fin_le (a * b) (F64.mul x y).
Proof.
  intros (r & -> & Hr) (s & -> & Hs) Hab. simpl. apply rnd_fin_le; [|exact Hab].
  rewrite Rabs_mult. apply Rmult_le_compat; try apply Rabs_pos; assumption.
Qed.

Lemma add_fin_le (x y : F64.t) (a b : R) :
  fin_le a x -> fin_le b y -> a + b < F64.huge -> fin_le (a + b) (F64.add x y).
Proof.
  intros (r & -> & Hr) (s & -> & Hs) Hab. simpl. apply rnd_fin_le; [|exact Hab].
  pose proof (Rabs_triang r s). lra.
Qed.

Lemma fin_le_weaken (x : F64.t) (a b : R) : a <= b -> fin_le a x -> fin_le b x.
Proof. intros Hab (r & -> & Hr). exists r. split; [reflexivity | lra]. Qed.

Lemma Forall_fin_le_map (b : R) (l : list F64.t) :
  Forall (fin_le b) l ->
  exists v : vec, l = map F64.Fin v /\ Forall (fun r => Rabs r <= b) v.
Proof.
  induction 1 as [|x l (r & -> & Hr) _ (v & -> & Hv)].
  - exists []. split; [reflexivity | constructor].
  - exists (r :: v). split; [reflexivity | now constructor].
Qed.

(** ** Sorting and indexing *)

Lemma insert_by_In (key : nat -> F64.t) (i k : nat) (l : list nat) :
  In k (F64.insert_by key i l) -> k = i \/ In k l.
Proof.
  induction l as [|j l IH]; simpl.
  - intros [<-|[]]. now left.
  - destruct (F64.leb (key i) (key j)); simpl.
    + intros [<-|H]; [now left | now right].
    + intros [<-|H]; [right; now left|].
      destruct (IH H) as [->|H']; [now left | right; now right].
Qed.

Lemma argsort_in_range (x : list F64.t) :
  Forall (fun i => (i < length x)%nat) (F64.argsort x).
Proof.
  unfold F64.argsort. apply Forall_forall. intros k.
  assert (forall idx, In k (fold_right (F64.insert_by (fun i => nth i x F64.NaN)) [] idx)
                      -> In k idx) as H.
  { induction idx as [|i idx IH]; simpl; [tauto|].
    intros Hk. apply insert_by_In in Hk as [->|Hk]; [now left | right; now apply IH]. }
  intros Hk. apply H in Hk. apply in_seq in Hk. lia.
Qed.

Lemma take_Forall (P : F64.t -> Prop) (temp : list F64.t) (order : list nat) :
  Forall P temp -> Forall (fun i => (i < length temp)%nat) order ->
  exists l, F64.take temp order = Some l /\ Forall P l.
Proof.
  intros HP. induction 1 as [|i order Hi _ (l & E & Hl)]; simpl.
  - exists []. split; [reflexivity | constructor].
  - destruct (nth_error temp i) as [a|] eqn:Ea.
    + rewrite E. cbn [bind]. exists (a :: l). split; [reflexivity|].
      constructor; [|exact Hl]. rewrite Forall_forall in HP. apply HP.
      now apply nth_error_In with i.
    + apply nth_error_None in Ea. lia.
Qed.

Lemma list_set_Forall {A : Type} (P : A -> Prop) (l : list A) (k : nat) (v : A) :
  (k < length l)%nat -> Forall P l -> P v ->
  exists l', list_set l k v = Some l' /\ length l' = length l /\ Forall P l'.
Proof.
  revert k. induction l as [|a l IH]; intros k Hk Hl Hv; simpl in Hk; [lia|].
  inversion Hl as [|? ? Ha Hl']; subst.
  destruct k as [|k]; simpl.
  - exists (v :: l). repeat split. now constructor.
  - destruct (IH k ltac:(lia) Hl' Hv) as (l' & -> & Hlen & HP).
    exists (a :: l'). simpl. repeat split; [congruence | now constructor].
Qed.

Lemma length_F64_vadd (u v : list F64.t) :
  length u = length v -> length (F64.vadd u v) = length u.
Proof.
  revert v. induction u as [|a u IH]; intros [|b v] Hlen; try discriminate;
    simpl; [reflexivity|]. f_equal. apply IH. simpl in Hlen. lia.
Qed.

(** ** The gradient stays finite *)

Lemma vdot_abs_nonneg (u v : vec) : 0 <= vdot (map Rabs u) (map Rabs v).
Proof.
  revert v. induction u as [|a u IH]; intros [|b v]; simpl; try lra.
  specialize (IH v). pose proof (Rabs_pos a). pose proof (Rabs_pos b).
  assert (0 <= Rabs a * Rabs b) by now apply Rmult_le_pos. lra.
Qed.

Lemma dot_abs_fin_le (u v : vec) :
  vdot (map Rabs u) (map Rabs v) < F64.huge ->
  fin_le (vdot (map Rabs u) (map Rabs v)) (F64.dot (map F64.Fin u) (map F64.Fin v)).
Proof.
  revert v. induction u as [|a u IH]; intros [|b v] H; cbn [map F64.dot vdot] in *;
    try (exists 0; split; [reflexivity | rewrite Rabs_R0; lra]).
  pose proof (vdot_abs_nonneg u v) as Hn.
  pose proof (Rabs_pos a) as Ha. pose proof (Rabs_pos b) as Hb.
  assert (0 <= Rabs a * Rabs b) by now apply Rmult_le_pos.
  apply add_fin_le; [| apply IH; lra | exact H].
  apply mul_fin_le; [exists a; split; [reflexivity | lra]
                    | exists b; split; [reflexivity | lra] | lra].
Qed.

Lemma per_arm_fin_le (Theta : mat) (Xk : vec) (Y : R) :
  Forall (fun r => vdot (map Rabs r) (map Rabs Xk) <= Y) (rows (transpose Theta)) ->
  Y < F64.huge ->
  Forall (fin_le Y) (F64.per_arm Theta Xk).
Proof.
  intros H HY. unfold F64.per_arm, F64.matvec. apply Forall_forall. intros x Hx.
  apply in_map_iff in Hx as (r & <- & Hr). rewrite Forall_forall in H.
  specialize (H r Hr). apply fin_le_weaken with (vdot (map Rabs r) (map Rabs Xk));
    [exact H|]. apply dot_abs_fin_le. lra.
Qed.

Lemma abs_mass_nonneg (w : vec) : 0 <= np_sum (map Rabs w).
Proof. induction w as [|a w IH]; simpl; [lra|]. pose proof (Rabs_pos a). lra. Qed.

Lemma dot_fin_le (w : vec) (ts : list F64.t) (Y : R) :
  0 <= Y -> Forall (fin_le Y) ts -> np_sum (map Rabs w) * Y < F64.huge ->
  fin_le (np_sum (map Rabs w) * Y) (F64.dot (map F64.Fin w) ts).
Proof.
  intros HY Hts. revert w. induction Hts as [|x ts Hx _ IH]; intros w Hw.
  - exists 0. split; [destruct w; reflexivity|].
    rewrite Rabs_R0. apply Rmult_le_pos; [apply abs_mass_nonneg | exact HY].
  - destruct w as [|a w].
    + exists 0. split; [reflexivity|]. rewrite Rabs_R0. simpl. lra.
    + change (np_sum (map Rabs (a :: w))) with (Rabs a + np_sum (map Rabs w)) in *.
      cbn [map F64.dot].
      pose proof (abs_mass_nonneg w) as Hm. pose proof (Rabs_pos a) as Ha.
      assert (0 <= np_sum (map Rabs w) * Y) by now apply Rmult_le_pos.
      assert (0 <= Rabs a * Y) by now apply Rmult_le_pos.
      assert (E : (Rabs a + np_sum (map Rabs w)) * Y
                  = Rabs a * Y + np_sum (map Rabs w) * Y) by ring.
      rewrite E in *.
      apply add_fin_le; [| apply IH; lra | exact Hw].
      apply mul_fin_le; [exists a; split; [reflexivity | lra] | exact Hx | lra].
Qed.

Lemma length_per_arm (Theta : mat) (Xk : vec) :
  length (F64.per_arm Theta Xk) = ncols Theta.
Proof. unfold F64.per_arm, F64.matvec, transpose. simpl. now rewrite !length_map, length_seq. Qed.

Lemma F64_aggregate_length (self : MOCB.t) (alpha : list F64.t) (Theta : mat)
    (X : list vec) :
  Z.of_nat (length alpha) = MOCB.K self -> Z.of_nat (length X) = MOCB.K self ->
  Z.of_nat (ncols Theta) = MOCB.D self ->
  exists x, F64.aggregate self alpha Theta X = Some x /\ length x = ncols Theta.
Proof.
  intros HK HX HD. unfold F64.aggregate.
  rewrite <- HD, np_zeros_of_nat, <- HK, range_of_nat. cbn [bind].
  apply (for_each_invariant (fun _ x => length x = ncols Theta)).
  - now rewrite length_map, repeat_length.
  - intros k x Hk Hlen.
    destruct (nth_error alpha k) as [a|] eqn:Ea; [|apply nth_error_None in Ea; lia].
    destruct (nth_error X k) as [Xk|] eqn:EX; [|apply nth_error_None in EX; lia].
    cbn [bind]. eexists. split; [reflexivity|].
    rewrite length_F64_vadd; [exact Hlen|].
    now rewrite length_map, length_per_arm.
Qed.

(** Whatever [alpha] holds, the gradient is finite: each entry is [w] dotted
    with an arrangement of a bounded vector. *)
Lemma F64_grad_in_range (self : MOCB.t) (alpha : list F64.t) (Theta : mat)
    (X : list vec) (Y : R) :
  Z.of_nat (length alpha) = MOCB.K self -> Z.of_nat (length X) = MOCB.K self ->
  Z.of_nat (ncols Theta) = MOCB.D self ->
  0 <= Y < F64.huge -> bounded_by Y Theta X ->
  weight_mass self * Y < F64.huge ->
  exists g : vec,
    F64.grad self alpha Theta X = Some (map F64.Fin g) /\
    length g = length alpha /\
    Forall (fun r => Rabs r <= weight_mass self * Y) g.
Proof.
  intros HK HX HD [HY0 HY] Hb HW.
  destruct (F64_aggregate_length self alpha Theta X HK HX HD) as (x & E & Hlen).
  unfold F64.grad. rewrite E. cbn [bind].
  rewrite <- HK, np_zeros_of_nat, range_of_nat. cbn [bind].
  pose proof (abs_mass_nonneg (MOCB.w self)) as Hm. fold (weight_mass self) in Hm.
  assert (HG : 0 <= weight_mass self * Y) by now apply Rmult_le_pos.
  destruct (for_each_invariant
              (fun _ g => length g = length alpha /\
                          Forall (fin_le (weight_mass self * Y)) g)
              (fun k gradient =>
                 Xk <- nth_error X k ;;
                 temp_order <- F64.take (F64.per_arm Theta Xk) (F64.argsort x) ;;
                 list_set gradient k (F64.dot (map F64.Fin (MOCB.w self)) temp_order))
              (length alpha) (map F64.Fin (repeat 0 (length alpha))))
    as (g & Eg & Hgl & Hg).
  - split; [now rewrite length_map, repeat_length|].
    apply Forall_forall. intros y Hy. apply in_map_iff in Hy as (r & <- & Hr).
    apply repeat_spec in Hr. subst r. exists 0. split; [reflexivity|].
    now rewrite Rabs_R0.
  - intros k g Hk [Hgl Hg].
    destruct (nth_error X k) as [Xk|] eqn:EX; [|apply nth_error_None in EX; lia].
    cbn [bind].
    assert (HXk : Forall (fin_le Y) (F64.per_arm Theta Xk)).
    { apply per_arm_fin_le; [|exact HY]. unfold bounded_by in Hb.
      rewrite Forall_forall in Hb. apply Hb. now apply nth_error_In with k. }
    destruct (take_Forall (fin_le Y) (F64.per_arm Theta Xk) (F64.argsort x) HXk)
      as (ts & Et & Hts).
    { rewrite length_per_arm, <- Hlen. apply argsort_in_range. }
    rewrite Et. cbn [bind].
    destruct (list_set_Forall (fin_le (weight_mass self * Y)) g k
                (F64.dot (map F64.Fin (MOCB.w self)) ts) ltac:(lia) Hg)
      as (g' & Eg' & Hl' & Hg').
    { now apply dot_fin_le. }
    exists g'. split; [exact Eg'|]. split; [congruence | exact Hg'].
  - destruct (Forall_fin_le_map _ _ Hg) as (v & -> & Hv).
    exists v. split; [exact Eg|]. split; [now rewrite length_map in Hgl | exact Hv].
Qed.

(** ** One pass inside the range *)

Lemma map_rnd_flush {A : Type} (f : A -> R) (l : list A) :
  Forall (fun x => Rabs (f x) < F64.huge) l ->
  map (fun x => F64.rnd (f x)) l = map F64.Fin (map (fun x => flush (f x)) l).
Proof.
  induction 1 as [|x l Hx _ IH]; simpl; [reflexivity|].
  now rewrite IH, rnd_flush.
Qed.

Lemma F64_vmul_fin (a e : vec) :
  Forall (fun p => Rabs p < F64.huge) (vmul a e) ->
  F64.vmul (map F64.Fin a) (map F64.Fin e) = map F64.Fin (map flush (vmul a e)).
Proof.
  revert e. induction a as [|x a IH]; intros [|y e] H; simpl in *; try reflexivity.
  inversion H as [|? ? Hp H']; subst. now rewrite IH, rnd_flush.
Qed.

Lemma F64_sum_fin (t : vec) (acc : R) :
  0 <= acc -> (acc = 0 \/ F64.tiny < acc) ->
  Forall (fun x => x = 0 \/ F64.tiny < x) t ->
  acc + np_sum t < F64.huge ->
  fold_left F64.add (map F64.Fin t) (F64.Fin acc) = F64.Fin (acc + np_sum t).
Proof.
  intros Hacc Hc Ht. revert acc Hacc Hc.
  induction Ht as [|x t Hx Ht IH]; intros acc Hacc Hc Hs; simpl in *.
  - f_equal. lra.
  - pose proof tiny_pos as Htp.
    assert (Hx0 : 0 <= x) by (destruct Hx; lra).
    assert (Hnn : 0 <= np_sum t).
    { apply np_sum_nonneg. unfold nonneg. eapply Forall_impl; [|exact Ht].
      intros y [->|Hy]; lra. }
    assert (Hcase : acc + x = 0 \/ F64.tiny < acc + x) by (destruct Hc, Hx; lra).
    assert (E : F64.rnd (acc + x) = F64.Fin (acc + x)).
    { destruct Hcase as [->|Hgt]; [apply rnd_0|].
      apply rnd_id. rewrite Rabs_right by lra. lra. }
    rewrite E, IH; [f_equal; lra | lra | exact Hcase | lra].
Qed.

Lemma np_sum_vmul_le (a e : vec) (c : R) :
  nonneg a -> Forall (fun y => 0 <= y <= c) e -> length e = length a ->
  np_sum (vmul a e) <= c * np_sum a.
Proof.
  intros Ha. revert e. induction Ha as [|x a Hx Ha IH]; intros [|y e] He Hlen;
    simpl in *; try discriminate; [lra|].
  inversion He as [|? ? Hy He']; subst.
  specialize (IH e He' ltac:(lia)).
  assert (x * y <= x * c) by (apply Rmult_le_compat_l; lra). lra.
Qed.

Lemma np_sum_vmul_ge (a e : vec) (c : R) :
  nonneg a -> Forall (fun y => c <= y) e -> length e = length a ->
  c * np_sum a <= np_sum (vmul a e).
Proof.
  intros Ha. revert e. induction Ha as [|x a Hx Ha IH]; intros [|y e] He Hlen;
    simpl in *; try discriminate; [lra|].
  inversion He as [|? ? Hy He']; subst.
  specialize (IH e He' ltac:(lia)).
  assert (x * c <= x * y) by (apply Rmult_le_compat_l; lra). lra.
Qed.

Lemma np_sum_map_flush (t : vec) :
  nonneg t ->
  np_sum t - INR (length t) * F64.tiny <= np_sum (map flush t) <= np_sum t.
Proof.
  induction 1 as [|x t Hx Ht IH].
  - simpl. lra.
  - change (length (x :: t)) with (S (length t)). rewrite S_INR. simpl.
    pose proof (flush_nonneg x Hx). lra.
Qed.

Lemma nonneg_map_flush (t : vec) : nonneg t -> nonneg (map flush t).
Proof.
  intros Ht. apply Forall_forall. intros y Hy. apply in_map_iff in Hy as (x & <- & Hx).
  unfold nonneg in Ht. rewrite Forall_forall in Ht.
  apply (flush_nonneg x (Ht x Hx)).
Qed.

Lemma flushed_cases (t : vec) :
  nonneg t -> Forall (fun x => x = 0 \/ F64.tiny < x) (map flush t).
Proof.
  intros Ht. apply Forall_forall. intros y Hy. apply in_map_iff in Hy as (x & <- & Hx).
  unfold nonneg in Ht. rewrite Forall_forall in Ht. specialize (Ht x Hx).
  destruct (flush_cases x) as [->|[-> H]]; [now left | right].
  now rewrite Rabs_right in H by lra.
Qed.

Lemma In_le_np_sum (t : vec) (x : R) : nonneg t -> In x t -> x <= np_sum t.
Proof.
  induction 1 as [|y t Hy Ht IH]; simpl; [tauto|].
  pose proof (np_sum_nonneg t Ht).
  intros [->|Hx]; [lra | specialize (IH Hx); lra].
Qed.

Lemma lt_exp (x : R) : x < exp x.
Proof.
  destruct (Rle_dec x 0) as [H|H].
  - pose proof (exp_pos x). lra.
  - pose proof (exp_ineq1 x ltac:(lra)). lra.
Qed.

Lemma exp_between (x L : R) : Rabs x <= L -> exp (- L) <= exp x <= exp L.
Proof.
  intros H.
  assert (H1 : - L <= x) by (pose proof (Rle_abs (- x)) as Hx; rewrite Rabs_Ropp in Hx; lra).
  assert (H2 : x <= L) by (pose proof (Rle_abs x); lra).
  split.
  - destruct (Req_dec (- L) x) as [->|Hne]; [lra|]. left. apply exp_increasing. lra.
  - destruct (Req_dec x L) as [->|Hne]; [lra|]. left. apply exp_increasing. lra.
Qed.

Lemma vmul_bounds (a e : vec) (c : R) :
  Forall (fun x => 0 <= x <= 1) a -> Forall (fun y => 0 <= y <= c) e ->
  Forall (fun p => 0 <= p <= c) (vmul a e).
Proof.
  intros Ha. revert e. induction Ha as [|x a Hx Ha IH]; intros e He; simpl.
  - constructor.
  - destruct He as [|y e Hy He]; constructor; [|now apply IH].
    split; [apply Rmult_le_pos; lra|].
    assert (x * y <= 1 * c) by (apply Rmult_le_compat; lra). lra.
Qed.



Lemma entries_kept (L s : R) (a e : vec) :
  0 <= L -> 0 < s <= exp L ->
  nonneg a -> Forall (fun y => exp (- L) <= y <= exp L) e -> length e = length a ->
  Forall2 (entry_kept L) a (map (fun x => flush (x / s)) (map flush (vmul a e))).
Proof.
  intros HL [Hs0 Hs] Ha. revert e.
  pose proof tiny_pos as Htp.
  assert (HeL : 1 <= exp L).
  { destruct (Req_dec L 0) as [->|Hne]; [rewrite exp_0; lra|].
    pose proof (exp_ineq1 L ltac:(lra)). lra. }
  assert (Hinv : exp (- L) = / exp L) by apply exp_Ropp.
  assert (H2 : exp (2 * L) = exp L * exp L).
  { replace (2 * L) with (L + L) by ring. apply exp_plus. }
  assert (H2' : exp (- (2 * L)) = / exp L * / exp L).
  { replace (- (2 * L)) with (- L + - L) by ring. now rewrite exp_plus, Hinv. }
  assert (Hpos : 0 < / exp L) by (apply Rinv_0_lt_compat; lra).
  assert (Hsinv : / exp L <= / s) by (apply Rinv_le_contravar; lra).
  induction Ha as [|x a Hx Ha IH]; intros [|y e] He Hlen; simpl in *;
    try discriminate; [constructor|].
  inversion He as [|? ? Hy He']; subst.
  constructor; [|apply IH; [exact He' | lia]].
  split.
  - intros ->. rewrite Rmult_0_l, flush_0. unfold Rdiv. rewrite Rmult_0_l. apply flush_0.
  - intros Hbig. rewrite H2 in Hbig. rewrite H2'. rewrite Hinv in Hy.
    assert (Hx1 : F64.tiny * exp L < x * / exp L).
    { apply Rmult_lt_reg_r with (exp L); [lra|].
      rewrite (Rmult_assoc x), Rinv_l by lra. lra. }
    assert (Hp : x * / exp L <= x * y) by (apply Rmult_le_compat_l; lra).
    assert (Hp1 : F64.tiny < x * y).
    { assert (F64.tiny * 1 <= F64.tiny * exp L) by (apply Rmult_le_compat_l; lra). lra. }
    rewrite (flush_id (x * y)) by (rewrite Rabs_right; lra).
    assert (Hq : x * / exp L * / exp L <= x * y / s).
    { unfold Rdiv. apply Rmult_le_compat; try lra.
      apply Rmult_le_pos; lra. }
    assert (Hq1 : F64.tiny < x * / exp L * / exp L).
    { apply Rmult_lt_reg_r with (exp L); [lra|].
      rewrite (Rmult_assoc (x * / exp L)), Rinv_l by lra. lra. }
    rewrite flush_id by (rewrite Rabs_right; lra).
    lra.
Qed.

Lemma np_sum_map_flush_div (t : vec) (s : R) :
  0 < s -> nonneg t ->
  np_sum t / s - INR (length t) * F64.tiny
  <= np_sum (map (fun x => flush (x / s)) t) <= np_sum t / s.
Proof.
  intros Hs Ht.
  assert (Hd : nonneg (map (fun x => x / s) t)).
  { apply Forall_forall. intros y Hy. apply in_map_iff in Hy as (x & <- & Hx).
    unfold nonneg in Ht. rewrite Forall_forall in Ht. specialize (Ht x Hx).
    apply Rmult_le_pos; [exact Ht|]. left. now apply Rinv_0_lt_compat. }
  pose proof (np_sum_map_flush _ Hd) as H.
  rewrite map_map, length_map, np_sum_map_div in H. exact H.
Qed.

(** One pass of the ascent from a finite non-negative [alpha] of total between
    [1/2] and [1], when [exp] stays in range. *)
Lemma F64_mirror_step_in_range (self : MOCB.t) (Theta : mat) (X : list vec)
    (L : R) (a : vec) :
  well_shaped self a Theta X -> in_range self Theta X L ->
  exp L < F64.huge -> 2 * INR (length a) * F64.tiny < exp (- L) ->
  nonneg a -> / 2 <= np_sum a <= 1 ->
  exists a' : vec,
    F64.mirror_step self Theta X (map F64.Fin a) = Some (map F64.Fin a') /\
    length a' = length a /\ nonneg a' /\
    1 - INR (length a) * F64.tiny <= np_sum a' <= 1 /\
    Forall2 (entry_kept L) a a' /\
    exists t : vec,
      length t = length a /\ 0 < np_sum t /\
      a' = map (fun x => flush (x / np_sum t)) t.
Proof.
  intros (HK & HX & HD & _ & _) (Y & HY0 & Hb & HY2 & HW2 & HL) HeL Htiny Ha [Hs1 Hs2].
  pose proof tiny_pos as Htp. pose proof huge_big as Hhb.
  pose proof (abs_mass_nonneg (MOCB.w self)) as Hm. fold (weight_mass self) in Hm.
  assert (HG : 0 <= weight_mass self * Y) by (apply Rmult_le_pos; lra).
  assert (HY : 0 <= Y < F64.huge) by lra.
  assert (HW : weight_mass self * Y < F64.huge) by lra.
  assert (HL0 : 0 <= L).
  { pose proof (Rabs_pos (MOCB.eta self)).
    assert (0 <= Rabs (MOCB.eta self) * (weight_mass self * Y)) by now apply Rmult_le_pos.
    lra. }
  assert (HLh : L < F64.huge) by (pose proof (lt_exp L); lra).
  assert (Hn : 1 <= INR (length a)).
  { destruct a as [|x a]; [simpl in Hs1; lra|].
    change (length (x :: a)) with (S (length a)). rewrite S_INR.
    pose proof (pos_INR (length a)). lra. }
  assert (HeL1 : exp (- L) <= 1).
  { rewrite <- exp_0. destruct (Req_dec L 0) as [->|Hne]; [rewrite Ropp_0; lra|].
    left. apply exp_increasing. lra. }
  assert (Htl : F64.tiny < exp (- L)).
  { assert (F64.tiny * 1 <= F64.tiny * (2 * INR (length a)))
      by (apply Rmult_le_compat_l; lra). lra. }
  destruct (F64_grad_in_range self (map F64.Fin a) Theta X Y) as (g & Eg & Hgl & Hg);
    try assumption.
  { now rewrite length_map. }
  rewrite length_map in Hgl.
  unfold F64.mirror_step. rewrite Eg. cbn [bind].
  (* eta * gradient *)
  set (e := map (fun gk => flush (MOCB.eta self * gk)) g).
  assert (Ee : map (F64.mul (F64.Fin (MOCB.eta self))) (map F64.Fin g) = map F64.Fin e).
  { rewrite map_map. cbn [F64.mul]. apply map_rnd_flush.
    eapply Forall_impl; [|exact Hg]. intros r Hr. cbv beta in Hr |- *.
    rewrite Rabs_mult.
    assert (Rabs (MOCB.eta self) * Rabs r <= Rabs (MOCB.eta self) * (weight_mass self * Y))
      by (apply Rmult_le_compat_l; [apply Rabs_pos | exact Hr]).
    lra. }
  assert (He : Forall (fun x => Rabs x <= L) e).
  { apply Forall_forall. intros x Hx. apply in_map_iff in Hx as (r & <- & Hr).
    rewrite Forall_forall in Hg. specialize (Hg r Hr).
    pose proof (flush_abs_le (MOCB.eta self * r)) as Hf. rewrite Rabs_mult in Hf.
    assert (Rabs (MOCB.eta self) * Rabs r <= Rabs (MOCB.eta self) * (weight_mass self * Y))
      by (apply Rmult_le_compat_l; [apply Rabs_pos | exact Hg]).
    lra. }
  rewrite Ee.
  (* np.exp *)
  assert (EE : map F64.exp (map F64.Fin e) = map F64.Fin (map exp e)).
  { rewrite !map_map. apply map_ext_in. intros x Hx. cbn [F64.exp].
    rewrite Forall_forall in He. pose proof (exp_between x L (He x Hx)) as [H1 H2].
    apply rnd_id. rewrite Rabs_right by (pose proof (exp_pos x); lra). lra. }
  assert (HE : Forall (fun y => exp (- L) <= y <= exp L) (map exp e)).
  { apply Forall_forall. intros y Hy. apply in_map_iff in Hy as (x & <- & Hx).
    rewrite Forall_forall in He. apply exp_between. now apply He. }
  assert (HEl : length (map exp e) = length a).
  { unfold e. now rewrite !length_map. }
  rewrite EE.
  (* alpha * exp(...) *)
  assert (Ha1 : Forall (fun x => 0 <= x <= 1) a).
  { apply Forall_forall. intros x Hx. unfold nonneg in Ha.
    pose proof (In_le_np_sum a x Ha Hx). rewrite Forall_forall in Ha.
    specialize (Ha x Hx). lra. }
  assert (HE' : Forall (fun y => 0 <= y <= exp L) (map exp e)).
  { eapply Forall_impl; [|exact HE]. intros y Hy. cbv beta in Hy |- *.
    pose proof (exp_pos (- L)). lra. }
  pose proof (vmul_bounds a (map exp e) (exp L) Ha1 HE') as Hp.
  rewrite F64_vmul_fin.
  2:{ eapply Forall_impl; [|exact Hp]. intros p Hp'. cbv beta in Hp' |- *.
      rewrite Rabs_right; lra. }
  set (t := map flush (vmul a (map exp e))).
  assert (Hpn : nonneg (vmul a (map exp e))).
  { eapply Forall_impl; [|exact Hp]. intros p Hp'. cbv beta in Hp'. lra. }
  assert (Ht : nonneg t) by now apply nonneg_map_flush.
  assert (Htl' : length t = length a).
  { unfold t. rewrite length_map. now apply length_vmul. }
  (* np.sum *)
  pose proof (np_sum_map_flush _ Hpn) as [Hsl Hsu]. fold t in Hsl, Hsu.
  rewrite (length_vmul a (map exp e)) in Hsl by congruence.
  pose proof (np_sum_vmul_le a (map exp e) (exp L) Ha HE' HEl) as Hup.
  assert (HEge : Forall (fun y => exp (- L) <= y) (map exp e)).
  { eapply Forall_impl; [|exact HE]. intros y Hy. cbv beta in Hy. lra. }
  pose proof (np_sum_vmul_ge a (map exp e) (exp (- L)) Ha HEge HEl) as Hlo.
  assert (HeLp : 0 < exp L) by apply exp_pos.
  assert (HeLm : 0 < exp (- L)) by apply exp_pos.
  assert (Hsum_hi : np_sum t <= exp L).
  { assert (exp L * np_sum a <= exp L * 1) by (apply Rmult_le_compat_l; lra). lra. }
  assert (Hsum_lo : 0 < np_sum t).
  { assert (exp (- L) * / 2 <= exp (- L) * np_sum a) by (apply Rmult_le_compat_l; lra).
    lra. }
  assert (Es : F64.sum (map F64.Fin t) = F64.Fin (np_sum t)).
  { unfold F64.sum. rewrite (F64_sum_fin t 0); [f_equal; lra | lra | now left | | lra].
    now apply flushed_cases. }
  rewrite Es.
  (* temp / sum *)
  assert (Eo : map (fun x => F64.div x (F64.Fin (np_sum t))) (map F64.Fin t)
               = map F64.Fin (map (fun x => flush (x / np_sum t)) t)).
  { rewrite map_map. cbn [F64.div].
    destruct (Req_dec_T (np_sum t) 0) as [H0|_]; [lra|].
    apply map_rnd_flush. apply Forall_forall. intros x Hx.
    pose proof (In_le_np_sum t x Ht Hx) as Hxs.
    unfold nonneg in Ht. rewrite Forall_forall in Ht. specialize (Ht x Hx).
    assert (0 <= x / np_sum t <= 1).
    { split; [apply Rmult_le_pos; [lra | left; now apply Rinv_0_lt_compat]|].
      apply Rmult_le_reg_r with (np_sum t); [lra|].
      unfold Rdiv. rewrite Rmult_assoc, Rinv_l by lra. lra. }
    rewrite Rabs_right by lra. pose proof huge_big. lra. }
  rewrite Eo. eexists. split; [reflexivity|].
  split; [now rewrite length_map|].
  split.
  { apply Forall_forall. intros y Hy. apply in_map_iff in Hy as (x & <- & Hx).
    unfold nonneg in Ht. rewrite Forall_forall in Ht. specialize (Ht x Hx).
    apply flush_nonneg. apply Rmult_le_pos; [lra | left; now apply Rinv_0_lt_compat]. }
  split.
  { pose proof (np_sum_map_flush_div t (np_sum t) Hsum_lo Ht) as H.
    rewrite Htl' in H.
    replace (np_sum t / np_sum t) with 1 in H by (field; lra). exact H. }
  split; [unfold t; apply entries_kept; auto|].
  exists t. auto.
Qed.

Lemma entry_kept_0 (x : R) : entry_kept 0 x x.
Proof.
  split; [auto|]. intros _. rewrite Rmult_0_r, Ropp_0, exp_0. lra.
Qed.

Lemma entry_kept_trans (L1 L2 x o o' : R) :
  0 <= L1 -> 0 <= L2 -> 0 <= x ->
  entry_kept L1 x o -> entry_kept L2 o o' -> entry_kept (L1 + L2) x o'.
Proof.
  intros H1 H2 Hx [Hz1 Hk1] [Hz2 Hk2]. split; [auto|].
  pose proof tiny_pos as Htp.
  assert (E : exp (2 * (L1 + L2)) = exp (2 * L1) * exp (2 * L2)).
  { replace (2 * (L1 + L2)) with (2 * L1 + 2 * L2) by ring. apply exp_plus. }
  assert (E' : exp (- (2 * (L1 + L2))) = exp (- (2 * L1)) * exp (- (2 * L2))).
  { replace (- (2 * (L1 + L2))) with (- (2 * L1) + - (2 * L2)) by ring. apply exp_plus. }
  assert (G1 : 1 <= exp (2 * L1)).
  { rewrite <- exp_0. destruct (Req_dec L1 0) as [->|?]; [rewrite Rmult_0_r; lra|].
    left. apply exp_increasing. lra. }
  assert (G2 : 1 <= exp (2 * L2)).
  { rewrite <- exp_0. destruct (Req_dec L2 0) as [->|?]; [rewrite Rmult_0_r; lra|].
    left. apply exp_increasing. lra. }
  assert (I1 : exp (- (2 * L1)) * exp (2 * L1) = 1).
  { rewrite <- exp_plus. replace (- (2 * L1) + 2 * L1) with 0 by ring. apply exp_0. }
  pose proof (exp_pos (- (2 * L1))) as P1. pose proof (exp_pos (- (2 * L2))) as P2.
  intros Hbig. rewrite E in Hbig. rewrite E'.
  assert (Hb1 : F64.tiny * exp (2 * L1) < x).
  { assert (F64.tiny * exp (2 * L1) * 1 <= F64.tiny * exp (2 * L1) * exp (2 * L2)).
    { apply Rmult_le_compat_l; [|lra]. apply Rmult_le_pos; lra. }
    lra. }
  specialize (Hk1 Hb1).
  assert (Hb2 : F64.tiny * exp (2 * L2) < o).
  { assert (F64.tiny * exp (2 * L2) < x * exp (- (2 * L1))); [|lra].
    apply Rmult_lt_reg_r with (exp (2 * L1)); [lra|].
    rewrite (Rmult_assoc x), I1. lra. }
  specialize (Hk2 Hb2).
  assert (x * exp (- (2 * L1)) * exp (- (2 * L2)) <= o * exp (- (2 * L2)))
    by (apply Rmult_le_compat_r; lra).
  lra.
Qed.

Lemma Forall2_entry_kept_trans (L1 L2 : R) (a b c : vec) :
  0 <= L1 -> 0 <= L2 -> nonneg a ->
  Forall2 (entry_kept L1) a b -> Forall2 (entry_kept L2) b c ->
  Forall2 (entry_kept (L1 + L2)) a c.
Proof.
  intros H1 H2 Ha Hab. revert c. induction Hab as [|x o a b Hxo Hab IH]; intros c Hbc.
  - inversion Hbc. constructor.
  - inversion Hbc as [|? o' ? c' Hoo Hbc']; subst.
    inversion Ha as [|? ? Hx Ha']; subst.
    constructor; [now apply entry_kept_trans with o | now apply IH].
Qed.

Lemma Forall2_entry_kept_0 (a : vec) : Forall2 (entry_kept 0) a a.
Proof. induction a; constructor; [apply entry_kept_0 | assumption]. Qed.

(** The passes of the ascent inside the range: every iterate is finite, on
    the simplex up to underflow, and its entries are kept from collapsing. *)
Lemma F64_mirror_loop (self : MOCB.t) (alpha : vec) (Theta : mat) (X : list vec)
    (L : R) :
  well_shaped self alpha Theta X -> on_simplex alpha -> in_range self Theta X L ->
  exp L < F64.huge -> 2 * INR (length alpha) * F64.tiny < exp (- L) ->
  forall n, exists a : vec,
    for_each (seq 0 n) (fun _ a => F64.mirror_step self Theta X a) (map F64.Fin alpha)
    = Some (map F64.Fin a) /\
    length a = length alpha /\ near_simplex (length alpha) a /\
    Forall2 (entry_kept (INR n * L)) alpha a.
Proof.
  intros Hws [Hnn Hsum] Hr HeL Htiny n.
  pose proof tiny_pos as Htp.
  assert (HL0 : 0 <= L).
  { destruct Hr as (Y & HY & _ & _ & _ & HL).
    pose proof (abs_mass_nonneg (MOCB.w self)) as Hm. fold (weight_mass self) in Hm.
    pose proof (Rabs_pos (MOCB.eta self)).
    assert (0 <= weight_mass self * Y) by (apply Rmult_le_pos; lra).
    assert (0 <= Rabs (MOCB.eta self) * (weight_mass self * Y)) by now apply Rmult_le_pos.
    lra. }
  assert (HeL1 : exp (- L) <= 1).
  { rewrite <- exp_0. destruct (Req_dec L 0) as [->|Hne]; [rewrite Ropp_0; lra|].
    left. apply exp_increasing. lra. }
  destruct (for_each_invariant
              (fun n a64 => exists a : vec,
                   a64 = map F64.Fin a /\ length a = length alpha /\
                   near_simplex (length alpha) a /\
                   Forall2 (entry_kept (INR n * L)) alpha a)
              (fun _ a => F64.mirror_step self Theta X a) n (map F64.Fin alpha))
    as (a64 & E & a & -> & Hl & Hs & Hk).
  - exists alpha. split; [reflexivity|]. split; [reflexivity|]. split.
    + split; [exact Hnn|]. pose proof (pos_INR (length alpha)).
      assert (0 <= INR (length alpha) * F64.tiny) by (apply Rmult_le_pos; lra). lra.
    + simpl. rewrite Rmult_0_l. apply Forall2_entry_kept_0.
  - intros k a64 _ (a & -> & Hl & [Han Has] & Hk).
    destruct (F64_mirror_step_in_range self Theta X L a) as (a' & E' & Hl' & Hn' & Hs' & Hk' & _);
      try assumption.
    + now apply (well_shaped_length self alpha a).
    + now rewrite Hl.
    + split; lra.
    + exists (map F64.Fin a'). split; [exact E'|]. exists a'.
      split; [reflexivity|]. split; [congruence|]. split.
      * split; [exact Hn'|]. now rewrite <- Hl.
      * rewrite S_INR. replace ((INR k + 1) * L) with (INR k * L + L) by ring.
        apply Forall2_entry_kept_trans with a; auto.
        apply Rmult_le_pos; [apply pos_INR | exact HL0].
  - exists a. auto.
Qed.

(** Entries well above the underflow threshold stay strictly positive. *)
Lemma entries_kept_lower (c : R) (alpha a : vec) :
  Forall (fun x => F64.tiny * exp (2 * c) < x) alpha ->
  Forall2 (entry_kept c) alpha a ->
  Forall2 (fun x o => 0 < o /\ x * exp (- (2 * c)) <= o) alpha a.
Proof.
  intros Hbig Hk. induction Hk as [|x o alpha a [_ Hxo] Hk IH]; [constructor|].
  inversion Hbig as [|? ? Hx Hbig']; subst.
  constructor; [|now apply IH].
  specialize (Hxo Hx). pose proof tiny_pos as Htp.
  pose proof (exp_pos (2 * c)). pose proof (exp_pos (- (2 * c))).
  assert (0 < F64.tiny * exp (2 * c)) by (apply Rmult_lt_0_compat; lra).
  assert (0 < x * exp (- (2 * c))) by (apply Rmult_lt_0_compat; lra).
  split; lra.
Qed.


(** C10 (as amended): under the same bound [L], from a point of the simplex
    whose entries are all at least [2^-1021 * exp (2 I L)], twice the least
    normal [float64] times the largest factor by which [I] passes can shrink
    an entry, every entry of the vector [mirror_descent] returns is strictly
    positive: entry [k] is at least [alpha[k] * exp (-2 I L)]. *)
Theorem mirror_descent_positive (self : MOCB.t) (alpha : vec) (Theta_hat : mat)
    (X : list vec) (L : R) :
  well_shaped self alpha Theta_hat X -> on_simplex alpha ->
  in_range self Theta_hat X L ->
  2 * exp L <= F64.huge -> 2 * INR (length alpha) * F64.tiny < exp (- L) ->
  Forall (fun x =>
            2 * F64.least_normal * exp (2 * (INR (Z.to_nat (MOCB.I self)) * L)) <= x)
         alpha ->
  exists alpha' : vec,
    F64.mirror_descent self (map F64.Fin alpha) Theta_hat X = Some (map F64.Fin alpha') /\
    length alpha' = length alpha /\ positive alpha' /\
    Forall2 (fun x o => x * exp (- (2 * (INR (Z.to_nat (MOCB.I self)) * L))) <= o)
            alpha alpha'.
Proof.
  intros Hws Hs Hr HeL2 Htiny Hbig2.
  assert (HeL : exp L < F64.huge) by (pose proof (exp_pos L); lra).
  assert (Hbig : Forall (fun x => F64.tiny * exp (2 * (INR (Z.to_nat (MOCB.I self)) * L)) < x)
                        alpha).
  { eapply Forall_impl; [|exact Hbig2]. intros x Hx. cbv beta in Hx.
    pose proof tiny_lt_least_normal. pose proof tiny_pos.
    pose proof (exp_pos (2 * (INR (Z.to_nat (MOCB.I self)) * L))) as He.
    assert (F64.tiny * exp (2 * (INR (Z.to_nat (MOCB.I self)) * L))
            < F64.least_normal * exp (2 * (INR (Z.to_nat (MOCB.I self)) * L)))
      by (apply Rmult_lt_compat_r; lra).
    assert (0 < F64.least_normal * exp (2 * (INR (Z.to_nat (MOCB.I self)) * L)))
      by (apply Rmult_lt_0_compat; lra).
    lra. }
  destruct (F64_mirror_loop self alpha Theta_hat X L Hws Hs Hr HeL Htiny
              (Z.to_nat (MOCB.I self))) as (a & E & Hl & _ & Hk).
  exists a. split; [exact E|]. split; [exact Hl|].
  pose proof tiny_pos as Htp.
  set (c := INR (Z.to_nat (MOCB.I self)) * L) in *.
  pose proof (entries_kept_lower c alpha a Hbig Hk) as Hboth.
  split.
  - clear -Hboth. induction Hboth as [|x o al a' [Ho _] _ IH]; constructor; auto.
  - clear -Hboth. induction Hboth as [|x o al a' [_ Ho] _ IH]; constructor; auto.
Qed.

(** ** Bounds on [exp] *)

Lemma exp_INR (n : nat) (x : R) : exp (INR n * x) = exp x ^ n.
Proof.
  induction n as [|n IH].
  - simpl. rewrite Rmult_0_l. apply exp_0.
  - rewrite S_INR. replace ((INR n + 1) * x) with (x + INR n * x) by ring.
    rewrite exp_plus, IH. reflexivity.
Qed.

Lemma exp_1_bounds : 2 <= exp 1 <= 4.
Proof. pose proof (exp_ineq1 1 ltac:(lra)). pose proof exp_le_3. lra. Qed.




(** [exp (-3000)] underflows. *)
Lemma exp_3000_underflows : exp (- 3000) <= F64.tiny.
Proof.
  replace (-3000) with (Ropp 3000) by lra.
  rewrite exp_Ropp. unfold F64.tiny.
  apply Rinv_le_contravar; [apply pow2_pos|].
  replace 3000 with (INR 3000 * 1).
  2:{ rewrite INR_IZR_INZ. change (IZR (Z.of_nat 3000)) with 3000. lra. }
  rewrite exp_INR.
  apply Rle_trans with (2 ^ 3000).
  - apply Rle_pow; [lra | lia].
  - apply pow_incr. pose proof exp_1_bounds. lra.
Qed.

(** ** Passes that leave the range *)

Lemma rnd_moderate (r : R) :
  r = 0 \/ / 1000000 <= Rabs r <= 1000000 -> F64.rnd r = F64.Fin r.
Proof.
  intros [->|[H1 H2]]; [apply rnd_0|].
  apply rnd_id. pose proof tiny_small. pose proof huge_big. lra.
Qed.

(** Deciding [F64.rnd] on the values of the small instances. *)
Ltac moderate :=
  first [ left; lra
        | right; rewrite Rabs_right by lra; lra
        | right; rewrite Rabs_left by lra; lra ].

Ltac f64_eval :=
  repeat first [ rewrite rnd_moderate by moderate
               | progress cbn [F64.add F64.mul F64.vadd F64.vmul F64.dot map] ].








Lemma per_arm_far_0 : F64.per_arm far_Theta [1; 0] = [F64.Fin 0].
Proof.
  unfold F64.per_arm, F64.matvec, far_Theta, transpose, col, nrows.
  cbn [rows ncols map seq length nth].
  f64_eval. f_equal. f_equal. lra.
Qed.

Lemma per_arm_far_1 : F64.per_arm far_Theta [0; 1] = [F64.Fin (-3000)].
Proof.
  unfold F64.per_arm, F64.matvec, far_Theta, transpose, col, nrows.
  cbn [rows ncols map seq length nth].
  f64_eval. f_equal. f_equal. lra.
Qed.

Lemma far_grad :
  F64.grad far_arms (map F64.Fin two_arms_alpha) far_Theta two_arms_X
  = Some [F64.Fin 0; F64.Fin (-3000)].
Proof.
  unfold F64.grad, F64.aggregate, far_arms, two_arms_alpha, two_arms_X.
  cbn [MOCB.D MOCB.K MOCB.w]. change (range 2) with [0%nat; 1%nat].
  change (np_zeros 1) with (Some [0]). change (np_zeros 2) with (Some [0; 0]).
  cbn [bind map for_each nth_error].
  rewrite per_arm_far_0, per_arm_far_1.
  f64_eval. cbn [bind]. unfold F64.argsort.
  cbn [length seq fold_right F64.insert_by].
  cbn [F64.take nth_error bind list_set].
  f64_eval. f_equal. f_equal; [f_equal; lra | f_equal; f_equal; lra].
Qed.

(** C10, counterexample: from the strictly positive [alpha = [1/2, 1/2]], with
    the finite gradient [[0, -3000]] and [eta = 1], [exp (-3000)] underflows
    to zero and the pass returns [[1, 0]]: arm 1 gets probability exactly
    zero. *)
Lemma mirror_descent_underflows :
  positive two_arms_alpha /\
  F64.grad far_arms (map F64.Fin two_arms_alpha) far_Theta two_arms_X
  = Some (map F64.Fin [0; -3000]) /\
  F64.mirror_descent far_arms (map F64.Fin two_arms_alpha) far_Theta two_arms_X
  = Some (map F64.Fin [1; 0]) /\
  ~ positive [1; 0].
Proof.
  split; [unfold positive, two_arms_alpha; repeat constructor; lra|].
  split; [exact far_grad|]. split.
  - unfold F64.mirror_descent. change (range (MOCB.I far_arms)) with [0%nat].
    cbn [for_each bind]. unfold F64.mirror_step. rewrite far_grad.
    change (MOCB.eta far_arms) with 1. unfold two_arms_alpha.
    cbn [bind map F64.mul].
    replace (1 * 0) with 0 by lra. replace (1 * -3000) with (-3000) by lra.
    rewrite !rnd_moderate by moderate. cbn [F64.exp]. rewrite exp_0.
    pose proof exp_3000_underflows as Hu. pose proof (exp_pos (-3000)) as Hp.
    pose proof tiny_small as Ht. pose proof huge_big as Hh.
    rewrite (rnd_flush (exp (-3000))) by (rewrite Rabs_right by lra; lra).
    rewrite (flush_small (exp (-3000))) by (rewrite Rabs_right by lra; lra).
    f64_eval. unfold F64.sum. cbn [fold_left]. f64_eval.
    replace (0 + / 2 * 1 + / 2 * 0) with (/ 2) by lra.
    cbn [F64.div]. destruct (Req_dec_T (/ 2) 0) as [Hc|_]; [lra|].
    rewrite !rnd_moderate by moderate.
    f_equal. f_equal; [f_equal; lra | f_equal; f_equal; lra].
  - intros H. inversion H as [|? ? _ H']; subst. inversion H' as [|? ? H0 _]; subst. lra.
Qed.

(** ** A run inside the range *)

Lemma exp_small_bounds : exp 2 <= 16 /\ / 16 <= exp (Ropp 2) /\ exp 4 <= 256.
Proof.
  pose proof exp_1_bounds as [_ H4]. pose proof (exp_pos 1) as Hp.
  assert (E2 : exp 2 = exp 1 * exp 1).
  { replace 2 with (1 + 1) by lra. apply exp_plus. }
  assert (E4 : exp 4 = exp 2 * exp 2).
  { replace 4 with (2 + 2) by lra. apply exp_plus. }
  assert (H2 : exp 2 <= 16) by nra.
  split; [exact H2|]. split.
  - rewrite exp_Ropp. apply Rinv_le_contravar; [apply exp_pos | exact H2].
  - pose proof (exp_pos 2). nra.
Qed.

Lemma two_arms_shaped : well_shaped two_arms two_arms_alpha two_arms_Theta two_arms_X.
Proof. unfold well_shaped, wf_mat, nrows. simpl. repeat split; repeat constructor. Qed.

Lemma two_arms_on_simplex : on_simplex two_arms_alpha.
Proof.
  unfold on_simplex, nonneg, two_arms_alpha. split; [repeat constructor; lra | simpl; lra].
Qed.

Lemma two_arms_in_range : in_range two_arms two_arms_Theta two_arms_X 2.
Proof.
  exists 1. pose proof huge_big. split; [lra|]. split; [|split; [lra|]].
  - unfold bounded_by, two_arms_X, two_arms_Theta, transpose, identity, col, nrows.
    cbn [rows ncols map seq length nth Nat.eqb vdot].
    repeat (apply Forall_cons || apply Forall_nil);
      cbn [map vdot]; rewrite Rabs_R1, Rabs_R0; lra.
  - unfold weight_mass, two_arms. cbn [MOCB.w MOCB.eta map np_sum fold_right].
    rewrite !Rabs_right by lra. split; lra.
Qed.


(** C10, witness: the small instance, from the uniform distribution, with
    [L = 2]. *)
Lemma mirror_descent_positive_witness :
  exists alpha' : vec,
    F64.mirror_descent two_arms (map F64.Fin two_arms_alpha) two_arms_Theta two_arms_X
    = Some (map F64.Fin alpha') /\
    length alpha' = length two_arms_alpha /\ positive alpha' /\
    Forall2 (fun x o => x * exp (- (2 * (INR (Z.to_nat (MOCB.I two_arms)) * 2))) <= o)
            two_arms_alpha alpha'.
Proof.
  apply (mirror_descent_positive two_arms two_arms_alpha two_arms_Theta two_arms_X 2).
  - exact two_arms_shaped.
  - exact two_arms_on_simplex.
  - exact two_arms_in_range.
  - pose proof exp_small_bounds. pose proof huge_big. lra.
  - pose proof exp_small_bounds. pose proof tiny_small.
    change (INR (length two_arms_alpha)) with (1 + 1). lra.
  - pose proof exp_small_bounds as (_ & _ & H4). pose proof least_normal_small.
    assert (0 < F64.least_normal).
    { unfold F64.least_normal. apply Rinv_0_lt_compat, pow2_pos. }
    change (INR (Z.to_nat (MOCB.I two_arms))) with 1.
    replace (2 * (1 * 2)) with 4 by lra.
    assert (F64.least_normal * exp 4 <= F64.least_normal * 256)
      by (apply Rmult_le_compat_l; lra).
    unfold two_arms_alpha. repeat (apply Forall_cons || apply Forall_nil); lra.
Defined.

(** ** Construction *)

Lemma Rpower_2_neg (i : nat) : Rpower 2 (- INR i) = / 2 ^ i.
Proof. rewrite Rpower_Ropp, Rpower_pow by lra. reflexivity. Qed.

(** The weights [w] are [1, 1/2, 1/4, ...]. *)
Lemma np_power_linspace (D : Z) :
  (0 <= D)%Z ->
  exists e, np_linspace 0 (IZR (- D + 1)) D = Some e /\
            np_power 2 e = map (fun d => / 2 ^ d) (seq 0 (Z.to_nat D)).
Proof.
  intros HD. unfold np_linspace. destruct (Z.ltb_spec D 0); [lia|].
  eexists. split; [reflexivity|]. unfold np_power. rewrite map_map.
  apply map_ext_in. intros i Hi. apply in_seq in Hi.
  destruct (Z.eqb_spec D 1) as [->|Hne].
  - assert (i = O) as -> by (simpl in Hi; lia).
    rewrite Rpower_O by lra. simpl. lra.
  - rewrite <- Rpower_2_neg. f_equal.
    rewrite plus_IZR, opp_IZR. field.
    intros Heq. apply Hne. apply eq_IZR. simpl. lra.
Qed.

(** C9 (as amended): [__init__] validates nothing.  It stores [K], [D], [M],
    [T], [lam], [eta], [I] as given, positive or not, and derives
    [w = [1, 1/2, ..., 2^-(D-1)]]; it fails only for a negative [D], on which
    [np.linspace] raises. *)
Theorem init_stores_unvalidated (K D M T : Z) (lam eta : R) (I : Z) :
  MOCB.init K D M T lam eta I
  = if (D <? 0)%Z then None
    else Some (MOCB.mk K D M T lam eta I
                 (map (fun d => / 2 ^ d) (seq 0 (Z.to_nat D)))).
Proof.
  unfold MOCB.init. destruct (Z.ltb_spec D 0) as [Hneg|Hpos].
  - unfold np_linspace. destruct (Z.ltb_spec D 0); [reflexivity | lia].
  - destruct (np_power_linspace D Hpos) as (e & E1 & E2).
    rewrite E1. cbn [bind]. now rewrite E2.
Qed.

(** C9, counterexample: with every one of [K], [D], [M], [T], [lam], [I]
    non-positive the constructor returns a configuration. *)
Lemma init_accepts_nonpositive :
  MOCB.init 0 0 0 0 (-1) 1 0 = Some (MOCB.mk 0 0 0 0 (-1) 1 0 []).
Proof. reflexivity. Qed.

(** ** The small instance *)

(** C5, witness: the small instance. *)
Lemma GGI_value_witness :
  exists x,
    length x = ncols two_arms_Theta /\
    (forall d, (d < ncols two_arms_Theta)%nat ->
               nth d x 0 = aggregate_spec two_arms_alpha two_arms_Theta two_arms_X d) /\
    forall s, Permutation s x -> Sorted Rle s ->
              MOCB.GGI two_arms two_arms_alpha two_arms_Theta two_arms_X
              = Some (vdot s (MOCB.w two_arms)).
Proof.
  apply (GGI_value two_arms two_arms_alpha two_arms_Theta two_arms_X).
  unfold well_shaped, wf_mat, nrows. simpl. repeat split; repeat constructor.
Defined.

(** C6, witness: the small instance. *)
Lemma grad_value_witness :
  exists x order g,
    length x = ncols two_arms_Theta /\
    (forall d, (d < ncols two_arms_Theta)%nat ->
               nth d x 0 = aggregate_spec two_arms_alpha two_arms_Theta two_arms_X d) /\
    Permutation order (seq 0 (ncols two_arms_Theta)) /\
    Sorted Rle (map (fun j => nth j x 0) order) /\
    MOCB.GGI two_arms two_arms_alpha two_arms_Theta two_arms_X
    = Some (vdot (map (fun j => nth j x 0) order) (MOCB.w two_arms)) /\
    MOCB.grad two_arms two_arms_alpha two_arms_Theta two_arms_X = Some g /\
    length g = length two_arms_alpha /\
    forall k, (k < length two_arms_alpha)%nat ->
      nth k g 0 = vdot (MOCB.w two_arms)
                       (map (fun j => per_objective two_arms_Theta two_arms_X k j) order).
Proof.
  apply (grad_value two_arms two_arms_alpha two_arms_Theta two_arms_X).
  unfold well_shaped, wf_mat, nrows. simpl. repeat split; repeat constructor.
Defined.

(** ** Finite sums *)

Lemma sum_n_plus (n : nat) (f g : nat -> R) :
  sum_n n (fun k => f k + g k) = sum_n n f + sum_n n g.
Proof. induction n as [|n IH]; simpl; [lra | rewrite IH; lra]. Qed.

Lemma sum_n_scal (n : nat) (c : R) (f : nat -> R) :
  sum_n n (fun k => c * f k) = c * sum_n n f.
Proof. induction n as [|n IH]; simpl; [lra | rewrite IH; lra]. Qed.

Lemma sum_n_const (n : nat) (c : R) : sum_n n (fun _ => c) = INR n * c.
Proof.
  induction n as [|n IH]; [simpl; lra|].
  rewrite S_INR. simpl. rewrite IH. lra.
Qed.

Lemma delta_sym (i j : nat) : delta i j = delta j i.
Proof. unfold delta. now rewrite Nat.eqb_sym. Qed.

Lemma sum_n_delta (n i : nat) (g : nat -> R) :
  (i < n)%nat -> sum_n n (fun k => delta i k * g k) = g i.
Proof.
  induction n as [|n IH]; intros Hi; [lia|]. simpl. unfold delta at 2.
  destruct (Nat.eqb_spec i n) as [->|Hne].
  - rewrite (sum_n_ext n _ (fun _ => 0)).
    + rewrite sum_n_const. lra.
    + intros k Hk. unfold delta. destruct (Nat.eqb_spec n k); [lia | lra].
  - rewrite IH by lia. lra.
Qed.

Lemma vdot_map_seq (f g : nat -> R) (n : nat) :
  vdot (map f (seq 0 n)) (map g (seq 0 n)) = sum_n n (fun k => f k * g k).
Proof.
  rewrite vdot_sum_n by (now rewrite !length_map).
  rewrite length_map, length_seq. apply sum_n_ext. intros k Hk.
  now rewrite !nth_map_seq.
Qed.

(** ** The matrices [lam * identity(n) + c] *)

Lemma nrows_ridge (n : nat) (l c : R) : nrows (ridge n l c) = n.
Proof. unfold nrows, ridge. simpl. now rewrite length_map, length_seq. Qed.

Lemma wf_ridge (n : nat) (l c : R) : wf_mat (ridge n l c).
Proof.
  unfold wf_mat, ridge. simpl. apply Forall_forall. intros r Hr.
  apply in_map_iff in Hr as (i & <- & _). now rewrite length_map, length_seq.
Qed.

Lemma ridge_identity (n : nat) : identity n = ridge n 1 0.
Proof.
  unfold identity, ridge. f_equal. apply map_ext. intros i. apply map_ext. intros j.
  unfold delta. destruct (Nat.eqb i j); lra.
Qed.

Lemma ridge_init (n : nat) (lam : R) : mscale lam (identity n) = ridge n lam 0.
Proof.
  unfold mscale, identity, ridge, vscale. simpl. f_equal. rewrite map_map.
  apply map_ext. intros i. rewrite map_map. apply map_ext. intros j.
  unfold delta. destruct (Nat.eqb i j); lra.
Qed.

Lemma ridge_add_scalar (n : nat) (lam c s : R) :
  madd_scalar (ridge n lam c) s = ridge n lam (c + s).
Proof.
  unfold madd_scalar, ridge. simpl. f_equal. rewrite map_map.
  apply map_ext. intros i. rewrite map_map. apply map_ext. intros j. lra.
Qed.

Lemma col_ridge (n : nat) (l c : R) (j : nat) :
  (j < n)%nat -> col j (ridge n l c) = map (fun i => l * delta i j + c) (seq 0 n).
Proof.
  intros Hj. unfold col, ridge. simpl. rewrite map_map. apply map_ext. intros i.
  now rewrite nth_map_seq.
Qed.

Lemma ridge_mul (n : nat) (l1 c1 l2 c2 : R) :
  mat_mul (ridge n l1 c1) (ridge n l2 c2)
  = ridge n (l1 * l2) (l1 * c2 + c1 * l2 + INR n * c1 * c2).
Proof.
  unfold mat_mul. unfold ridge at 1 3 4. simpl. f_equal.
  rewrite map_map. apply map_ext_in. intros i Hi. apply in_seq in Hi.
  unfold vecmat. simpl ncols. apply map_ext_in. intros j Hj. apply in_seq in Hj.
  rewrite col_ridge by lia. rewrite vdot_map_seq.
  rewrite (sum_n_ext n _ (fun k => l1 * l2 * (delta i k * delta k j)
                                   + (delta i k * (l1 * c2)
                                      + (delta j k * (c1 * l2) + c1 * c2)))).
  - rewrite !sum_n_plus, sum_n_scal, !sum_n_delta, sum_n_const by lia. lra.
  - intros k _. rewrite (delta_sym k j). lra.
Qed.

Lemma ridge_inverse (n : nat) (lam c : R) :
  0 < lam -> 0 <= c ->
  is_inverse (ridge n lam c) (ridge n (/ lam) (- c / (lam * (lam + INR n * c)))).
Proof.
  intros Hlam Hc.
  assert (Hn : 0 <= INR n) by apply pos_INR.
  assert (Hden : 0 < lam + INR n * c) by nra.
  unfold is_inverse. rewrite !nrows_ridge. repeat split; try reflexivity.
  - apply wf_ridge.
  - rewrite ridge_mul, ridge_identity. f_equal; field; lra.
  - rewrite ridge_mul, ridge_identity. f_equal; field; lra.
Qed.

(** [np.linalg.inv] returns an inverse of every matrix that has one. *)
Lemma linalg_inv_spec (A Ai : mat) :
  is_inverse A Ai -> exists Ai', linalg_inv A = Some Ai' /\ is_inverse A Ai'.
Proof.
  intros H. unfold linalg_inv.
  destruct (excluded_middle_informative (exists Ai0, is_inverse A Ai0)) as [Hex|Hno].
  - eexists. split; [reflexivity|].
    exact (proj2_sig (constructive_indefinite_description _ Hex)).
  - exfalso. apply Hno. now exists Ai.
Qed.

Lemma entry_ridge (n : nat) (l c : R) (i j : nat) :
  entry (ridge n l c) i j
  = if ((i <? n)%nat && (j <? n)%nat)%bool then l * delta i j + c else 0.
Proof.
  unfold entry, ridge, vec. cbn [rows].
  destruct (Nat.ltb_spec i n) as [Hi|Hi]; cbn [andb].
  - rewrite (nth_map_seq (fun i0 => map (fun j0 => l * delta i0 j0 + c) (seq 0 n))
               n i [] Hi).
    destruct (Nat.ltb_spec j n) as [Hj|Hj].
    + now rewrite nth_map_seq.
    + apply nth_overflow. now rewrite length_map, length_seq.
  - rewrite (nth_overflow _ (@nil R)) by (now rewrite length_map, length_seq).
    now destruct j.
Qed.

(** ** The pieces of a round *)

Lemma np_argmax_in_range (v : vec) :
  v <> [] -> exists k, np_argmax v = Some k /\ (k < length v)%nat.
Proof.
  destruct v as [|a l]; [congruence|]. intros _. simpl.
  eexists. split; [reflexivity|].
  enough (H : forall l best bv i, (best < i)%nat ->
                (argmax_from best bv i l < i + length l)%nat)
    by (specialize (H l O a 1%nat); lia).
  clear. induction l as [|b l IH]; intros best bv i Hb; simpl; [lia|].
  destruct (Rlt_dec bv b).
  - specialize (IH i b (S i)). lia.
  - specialize (IH best bv (S i)). lia.
Qed.

Lemma draw_features_ok (self : MOCB.t) (e : MOCB.env) (rnd : nat) :
  (MOCB.M self <> 0)%Z ->
  MOCB.draw_features self e rnd
  = Some (map (MOCB.features self e rnd) (seq 0 (Z.to_nat (MOCB.K self)))).
Proof.
  intros HM. unfold MOCB.draw_features, range.
  destruct (for_each_invariant
              (fun n X => X = map (MOCB.features self e rnd) (seq 0 n))
              (fun k X => Xk <- MOCB.draw_X self e rnd k ;; Some (X ++ [Xk]))
              (Z.to_nat (MOCB.K self)) []) as (X & E & ->).
  - reflexivity.
  - intros k X _ ->. unfold MOCB.draw_X.
    destruct (Z.eqb_spec (MOCB.M self) 0); [contradiction|]. cbn [bind].
    eexists. split; [reflexivity|]. now rewrite seq_S, map_app.
  - exact E.
Qed.

Lemma length_features (self : MOCB.t) (e : MOCB.env) (rnd k : nat) :
  length (MOCB.features self e rnd k) = Z.to_nat (MOCB.M self).
Proof. unfold MOCB.features. now rewrite length_map, length_seq. Qed.

Lemma draw_noise_ok (e : MOCB.env) (rnd : nat) (mu : vec) (ds : list nat) :
  Forall (fun d => (d < length mu)%nat) ds ->
  exists noise, MOCB.draw_noise e rnd mu ds = Some noise /\ length noise = length ds.
Proof.
  induction 1 as [|d ds Hd _ (noise & E & Hl)]; simpl.
  - exists []. auto.
  - rewrite (nth_error_nth' mu 0 Hd), E. cbn [bind].
    eexists. split; [reflexivity|]. simpl. now rewrite Hl.
Qed.

Lemma length_vecmat (x : vec) (A : mat) : length (vecmat x A) = ncols A.
Proof. unfold vecmat. now rewrite length_map, length_seq. Qed.

Lemma wf_mat_mul (A B : mat) : wf_mat (mat_mul A B).
Proof.
  unfold wf_mat, mat_mul. simpl. apply Forall_forall. intros r Hr.
  apply in_map_iff in Hr as (ra & <- & _). apply length_vecmat.
Qed.

(** Line 105 adds the outer product of [X[k]] and [r] to [B]. *)
Lemma update_B_outer (self : MOCB.t) (B : mat) (Xk r : vec) :
  Z.of_nat (length Xk) = MOCB.M self -> Z.of_nat (length r) = MOCB.D self ->
  MOCB.update_B self B Xk r = Some (madd B (outer Xk r)).
Proof.
  intros HM HD. unfold MOCB.update_B, reshape_col, reshape_row.
  rewrite <- HM, <- HD, !Z.eqb_refl. cbn [bind]. do 2 f_equal.
  unfold mat_mul, outer. simpl. f_equal. rewrite map_map.
  apply map_ext. intros a. unfold vecmat, col. simpl.
  rewrite <- (map_nth_seq r) at 2. rewrite map_map.
  apply map_ext. intros j. lra.
Qed.

(** Line 104 adds the scalar [X[k] . X[k]] to every entry of [A]. *)
Lemma update_A_ridge (n : nat) (lam c : R) (Xk : vec) :
  MOCB.update_A (ridge n lam c) Xk = ridge n lam (c + vdot Xk Xk).
Proof. unfold MOCB.update_A. apply ridge_add_scalar. Qed.

Lemma vdot_self_nonneg (v : vec) : 0 <= vdot v v.
Proof. induction v as [|b v IH]; simpl; [lra | nra]. Qed.

(** Line 107 in round 0: every entry of [r_ave / 0] is [inf] or [nan]. *)
Lemma running_metric_round0 (self : MOCB.t) (r_ave : vec) :
  r_ave <> [] -> MOCB.running_metric self r_ave 0 = NonFinite.
Proof. destruct r_ave as [|a l]; [congruence | reflexivity]. Qed.

(** Line 107 in a later round. *)
Lemma all_finite_map (f : R -> R) (v : vec) :
  all_finite (map (fun x => Finite (f x)) v) = Some (map f v).
Proof. induction v as [|a v IH]; simpl; [reflexivity | now rewrite IH]. Qed.

Lemma running_metric_later (self : MOCB.t) (r_ave : vec) (rnd : nat) :
  (1 <= rnd)%nat ->
  MOCB.running_metric self r_ave rnd
  = Finite (vdot (np_sort (map (fun x => x / INR rnd) r_ave)) (MOCB.w self)).
Proof.
  intros Hr. unfold MOCB.running_metric, sort_dot, np_true_divide.
  destruct rnd as [|m]; [lia|]. cbn [Nat.eqb]. now rewrite all_finite_map.
Qed.

(** ** The state before the first round *)

Lemma init_state_A (self : MOCB.t) (st : MOCB.state) :
  MOCB.init_state self = Some st ->
  MOCB.A st = ridge (Z.to_nat (MOCB.M self)) (MOCB.lam self) 0.
Proof.
  unfold MOCB.init_state, np_identity.
  destruct (MOCB.M self <? 0)%Z; [discriminate|]. cbn [bind].
  destruct (np_zeros2 _ _); [|discriminate]. cbn [bind].
  destruct (if (MOCB.K self =? 0)%Z then None else np_ones (MOCB.K self));
    [|discriminate]. cbn [bind].
  destruct (np_zeros _); [|discriminate]. cbn [bind].
  intros [= <-]. simpl. apply ridge_init.
Qed.

Lemma np_sum_repeat (c : R) (n : nat) : np_sum (repeat c n) = INR n * c.
Proof.
  induction n as [|n IH]; [simpl; lra|].
  rewrite S_INR. simpl. rewrite IH. lra.
Qed.

Lemma np_sum_vscale (c : R) (v : vec) : np_sum (vscale c v) = c * np_sum v.
Proof. induction v as [|a v IH]; simpl; [lra | rewrite IH; lra]. Qed.

Lemma init_state_ok (self : MOCB.t) :
  runnable self -> exists st, MOCB.init_state self = Some st /\ loop_inv self 0 st.
Proof.
  intros (HK & HM & HD & Hlam).
  unfold MOCB.init_state, np_identity, np_zeros2, np_ones, np_zeros.
  destruct (Z.ltb_spec (MOCB.M self) 0); [lia|].
  destruct (Z.ltb_spec (MOCB.D self) 0); [lia|].
  destruct (Z.ltb_spec (MOCB.K self) 0); [lia|].
  destruct (Z.eqb_spec (MOCB.K self) 0); [lia|].
  cbn [bind orb]. eexists. split; [reflexivity|].
  unfold loop_inv. cbn [MOCB.A MOCB.B MOCB.alpha MOCB.r_ave MOCB.GGI_list ncols].
  split; [exists 0; split; [lra | apply ridge_init]|].
  split; [reflexivity|].
  assert (HKn : INR (Z.to_nat (MOCB.K self)) = IZR (MOCB.K self)).
  { rewrite INR_IZR_INZ, Z2Nat.id by lia. reflexivity. }
  assert (HKpos : 0 < IZR (MOCB.K self)) by (now apply (IZR_lt 0)).
  split; [unfold vscale; now rewrite length_map, repeat_length|].
  split.
  { split.
    - unfold nonneg, vscale. apply Forall_forall. intros x Hx.
      apply in_map_iff in Hx as (y & <- & Hy). apply repeat_spec in Hy. subst.
      rewrite Rmult_1_r. left. unfold Rdiv. rewrite Rmult_1_l.
      now apply Rinv_0_lt_compat.
    - rewrite np_sum_vscale, np_sum_repeat, HKn. field. lra. }
  split; [apply repeat_length|]. split; [apply repeat_length|].
  split; intros; lia.
Qed.

Lemma draw_Theta_ok (self : MOCB.t) (e : MOCB.env) :
  runnable self ->
  exists Theta, MOCB.draw_Theta self e = Some Theta /\
                ncols Theta = Z.to_nat (MOCB.D self).
Proof.
  intros (HK & HM & HD & Hlam). unfold MOCB.draw_Theta.
  destruct (Z.ltb_spec (MOCB.M self) 0); [lia|].
  destruct (Z.ltb_spec (MOCB.D self) 0); [lia|].
  cbn [orb]. eexists. split; reflexivity.
Qed.

(** ** One round *)

(** On a runnable configuration a round within [range(T)] does not raise and
    keeps the invariant; it adds [X[k] . X[k]] to every entry of [A] for the
    feature vector of the arm [k] it plays, and stores the metric of line 107
    at its index. *)
Lemma round_ok (self : MOCB.t) (e : MOCB.env) (Theta : mat) (rnd : nat)
    (st : MOCB.state) :
  runnable self -> ncols Theta = Z.to_nat (MOCB.D self) ->
  (rnd < Z.to_nat (MOCB.T self))%nat -> loop_inv self rnd st ->
  exists st' k,
    MOCB.round self e Theta rnd st = Some st' /\
    (k < Z.to_nat (MOCB.K self))%nat /\
    MOCB.A st' = MOCB.update_A (MOCB.A st) (MOCB.features self e rnd k) /\
    nth rnd (MOCB.GGI_list st') (Finite 0)
    = MOCB.running_metric self (MOCB.r_ave st') rnd /\
    loop_inv self (S rnd) st'.
Proof.
  intros (HK & HM & HD & Hlam) HTh Hrnd
         ((c & Hc & HA) & HB & Hal & Hsimp & Hr & HG & HG0 & HGt).
  unfold MOCB.round.
  (* Theta_hat *)
  destruct (linalg_inv_spec _ _ (ridge_inverse (Z.to_nat (MOCB.M self)) _ c Hlam Hc))
    as (Ainv & EAinv & Hinv).
  rewrite HA, EAinv. cbn [bind].
  (* the features of the round *)
  rewrite draw_features_ok by lia. cbn [bind].
  set (X := map (MOCB.features self e rnd) (seq 0 (Z.to_nat (MOCB.K self)))).
  set (Theta_hat := mat_mul Ainv (MOCB.B st)).
  assert (Hws : well_shaped self (MOCB.alpha st) Theta_hat X).
  { unfold well_shaped. split; [rewrite Hal; lia|].
    split; [unfold X; rewrite length_map, length_seq; lia|].
    split; [unfold Theta_hat; simpl; rewrite HB; lia|].
    split; [apply wf_mat_mul|].
    apply Forall_forall. intros Xk HXk. unfold X in HXk.
    apply in_map_iff in HXk as (k & <- & _). rewrite length_features.
    unfold Theta_hat, nrows, mat_mul. simpl. rewrite length_map.
    destruct Hinv as (_ & _ & Hn & _). rewrite nrows_ridge in Hn.
    unfold nrows in Hn. now rewrite Hn. }
  (* the arm *)
  destruct (mirror_loop_simplex self (MOCB.alpha st) Theta_hat X Hws Hsimp
              (Z.to_nat (MOCB.I self))) as (alpha' & Emd & Hal' & Hsimp').
  unfold MOCB.mirror_descent.
  change (range (MOCB.I self)) with (seq 0 (Z.to_nat (MOCB.I self))).
  rewrite Emd. cbn [bind].
  destruct (np_argmax_in_range alpha') as (k & Ek & Hk).
  { intros ->. simpl in Hal'. lia. }
  rewrite Ek. cbn [bind].
  assert (Hk' : (k < Z.to_nat (MOCB.K self))%nat) by lia.
  assert (EXk : nth_error X k = Some (MOCB.features self e rnd k)).
  { unfold X. rewrite nth_error_map, nth_error_nth' with (d := O)
      by (rewrite length_seq; lia).
    rewrite seq_nth by lia. reflexivity. }
  rewrite EXk. cbn [bind].
  (* the reward *)
  set (Xk := MOCB.features self e rnd k).
  destruct (draw_noise_ok e rnd (vecmat Xk Theta) (range (MOCB.D self)))
    as (noise & En & Hnl).
  { apply Forall_forall. intros d Hd. unfold range in Hd. apply in_seq in Hd.
    rewrite length_vecmat. lia. }
  rewrite En. cbn [bind].
  assert (Hrl : length (vadd (vecmat Xk Theta) noise) = Z.to_nat (MOCB.D self)).
  { rewrite length_vadd; rewrite length_vecmat; [exact HTh|].
    rewrite Hnl. unfold range. now rewrite length_seq. }
  (* the updates *)
  rewrite update_B_outer
    by (rewrite ?Hrl; unfold Xk; rewrite ?length_features; lia).
  cbn [bind].
  destruct (list_set_in_range (MOCB.GGI_list st) rnd
              (MOCB.running_metric self
                 (vadd (MOCB.r_ave st) (vadd (vecmat Xk Theta) noise)) rnd)
              (Finite 0) ltac:(lia)) as (G' & EG & HGl & HGn & HGo).
  rewrite EG. cbn [bind].
  eexists _, k. split; [reflexivity|]. split; [exact Hk'|]. split; [reflexivity|].
  cbn [MOCB.A MOCB.B MOCB.alpha MOCB.r_ave MOCB.GGI_list].
  split; [exact HGn|].
  assert (Hr' : length (vadd (MOCB.r_ave st) (vadd (vecmat Xk Theta) noise))
                = Z.to_nat (MOCB.D self)).
  { rewrite length_vadd; congruence. }
  unfold loop_inv. cbn [MOCB.A MOCB.B MOCB.alpha MOCB.r_ave MOCB.GGI_list].
  split.
  { exists (c + vdot Xk Xk). split.
    - pose proof (vdot_self_nonneg Xk). lra.
    - apply update_A_ridge. }
  split; [simpl; exact HB|].
  split; [congruence|]. split; [exact Hsimp'|].
  split; [exact Hr'|]. split; [congruence|].
  split.
  - intros _ HD1. destruct rnd as [|m].
    + rewrite HGn. apply running_metric_round0.
      intros E0. rewrite E0 in Hr'. simpl in Hr'. lia.
    + rewrite HGo by lia. apply HG0; lia.
  - intros t Ht. destruct (Nat.eq_dec t rnd) as [->|Hne].
    + rewrite HGn, running_metric_later by lia. eauto.
    + rewrite HGo by exact Hne. apply HGt. lia.
Qed.

(** ** The run *)

(** On a runnable configuration no round of a run raises. *)
Lemma run_rounds_ok (self : MOCB.t) (e : MOCB.env) (n : nat) :
  runnable self -> (n <= Z.to_nat (MOCB.T self))%nat ->
  exists st, MOCB.run_rounds self e n = Some st /\ loop_inv self n st.
Proof.
  intros Hrun Hn. unfold MOCB.run_rounds.
  destruct (init_state_ok self Hrun) as (st0 & E0 & H0). rewrite E0. cbn [bind].
  destruct (draw_Theta_ok self e Hrun) as (Theta & ETh & HTh). rewrite ETh. cbn [bind].
  apply (for_each_invariant (loop_inv self)); [exact H0|].
  intros k s Hk Hs.
  destruct (round_ok self e Theta k s Hrun HTh ltac:(lia) Hs)
    as (s' & _ & E & _ & _ & _ & Hs').
  eauto.
Qed.

(** C2, the defect: on every runnable configuration with [D >= 1] and
    [T >= 1] the run completes, and the metric it stores for round 0 is
    [np.sort(r_ave / 0).dot(w)], which is [inf] or [nan]: round 0 is not
    skipped.  The metric of every later round is a real number. *)
Theorem round0_metric_divides_by_zero (self : MOCB.t) (e : MOCB.env) :
  runnable self -> (1 <= MOCB.D self)%Z -> (1 <= MOCB.T self)%Z ->
  exists st,
    MOCB.gaussian_test self e = Some st /\
    length (MOCB.GGI_list st) = Z.to_nat (MOCB.T self) /\
    nth 0 (MOCB.GGI_list st) (Finite 0) = NonFinite /\
    forall t, (1 <= t < Z.to_nat (MOCB.T self))%nat ->
              exists x, nth t (MOCB.GGI_list st) (Finite 0) = Finite x.
Proof.
  intros Hrun HD HT. unfold MOCB.gaussian_test.
  destruct (run_rounds_ok self e (Z.to_nat (MOCB.T self)) Hrun (Nat.le_refl _))
    as (st & E & _ & _ & _ & _ & _ & HG & HG0 & HGt).
  exists st. split; [exact E|]. split; [exact HG|].
  split; [apply HG0; lia | exact HGt].
Qed.

(** C2, witness: the run of [one_arm]. *)
Lemma round0_metric_divides_by_zero_witness :
  exists st,
    MOCB.gaussian_test one_arm one_arm_env = Some st /\
    length (MOCB.GGI_list st) = Z.to_nat (MOCB.T one_arm) /\
    nth 0 (MOCB.GGI_list st) (Finite 0) = NonFinite /\
    forall t, (1 <= t < Z.to_nat (MOCB.T one_arm))%nat ->
              exists x, nth t (MOCB.GGI_list st) (Finite 0) = Finite x.
Proof.
  apply (round0_metric_divides_by_zero one_arm one_arm_env).
  - unfold runnable. simpl. repeat split; try lia. lra.
  - simpl. lia.
  - simpl. lia.
Defined.

(** C1, the defect: in the run of one round of [one_arm], whose only arm has
    the feature vector [x = [1, 2]], line 104 turns [A = identity(2)] into
    [[6, 5], [5, 6]], which is [A + (x . x)] on every entry, whereas
    [lam * identity(2) + x . x^T] is [[2, 2], [2, 5]]. *)
Theorem update_A_adds_inner_product :
  exists st,
    MOCB.gaussian_test one_arm one_arm_env = Some st /\
    MOCB.features one_arm one_arm_env 0 0 = [1; 2] /\
    MOCB.A st = mkMat 2 [[6; 5]; [5; 6]] /\
    madd (mscale (MOCB.lam one_arm) (identity 2)) (outer [1; 2] [1; 2])
    = mkMat 2 [[2; 2]; [2; 5]].
Proof.
  assert (Hrun : runnable one_arm).
  { unfold runnable. simpl. repeat split; try lia. lra. }
  assert (Hx : MOCB.features one_arm one_arm_env 0 0 = [1; 2]).
  { unfold MOCB.features. change (Z.to_nat (MOCB.M one_arm)) with 2%nat.
    cbn. f_equal; [lra | f_equal; lra]. }
  unfold MOCB.gaussian_test, MOCB.run_rounds.
  destruct (init_state_ok one_arm Hrun) as (st0 & E0 & H0). rewrite E0. cbn [bind].
  destruct (draw_Theta_ok one_arm one_arm_env Hrun) as (Theta & ETh & HTh).
  rewrite ETh. cbn [bind].
  destruct (round_ok one_arm one_arm_env Theta 0 st0 Hrun HTh ltac:(simpl; lia) H0)
    as (st & k & E & Hk & HA & _ & _).
  assert (k = O) as -> by (simpl in Hk; lia).
  exists st. split.
  { change (Z.to_nat (MOCB.T one_arm)) with 1%nat. cbn [seq for_each].
    rewrite E. reflexivity. }
  split; [exact Hx|]. split.
  - rewrite HA, Hx, (init_state_A one_arm st0 E0).
    change (Z.to_nat (MOCB.M one_arm)) with 2%nat.
    unfold MOCB.update_A, madd_scalar, ridge, delta. cbn.
    f_equal. repeat (f_equal; try lra).
  - unfold madd, mscale, identity, outer, vscale. cbn.
    f_equal. repeat (f_equal; try lra).
Qed.

(** * Further properties *)

(** ** The projection: failure and bracket *)

Lemma bisect_loop_empty (f : R -> R) (tau lower upper : R) :
  Misc.bisect_loop f tau [] lower upper None = None.
Proof. reflexivity. Qed.

(** X1: [projection_simplex_bisection] raises exactly on an empty vector
    ([np.min] of an empty array) and on [max_iter <= 0] ([midpoint] unbound
    at the [return]); on every other input it returns a vector. *)
Theorem projection_raises_iff (v : vec) (z tau : R) (max_iter : Z) :
  Misc.projection_simplex_bisection v z tau max_iter = None
  <-> v = [] \/ (max_iter <= 0)%Z.
Proof.
  split.
  - intros Hnone. destruct v as [|a l]; [now left|]. right.
    destruct (Z_le_gt_dec max_iter 0) as [Hle|Hgt]; [exact Hle|]. exfalso.
    destruct (bisection_last_midpoint (a :: l) z tau max_iter) as (m & it & E & _);
      [discriminate | lia |].
    rewrite (projection_of_bisection _ _ _ _ _ _ E) in Hnone. discriminate.
  - intros [-> | Hle]; [reflexivity|].
    unfold Misc.projection_simplex_bisection, Misc.bisection, range.
    replace (Z.to_nat max_iter) with O by lia.
    destruct v as [|a l]; reflexivity.
Qed.

(** The midpoint never leaves the bracket the loop starts from. *)
Lemma bisect_loop_in_bracket (f : R -> R) (tau lo up : R) (rng : list nat) :
  forall lower upper last m it,
    lo <= lower -> lower <= upper -> upper <= up ->
    (forall m' it', last = Some (m', it') -> lo <= m' <= up) ->
    Misc.bisect_loop f tau rng lower upper last = Some (m, it) ->
    lo <= m <= up.
Proof.
  induction rng as [|i rng IH]; intros lower upper last m it Hlo Hlu Hup Hlast; simpl.
  - intros E. now apply (Hlast m it).
  - destruct (Rle_dec (Rabs (f ((upper + lower) / 2))) tau).
    + intros [= <- <-]. lra.
    + destruct (Rle_dec (f ((upper + lower) / 2)) 0); apply IH; try lra;
        intros m' it' [= <- <-]; lra.
Qed.

(** X2: on a non-empty [v], with [z >= 0] and [max_iter >= 1], the threshold
    the projection returns with lies in the initial bracket
    [[min v - z/n, max v]], so every returned entry [p_i] satisfies
    [0 <= p_i <= v_i - min v + z/n], whether or not the loop converged. *)
Theorem projection_threshold_in_bracket (v : vec) (z tau : R) (max_iter : Z) :
  v <> [] -> (1 <= max_iter)%Z -> 0 <= z ->
  exists m it mn mx,
    np_min v = Some mn /\ np_max v = Some mx /\
    Misc.bisection v z tau max_iter = Some (m, it) /\
    mn - z / INR (length v) <= m <= mx /\
    Misc.projection_simplex_bisection v z tau max_iter
    = Some (map (fun vi => Rmax (vi - m) 0) v) /\
    forall vi, In vi v -> 0 <= Rmax (vi - m) 0 <= vi - mn + z / INR (length v).
Proof.
  intros Hv Hn Hz.
  destruct (bisection_last_midpoint v z tau max_iter Hv Hn) as (m & it & E & _ & _).
  destruct (np_min v) as [mn|] eqn:Emn; [|destruct v; [congruence | discriminate]].
  destruct (np_max v) as [mx|] eqn:Emx; [|destruct v; [congruence | discriminate]].
  assert (Hlen : 0 < INR (length v)).
  { apply lt_0_INR. destruct v; [congruence | simpl; lia]. }
  assert (Hzn : 0 <= z / INR (length v)).
  { unfold Rdiv. apply Rmult_le_pos; [exact Hz|]. left. now apply Rinv_0_lt_compat. }
  assert (Hm : mn - z / INR (length v) <= m <= mx).
  { pose proof E as E'. unfold Misc.bisection in E'. rewrite Emn, Emx in E'.
    cbn [bind] in E'.
    pose proof (np_min_le_np_max v mn mx Emn Emx).
    apply (bisect_loop_in_bracket (Misc.func v z) tau (mn - z / INR (length v)) mx
             (range max_iter) (mn - z / INR (length v)) mx None m it);
      [lra | lra | lra | intros ? ? [=] | exact E']. }
  exists m, it, mn, mx. repeat split; try assumption; try apply Hm.
  - rewrite (projection_of_bisection _ _ _ _ _ _ E).
    unfold np_maximum, vsub_scalar. now rewrite map_map.
  - apply Rmax_r.
  - pose proof (np_min_le v mn Emn vi H). apply Rmax_lub; lra.
Qed.

(** X2, witness: [v = [1, 3]] with the defaults. *)
Lemma projection_threshold_in_bracket_witness :
  exists m it mn mx,
    np_min [1; 3] = Some mn /\ np_max [1; 3] = Some mx /\
    Misc.bisection [1; 3] 1 Misc.default_tau 1000 = Some (m, it) /\
    mn - 1 / INR (length [1; 3]) <= m <= mx /\
    Misc.projection_simplex_bisection [1; 3] 1 Misc.default_tau 1000
    = Some (map (fun vi => Rmax (vi - m) 0) [1; 3]) /\
    forall vi, In vi [1; 3] ->
               0 <= Rmax (vi - m) 0 <= vi - mn + 1 / INR (length [1; 3]).
Proof.
  apply (projection_threshold_in_bracket [1; 3] 1 Misc.default_tau 1000).
  - discriminate.
  - lia.
  - lra.
Defined.

(** ** The weights *)

Lemma sorted_inv_pow (s n : nat) : Sorted Rgt (map (fun d => / 2 ^ d) (seq s n)).
Proof.
  revert s. induction n as [|n IH]; intros s; simpl; [constructor|].
  constructor; [apply IH|].
  destruct n as [|n]; simpl; constructor.
  pose proof (pow2_pos s) as Hp.
  apply Rlt_gt. apply Rinv_lt_contravar; [|lra].
  apply Rmult_lt_0_compat; [exact Hp | lra].
Qed.

(** Down to [2^-1074] the powers of two are [float64] values. *)
Lemma inv_pow_in_range (d : nat) :
  (d < 1075)%nat -> F64.rnd (/ 2 ^ d) = F64.Fin (/ 2 ^ d).
Proof.
  intros Hd. apply rnd_id.
  pose proof (pow2_pos d) as Hp. pose proof (pow2_ge_1 d) as H1.
  assert (Hi : 0 < / 2 ^ d) by now apply Rinv_0_lt_compat.
  rewrite Rabs_right by lra. split.
  - unfold F64.tiny. apply Rinv_lt_contravar.
    + apply Rmult_lt_0_compat; [exact Hp | apply pow2_pos].
    + apply Rlt_pow; [lra | exact Hd].
  - assert (/ 2 ^ d <= 1).
    { rewrite <- Rinv_1. apply Rinv_le_contravar; lra. }
    pose proof huge_big. lra.
Qed.

(** X3: for [0 <= D <= 1075] the constructor derives [D] weights
    [w[d] = 2^-d]: none of them underflows, all are positive and they
    strictly decrease. *)
Theorem init_weights (K D M T : Z) (lam eta : R) (I : Z) :
  (0 <= D <= 1075)%Z ->
  exists self,
    MOCB.init K D M T lam eta I = Some self /\
    length (MOCB.w self) = Z.to_nat D /\
    (forall d, (d < Z.to_nat D)%nat -> nth d (MOCB.w self) 0 = / 2 ^ d) /\
    map F64.rnd (MOCB.w self) = map F64.Fin (MOCB.w self) /\
    positive (MOCB.w self) /\
    Sorted Rgt (MOCB.w self).
Proof.
  intros [HD HD']. unfold MOCB.init.
  destruct (np_power_linspace D HD) as (e & E1 & E2). rewrite E1. cbn [bind].
  eexists. split; [reflexivity|]. cbn [MOCB.w]. rewrite E2.
  split; [now rewrite length_map, length_seq|].
  split; [intros d Hd; now rewrite nth_map_seq|].
  split.
  { rewrite !map_map. apply map_ext_in. intros d Hd. apply in_seq in Hd.
    apply inv_pow_in_range. lia. }
  split; [|apply sorted_inv_pow].
  apply Forall_forall. intros x Hx. apply in_map_iff in Hx as (d & <- & _).
  apply Rinv_0_lt_compat, pow2_pos.
Qed.

(** X3, witness: five objectives, as in the script's [MOCB(50, 5, 10, ...)]. *)
Lemma init_weights_witness :
  exists self,
    MOCB.init 50 5 10 10000 (/ 10) 1 10 = Some self /\
    length (MOCB.w self) = Z.to_nat 5 /\
    (forall d, (d < Z.to_nat 5)%nat -> nth d (MOCB.w self) 0 = / 2 ^ d) /\
    map F64.rnd (MOCB.w self) = map F64.Fin (MOCB.w self) /\
    positive (MOCB.w self) /\
    Sorted Rgt (MOCB.w self).
Proof.
  apply (init_weights 50 5 10 10000 (/ 10) 1 10). lia.
Defined.

(** ** The value against other orderings, and against the gradient *)

Lemma length_insert (a : R) (l : vec) : length (insert a l) = S (length l).
Proof.
  induction l as [|b l IH]; simpl; [reflexivity|].
  destruct (Rle_dec a b); simpl; [reflexivity | now rewrite IH].
Qed.

Lemma length_np_sort (x : vec) : length (np_sort x) = length x.
Proof. apply Permutation_length, np_sort_perm. Qed.

(** Moving a larger entry towards the smaller weights does not raise the
    weighted sum. *)
Lemma insert_vdot_le (a : R) (s w : vec) :
  Sorted Rge w -> length w = S (length s) ->
  vdot (insert a s) w <= vdot (a :: s) w.
Proof.
  revert a w. induction s as [|b s IH]; intros a w Hw Hl; simpl insert.
  - lra.
  - destruct (Rle_dec a b) as [Hab|Hab]; [lra|].
    destruct w as [|w0 [|w1 w']]; try discriminate.
    inversion Hw as [|? ? Hw' Hhd]; subst. inversion Hhd; subst.
    specialize (IH a (w1 :: w') Hw' ltac:(simpl in Hl |- *; lia)).
    change (vdot (b :: insert a s) (w0 :: w1 :: w'))
      with (b * w0 + vdot (insert a s) (w1 :: w')).
    simpl in IH |- *. nra.
Qed.

Lemma np_sort_vdot_le (x w : vec) :
  Sorted Rge w -> length w = length x -> vdot (np_sort x) w <= vdot x w.
Proof.
  revert w. induction x as [|a x IH]; intros w Hw Hl; simpl np_sort.
  - simpl. lra.
  - destruct w as [|w0 w']; [discriminate|].
    inversion Hw as [|? ? Hw' _]; subst.
    pose proof (insert_vdot_le a (np_sort x) (w0 :: w') Hw
                  ltac:(rewrite length_np_sort; exact Hl)) as H1.
    specialize (IH w' Hw' ltac:(simpl in Hl; lia)).
    simpl in H1 |- *. lra.
Qed.

(** X4: when the weights do not increase and there are as many of them as
    objectives, the value [GGI] returns is the least [w]-weighted sum over all
    orderings of the aggregate vector: the smallest objectives get the
    largest weights. *)
Theorem GGI_least_over_orderings (self : MOCB.t) (alpha : vec) (Theta : mat)
    (X : list vec) :
  well_shaped self alpha Theta X ->
  Sorted Rge (MOCB.w self) -> length (MOCB.w self) = ncols Theta ->
  exists x g,
    MOCB.aggregate self alpha Theta X = Some x /\
    MOCB.GGI self alpha Theta X = Some g /\
    forall x', Permutation x' x -> g <= vdot x' (MOCB.w self).
Proof.
  intros Hws Hw Hl.
  destruct (aggregate_ok self alpha Theta X Hws) as (x & E & Hlen & _).
  exists x, (vdot (np_sort x) (MOCB.w self)).
  split; [exact E|]. split; [unfold MOCB.GGI; now rewrite E|].
  intros x' Hp.
  rewrite <- (np_sort_unique x (np_sort x')).
  - apply np_sort_vdot_le; [exact Hw|].
    rewrite (Permutation_length Hp). congruence.
  - rewrite np_sort_perm. exact Hp.
  - apply np_sort_sorted.
Qed.

(** X4, witness: the small instance, whose weights are [[1, 1/2]]. *)
Lemma GGI_least_over_orderings_witness :
  exists x g,
    MOCB.aggregate two_arms two_arms_alpha two_arms_Theta two_arms_X = Some x /\
    MOCB.GGI two_arms two_arms_alpha two_arms_Theta two_arms_X = Some g /\
    forall x', Permutation x' x -> g <= vdot x' (MOCB.w two_arms).
Proof.
  apply (GGI_least_over_orderings two_arms two_arms_alpha two_arms_Theta two_arms_X).
  - unfold well_shaped, wf_mat, nrows. simpl. repeat split; repeat constructor.
  - simpl. repeat constructor. lra.
  - reflexivity.
Defined.

Lemma vdot_comm (u v : vec) : vdot u v = vdot v u.
Proof.
  revert v. induction u as [|a u IH]; intros [|b v]; simpl; try reflexivity.
  rewrite IH. lra.
Qed.

Lemma vdot_map_plus_scal {A : Type} (f g : A -> R) (c : R) (l : list A) (w : vec) :
  vdot (map (fun d => f d + c * g d) l) w
  = vdot (map f l) w + c * vdot (map g l) w.
Proof.
  revert w. induction l as [|d l IH]; intros [|w0 w]; simpl; try lra.
  rewrite IH. lra.
Qed.

Lemma vdot_map_zero {A : Type} (l : list A) (w : vec) :
  vdot (map (fun _ => 0) l) w = 0.
Proof.
  revert w. induction l as [|d l IH]; intros [|w0 w]; simpl; try lra.
  rewrite IH. lra.
Qed.

Lemma vdot_map_sum_n {A : Type} (n : nat) (a : nat -> R) (p : nat -> A -> R)
    (l : list A) (w : vec) :
  vdot (map (fun d => sum_n n (fun k => a k * p k d)) l) w
  = sum_n n (fun k => a k * vdot w (map (p k) l)).
Proof.
  induction n as [|n IH]; simpl.
  - apply vdot_map_zero.
  - rewrite vdot_map_plus_scal, IH, (vdot_comm w). reflexivity.
Qed.

(** X5: on the documented shapes the value is the dot product of [alpha]
    with the gradient: [GGI(alpha) = alpha . grad(alpha)]. *)
Theorem GGI_is_alpha_dot_grad (self : MOCB.t) (alpha : vec) (Theta_hat : mat)
    (X : list vec) :
  well_shaped self alpha Theta_hat X -> weights_shaped self ->
  exists v g,
    MOCB.GGI self alpha Theta_hat X = Some v /\
    MOCB.grad self alpha Theta_hat X = Some g /\
    v = vdot alpha g.
Proof.
  intros Hws _.
  destruct (aggregate_ok self alpha Theta_hat X Hws) as (x & E & Hlen & Hx).
  destruct (grad_ok self alpha Theta_hat X Hws) as (x' & g & E' & Eg & Hgl & Hg).
  rewrite E in E'. injection E' as <-.
  exists (vdot (np_sort x) (MOCB.w self)), g.
  split; [unfold MOCB.GGI; now rewrite E|]. split; [exact Eg|].
  rewrite <- np_argsort_sort.
  rewrite (map_ext_in _ (fun d => aggregate_spec alpha Theta_hat X d)).
  - unfold aggregate_spec. rewrite vdot_map_sum_n.
    rewrite vdot_sum_n by (symmetry; exact Hgl).
    apply sum_n_ext. intros k Hk. now rewrite Hg.
  - intros d Hd. apply Hx.
    apply (Permutation_in _ (np_argsort_perm x)) in Hd. apply in_seq in Hd. lia.
Qed.

(** X5, witness: the small instance. *)
Lemma GGI_is_alpha_dot_grad_witness :
  exists v g,
    MOCB.GGI two_arms two_arms_alpha two_arms_Theta two_arms_X = Some v /\
    MOCB.grad two_arms two_arms_alpha two_arms_Theta two_arms_X = Some g /\
    v = vdot two_arms_alpha g.
Proof.
  apply (GGI_is_alpha_dot_grad two_arms two_arms_alpha two_arms_Theta two_arms_X).
  - unfold well_shaped, wf_mat, nrows. simpl. repeat split; repeat constructor.
  - reflexivity.
Defined.

(** ** Projected gradient ascent *)

(** X6: on the documented shapes with at least one arm, [grad_descent] does
    not raise and returns a vector of the length of [alpha]; after at least
    one pass every entry of it is non-negative. *)
Theorem grad_descent_nonneg (self : MOCB.t) (alpha : vec) (Theta_hat : mat)
    (X : list vec) :
  well_shaped self alpha Theta_hat X -> weights_shaped self ->
  (0 < MOCB.K self)%Z ->
  exists alpha',
    MOCB.grad_descent self alpha Theta_hat X = Some alpha' /\
    length alpha' = length alpha /\
    ((1 <= MOCB.I self)%Z -> nonneg alpha').
Proof.
  intros Hws _ HK. unfold MOCB.grad_descent, range.
  destruct (for_each_invariant
              (fun n a => length a = length alpha /\ ((1 <= n)%nat -> nonneg a))
              (fun _ a =>
                 g <- MOCB.grad self a Theta_hat X ;;
                 Misc.projection_simplex_bisection (vadd a (vscale (MOCB.eta self) g))
                   Misc.default_z Misc.default_tau Misc.default_max_iter)
              (Z.to_nat (MOCB.I self)) alpha) as (a & E & Hl & Hnn).
  - split; [reflexivity | lia].
  - intros k a _ [Hl _].
    destruct (grad_ok self a Theta_hat X (well_shaped_length self alpha a _ _ Hl Hws))
      as (x & g & _ & Eg & Hgl & _).
    rewrite Eg. cbn [bind].
    set (v := vadd a (vscale (MOCB.eta self) g)).
    assert (Hv : length v = length a).
    { unfold v. apply length_vadd. unfold vscale. now rewrite length_map. }
    assert (Hne : v <> []).
    { intros E0. rewrite E0 in Hv. destruct Hws as (HKa & _).
      simpl in Hv. lia. }
    destruct (bisection_last_midpoint v Misc.default_z Misc.default_tau
                Misc.default_max_iter Hne ltac:(unfold Misc.default_max_iter; lia))
      as (m & it & Eb & _ & _).
    rewrite (projection_of_bisection _ _ _ _ _ _ Eb).
    eexists. split; [reflexivity|]. split.
    + rewrite clip_length. congruence.
    + intros _. apply clip_nonneg.
  - exists a. split; [exact E|]. split; [exact Hl|]. intros HI. apply Hnn. lia.
Qed.

(** X6, witness: the small instance. *)
Lemma grad_descent_nonneg_witness :
  exists alpha',
    MOCB.grad_descent two_arms two_arms_alpha two_arms_Theta two_arms_X = Some alpha' /\
    length alpha' = length two_arms_alpha /\
    ((1 <= MOCB.I two_arms)%Z -> nonneg alpha').
Proof.
  apply (grad_descent_nonneg two_arms two_arms_alpha two_arms_Theta two_arms_X).
  - unfold well_shaped, wf_mat, nrows. simpl. repeat split; repeat constructor.
  - reflexivity.
  - simpl. lia.
Defined.

(** X7: with no arm ([K = 0], [alpha] empty) and at least one pass, the two
    ascent schemes part ways: [grad_descent] raises, as the projection takes
    [np.min] of an empty array, while [mirror_descent] returns the empty
    vector. *)
Theorem no_arms_ascent (self : MOCB.t) (Theta_hat : mat) (X : list vec) :
  MOCB.K self = 0%Z -> (0 <= MOCB.D self)%Z -> (1 <= MOCB.I self)%Z ->
  MOCB.grad_descent self [] Theta_hat X = None /\
  MOCB.mirror_descent self [] Theta_hat X = Some [].
Proof.
  intros HK HD HI.
  assert (Eg : MOCB.grad self [] Theta_hat X = Some []).
  { unfold MOCB.grad, MOCB.aggregate, np_zeros. rewrite HK.
    destruct (Z.ltb_spec (MOCB.D self) 0); [lia|]. reflexivity. }
  split.
  - unfold MOCB.grad_descent, range.
    destruct (Z.to_nat (MOCB.I self)) as [|n] eqn:En; [lia|].
    cbn [seq for_each]. rewrite Eg. reflexivity.
  - unfold MOCB.mirror_descent, range.
    destruct (for_each_invariant (fun _ a => a = @nil R)
                (fun _ a => MOCB.mirror_step self Theta_hat X a)
                (Z.to_nat (MOCB.I self)) []) as (a & E & ->).
    + reflexivity.
    + intros k a _ ->. unfold MOCB.mirror_step. rewrite Eg. cbn [bind vmul np_divide].
      exists []. split; reflexivity.
    + exact E.
Qed.

(** X7, witness: a configuration without arms. *)
Lemma no_arms_ascent_witness :
  MOCB.grad_descent (MOCB.mk 0 1 1 1 1 1 1 [1]) [] (identity 1) [] = None /\
  MOCB.mirror_descent (MOCB.mk 0 1 1 1 1 1 1 [1]) [] (identity 1) [] = Some [].
Proof.
  apply (no_arms_ascent (MOCB.mk 0 1 1 1 1 1 1 [1]) (identity 1) []).
  - reflexivity.
  - simpl. lia.
  - simpl. lia.
Defined.

(** ** Multiplicative weights never revive an arm *)

Lemma Forall2_nth_zero (L : R) (a a' : vec) (k : nat) :
  Forall2 (entry_kept L) a a' -> nth k a 0 = 0 -> nth k a' 0 = 0.
Proof.
  intros H. revert k. induction H as [|x o a a' [Hz _] _ IH]; intros [|k] Hk; simpl in *;
    auto.
Qed.

(** X8: inside the range of [float64], [mirror_descent] never revives an arm:
    from a point of the simplex, of the documented shapes, an entry of
    [alpha] that is zero is zero in the returned vector. *)
Theorem mirror_descent_zero_stays_zero (self : MOCB.t) (alpha : vec)
    (Theta_hat : mat) (X : list vec) (L : R) (k : nat) :
  well_shaped self alpha Theta_hat X -> on_simplex alpha ->
  in_range self Theta_hat X L ->
  2 * exp L <= F64.huge -> 2 * INR (length alpha) * F64.tiny < exp (- L) ->
  nth k alpha 0 = 0 ->
  exists alpha' : vec,
    F64.mirror_descent self (map F64.Fin alpha) Theta_hat X = Some (map F64.Fin alpha') /\
    length alpha' = length alpha /\ nth k alpha' 0 = 0.
Proof.
  intros Hws Hs Hr HeL2 Htiny Hk.
  assert (HeL : exp L < F64.huge) by (pose proof (exp_pos L); lra).
  destruct (F64_mirror_loop self alpha Theta_hat X L Hws Hs Hr HeL Htiny
              (Z.to_nat (MOCB.I self))) as (a & E & Hl & _ & Hkept).
  exists a. split; [exact E|]. split; [exact Hl|].
  now apply (Forall2_nth_zero _ alpha a k Hkept).
Qed.

(** X8, witness: the small instance with all the weight on arm 0. *)
Lemma mirror_descent_zero_stays_zero_witness :
  exists alpha' : vec,
    F64.mirror_descent two_arms (map F64.Fin [1; 0]) two_arms_Theta two_arms_X
    = Some (map F64.Fin alpha') /\
    length alpha' = length [1; 0] /\ nth 1 alpha' 0 = 0.
Proof.
  apply (mirror_descent_zero_stays_zero two_arms [1; 0] two_arms_Theta two_arms_X 2 1).
  - unfold well_shaped, wf_mat, nrows. simpl. repeat split; repeat constructor.
  - unfold on_simplex, nonneg. split; [repeat constructor; lra | simpl; lra].
  - exact two_arms_in_range.
  - pose proof exp_small_bounds. pose proof huge_big. lra.
  - pose proof exp_small_bounds. pose proof tiny_small.
    change (INR (length [1; 0])) with (1 + 1). lra.
  - reflexivity.
Defined.

(** ** The cross-moment update *)

Lemma length_vadd_rows (ra rb : list vec) :
  length ra = length rb -> length (vadd_rows ra rb) = length ra.
Proof.
  revert rb. induction ra as [|a ra IH]; intros [|b rb] Hl; try discriminate;
    simpl; [reflexivity|]. f_equal. apply IH. simpl in Hl. lia.
Qed.

Lemma nth_vadd_rows (ra rb : list vec) (i : nat) :
  length ra = length rb ->
  nth i (vadd_rows ra rb) [] = vadd (nth i ra []) (nth i rb []).
Proof.
  revert rb i. induction ra as [|a ra IH]; intros [|b rb] i Hl; try discriminate.
  - now destruct i.
  - destruct i; simpl; [reflexivity | apply IH; simpl in Hl; lia].
Qed.

(** X9: on a [B] of [M] rows and [D] columns, with [X[k]] of length [M] and
    [r] of length [D], line 105 does not raise, keeps the shape of [B] and
    adds [X[k][i] * r[j]] to the entry [(i, j)]: the outer product. *)
Theorem update_B_entries (self : MOCB.t) (B : mat) (Xk r : vec) :
  Z.of_nat (length Xk) = MOCB.M self -> Z.of_nat (length r) = MOCB.D self ->
  wf_mat B -> nrows B = length Xk -> ncols B = length r ->
  exists B',
    MOCB.update_B self B Xk r = Some B' /\
    nrows B' = nrows B /\ ncols B' = ncols B /\ wf_mat B' /\
    forall i j, (i < nrows B)%nat -> (j < ncols B)%nat ->
                entry B' i j = entry B i j + nth i Xk 0 * nth j r 0.
Proof.
  intros HM HD Hwf Hr Hc. rewrite (update_B_outer self B Xk r HM HD).
  eexists. split; [reflexivity|].
  assert (Hrows : length (rows B) = length (rows (outer Xk r))).
  { unfold outer. simpl. rewrite length_map. exact Hr. }
  assert (Hrow : forall i, (i < nrows B)%nat ->
            length (nth i (rows B) []) = length r /\
            nth i (rows (outer Xk r)) [] = vscale (nth i Xk 0) r).
  { intros i Hi. split.
    - unfold wf_mat in Hwf. rewrite Forall_forall in Hwf.
      rewrite (Hwf (nth i (rows B) [])) by (apply nth_In; exact Hi). exact Hc.
    - unfold outer, vscale. simpl.
      rewrite nth_indep with (d' := (fun a => map (fun b => a * b) r) 0)
        by (rewrite length_map; rewrite <- Hr; exact Hi).
      now rewrite (map_nth (fun a => map (fun b => a * b) r) Xk 0 i). }
  unfold nrows, madd. cbn [rows ncols].
  split; [now apply length_vadd_rows|]. split; [reflexivity|]. split.
  - unfold wf_mat. cbn [rows ncols]. apply Forall_forall. intros row Hin.
    apply (In_nth _ _ []) in Hin as (i & Hi & <-).
    rewrite length_vadd_rows in Hi by exact Hrows.
    rewrite nth_vadd_rows by exact Hrows.
    destruct (Hrow i Hi) as [Hl ->].
    rewrite length_vadd; [congruence|]. unfold vscale. now rewrite length_map.
  - intros i j Hi Hj. unfold entry. cbn [rows].
    rewrite nth_vadd_rows by exact Hrows.
    destruct (Hrow i Hi) as [Hl ->].
    rewrite nth_vadd by (unfold vscale; now rewrite length_map).
    now rewrite nth_vscale.
Qed.

(** X9, witness: a 2 x 1 matrix of zeros. *)
Lemma update_B_entries_witness :
  exists B',
    MOCB.update_B one_arm (mkMat 1 [[0]; [0]]) [1; 2] [3] = Some B' /\
    nrows B' = 2%nat /\ ncols B' = 1%nat /\ wf_mat B' /\
    forall i j, (i < 2)%nat -> (j < 1)%nat ->
                entry B' i j
                = entry (mkMat 1 [[0]; [0]]) i j + nth i [1; 2] 0 * nth j [3] 0.
Proof.
  apply (update_B_entries one_arm (mkMat 1 [[0]; [0]]) [1; 2] [3]).
  - reflexivity.
  - reflexivity.
  - unfold wf_mat. simpl. repeat constructor.
  - reflexivity.
  - reflexivity.
Defined.

(** ** Runs that cannot start *)

Lemma init_state_some_inv (self : MOCB.t) (st : MOCB.state) :
  MOCB.init_state self = Some st ->
  (0 <= MOCB.M self)%Z /\ (0 <= MOCB.D self)%Z /\ (0 < MOCB.K self)%Z.
Proof.
  unfold MOCB.init_state, np_identity, np_zeros2, np_ones.
  destruct (Z.ltb_spec (MOCB.M self) 0); [discriminate|]. cbn [bind orb].
  destruct (Z.ltb_spec (MOCB.D self) 0); [discriminate|]. cbn [bind].
  destruct (Z.eqb_spec (MOCB.K self) 0); [discriminate|].
  destruct (Z.ltb_spec (MOCB.K self) 0); [discriminate|].
  intros _. lia.
Qed.

Lemma draw_features_some_inv (self : MOCB.t) (e : MOCB.env) (rnd : nat) (X : list vec) :
  (0 < MOCB.K self)%Z -> MOCB.draw_features self e rnd = Some X ->
  (MOCB.M self <> 0)%Z.
Proof.
  intros HK. unfold MOCB.draw_features, range.
  destruct (Z.to_nat (MOCB.K self)) as [|k] eqn:Ek; [lia|].
  cbn [seq for_each]. unfold MOCB.draw_X.
  destruct (Z.eqb_spec (MOCB.M self) 0); [discriminate | auto].
Qed.

Lemma round_some_features (self : MOCB.t) (e : MOCB.env) (Theta : mat) (rnd : nat)
    (st st' : MOCB.state) :
  MOCB.round self e Theta rnd st = Some st' ->
  exists X, MOCB.draw_features self e rnd = Some X.
Proof.
  unfold MOCB.round. intros H.
  destruct (linalg_inv (MOCB.A st)); [cbn [bind] in H | discriminate H].
  destruct (MOCB.draw_features self e rnd) as [X|]; [eauto | discriminate H].
Qed.

(** X11: with [T >= 1], [gaussian_test] raises whenever [K <= 0], [M <= 0] or
    [D < 0]: at [1 / self.K] or [np.ones], at [np.identity] or at
    [1 / self.M] in round 0, at [np.zeros]. *)
Theorem gaussian_test_raises (self : MOCB.t) (e : MOCB.env) :
  (1 <= MOCB.T self)%Z ->
  (MOCB.K self <= 0 \/ MOCB.M self <= 0 \/ MOCB.D self < 0)%Z ->
  MOCB.gaussian_test self e = None.
Proof.
  intros HT Hbad.
  destruct (MOCB.gaussian_test self e) as [st|] eqn:E; [exfalso | reflexivity].
  unfold MOCB.gaussian_test, MOCB.run_rounds in E.
  destruct (MOCB.init_state self) as [st0|] eqn:E0; [|discriminate].
  destruct (init_state_some_inv self st0 E0) as (HM & HD & HK).
  cbn [bind] in E.
  destruct (MOCB.draw_Theta self e) as [Theta|]; [|discriminate]. cbn [bind] in E.
  destruct (Z.to_nat (MOCB.T self)) as [|t] eqn:Et; [lia|].
  cbn [seq for_each] in E.
  destruct (MOCB.round self e Theta 0 st0) as [st1|] eqn:E1; [|discriminate].
  destruct (round_some_features _ _ _ _ _ _ E1) as (X & EX).
  pose proof (draw_features_some_inv self e 0 X HK EX). lia.
Qed.

(** X11, witness: a configuration without arms. *)
Lemma gaussian_test_raises_witness :
  MOCB.gaussian_test (MOCB.mk 0 1 2 1 1 1 1 [1]) one_arm_env = None.
Proof.
  apply (gaussian_test_raises (MOCB.mk 0 1 2 1 1 1 1 [1]) one_arm_env).
  - simpl. lia.
  - left. simpl. lia.
Defined.

(** ** The first round *)

Lemma vdot_zero_r (u v : vec) : (forall a, In a v -> a = 0) -> vdot u v = 0.
Proof.
  revert v. induction u as [|a u IH]; intros [|b v] Hv; simpl; try reflexivity.
  rewrite (Hv b) by now left. rewrite IH by (intros; apply Hv; now right). lra.
Qed.

Lemma vdot_zero_l (u v : vec) : (forall a, In a u -> a = 0) -> vdot u v = 0.
Proof. intros Hu. rewrite vdot_comm. now apply vdot_zero_r. Qed.

(** An entry of a matrix product is a row dotted with a column. *)
Lemma entry_mat_mul (A B : mat) (m d : nat) :
  (m < nrows A)%nat -> (d < ncols B)%nat ->
  entry (mat_mul A B) m d = vdot (nth m (rows A) []) (col d B).
Proof.
  intros Hm Hd. unfold entry, mat_mul, vec. cbn [rows].
  rewrite nth_indep with (d' := vecmat [] B) by (now rewrite length_map).
  rewrite (map_nth (fun r => vecmat r B)). unfold vecmat.
  now rewrite nth_map_seq.
Qed.

Lemma entry_out_of_range (A : mat) (m d : nat) :
  wf_mat A -> (nrows A <= m)%nat \/ (ncols A <= d)%nat -> entry A m d = 0.
Proof.
  intros Hwf Hout. unfold entry.
  destruct (Nat.lt_ge_cases m (nrows A)) as [Hm|Hm].
  - apply nth_overflow. unfold wf_mat in Hwf. rewrite Forall_forall in Hwf.
    rewrite (Hwf (nth m (rows A) [])) by (apply nth_In; exact Hm). lia.
  - rewrite (nth_overflow (rows A)) by exact Hm. now destruct d.
Qed.

(** With [B] zero the estimate [inv(A).dot(B)] is zero. *)
Lemma mat_mul_zeros (Ainv : mat) (Mn Dn : nat) (m d : nat) :
  entry (mat_mul Ainv {| ncols := Dn; rows := repeat (repeat 0 Dn) Mn |}) m d = 0.
Proof.
  set (B0 := {| ncols := Dn; rows := repeat (repeat 0 Dn) Mn |}).
  destruct (Nat.lt_ge_cases m (nrows (mat_mul Ainv B0))) as [Hm|Hm];
    [destruct (Nat.lt_ge_cases d (ncols (mat_mul Ainv B0))) as [Hd|Hd]|].
  - rewrite entry_mat_mul.
    + apply vdot_zero_r. intros a Ha. unfold col, B0 in Ha. cbn [rows] in Ha.
      apply in_map_iff in Ha as (r & <- & Hr). apply repeat_spec in Hr. subst r.
      apply nth_repeat_0.
    + unfold nrows, mat_mul in Hm. cbn [rows] in Hm. now rewrite length_map in Hm.
    + exact Hd.
  - apply entry_out_of_range; [apply wf_mat_mul | now right].
  - apply entry_out_of_range; [apply wf_mat_mul | now left].
Qed.

Lemma sum_n_zero (n : nat) (f : nat -> R) :
  (forall k, (k < n)%nat -> f k = 0) -> sum_n n f = 0.
Proof.
  intros H. rewrite (sum_n_ext n f (fun _ => 0)) by exact H.
  rewrite sum_n_const. lra.
Qed.

Lemma all_nth_zero (g : vec) :
  (forall k, (k < length g)%nat -> nth k g 0 = 0) -> g = repeat 0 (length g).
Proof.
  induction g as [|a g IH]; intros H; simpl; [reflexivity|].
  f_equal.
  - apply (H O). simpl. lia.
  - apply IH. intros k Hk. apply (H (S k)). simpl. lia.
Qed.

(** With a zero estimate the gradient is zero. *)
Lemma grad_zero_estimate (self : MOCB.t) (alpha : vec) (Theta_hat : mat)
    (X : list vec) :
  well_shaped self alpha Theta_hat X ->
  (forall m d, entry Theta_hat m d = 0) ->
  MOCB.grad self alpha Theta_hat X = Some (repeat 0 (length alpha)).
Proof.
  intros Hws Hz.
  destruct (grad_ok self alpha Theta_hat X Hws) as (x & g & _ & Eg & Hgl & Hg).
  rewrite Eg. f_equal. rewrite <- Hgl. apply all_nth_zero.
  intros k Hk. rewrite Hg by lia.
  rewrite (map_ext _ (fun _ => 0)).
  - rewrite vdot_comm. apply vdot_map_zero.
  - intros j. unfold per_objective. apply sum_n_zero. intros m _. rewrite Hz. lra.
Qed.

Lemma vmul_exp_zero (eta : R) (alpha : vec) :
  vmul alpha (map exp (vscale eta (repeat 0 (length alpha)))) = alpha.
Proof.
  induction alpha as [|a alpha IH]; simpl; [reflexivity|].
  rewrite IH, Rmult_0_r, exp_0. f_equal. lra.
Qed.

(** With a zero estimate the multiplicative-weights ascent leaves a point of
    the simplex where it is. *)
Lemma mirror_descent_zero_estimate (self : MOCB.t) (alpha : vec) (Theta_hat : mat)
    (X : list vec) :
  well_shaped self alpha Theta_hat X -> on_simplex alpha ->
  (forall m d, entry Theta_hat m d = 0) ->
  MOCB.mirror_descent self alpha Theta_hat X = Some alpha.
Proof.
  intros Hws [Hnn Hsum] Hz. unfold MOCB.mirror_descent, range.
  destruct (for_each_invariant (fun _ a => a = alpha)
              (fun _ a => MOCB.mirror_step self Theta_hat X a)
              (Z.to_nat (MOCB.I self)) alpha) as (a & E & ->).
  - reflexivity.
  - intros k a _ ->. exists alpha. split; [|reflexivity].
    unfold MOCB.mirror_step. rewrite (grad_zero_estimate self alpha Theta_hat X Hws Hz).
    cbn [bind]. rewrite vmul_exp_zero, Hsum, np_divide_pos by lra.
    f_equal. rewrite <- (map_id alpha) at 2. apply map_ext. intros x. field.
  - exact E.
Qed.

Lemma argmax_from_no_greater (l : vec) (best i : nat) (bv : R) :
  (forall b, In b l -> ~ bv < b) -> argmax_from best bv i l = best.
Proof.
  revert i. induction l as [|b l IH]; intros i H; simpl; [reflexivity|].
  destruct (Rlt_dec bv b) as [Hlt|_].
  - exfalso. apply (H b); [now left | exact Hlt].
  - apply IH. intros; apply H; now right.
Qed.

(** On a constant vector [np.argmax] returns index 0. *)
Lemma np_argmax_repeat (c : R) (n : nat) : np_argmax (repeat c (S n)) = Some O.
Proof.
  simpl. f_equal. apply argmax_from_no_greater.
  intros b Hb. apply repeat_spec in Hb. subst. lra.
Qed.

Lemma init_state_eq (self : MOCB.t) :
  runnable self ->
  MOCB.init_state self
  = Some (MOCB.mkState
            (mscale (MOCB.lam self) (identity (Z.to_nat (MOCB.M self))))
            {| ncols := Z.to_nat (MOCB.D self);
               rows := repeat (repeat 0 (Z.to_nat (MOCB.D self)))
                              (Z.to_nat (MOCB.M self)) |}
            (vscale (1 / IZR (MOCB.K self)) (repeat 1 (Z.to_nat (MOCB.K self))))
            (repeat 0 (Z.to_nat (MOCB.D self)))
            (repeat (Finite 0) (Z.to_nat (MOCB.T self)))).
Proof.
  intros (HK & HM & HD & Hlam).
  unfold MOCB.init_state, np_identity, np_zeros2, np_ones, np_zeros.
  destruct (Z.ltb_spec (MOCB.M self) 0); [lia|].
  destruct (Z.ltb_spec (MOCB.D self) 0); [lia|].
  destruct (Z.ltb_spec (MOCB.K self) 0); [lia|].
  destruct (Z.eqb_spec (MOCB.K self) 0); [lia|].
  reflexivity.
Qed.

(** The equations of a round that does not raise. *)
Lemma round_steps (self : MOCB.t) (e : MOCB.env) (Theta : mat) (rnd : nat)
    (st : MOCB.state) (Ainv : mat) (X : list vec) (alpha' : vec) (k : nat)
    (Xk noise : vec) (B' : mat) (G' : list xreal) :
  linalg_inv (MOCB.A st) = Some Ainv ->
  MOCB.draw_features self e rnd = Some X ->
  MOCB.mirror_descent self (MOCB.alpha st) (mat_mul Ainv (MOCB.B st)) X = Some alpha' ->
  np_argmax alpha' = Some k ->
  nth_error X k = Some Xk ->
  MOCB.draw_noise e rnd (vecmat Xk Theta) (range (MOCB.D self)) = Some noise ->
  MOCB.update_B self (MOCB.B st) Xk (vadd (vecmat Xk Theta) noise) = Some B' ->
  list_set (MOCB.GGI_list st) rnd
    (MOCB.running_metric self
       (vadd (MOCB.r_ave st) (vadd (vecmat Xk Theta) noise)) rnd) = Some G' ->
  MOCB.round self e Theta rnd st
  = Some (MOCB.mkState (MOCB.update_A (MOCB.A st) Xk) B' alpha'
            (vadd (MOCB.r_ave st) (vadd (vecmat Xk Theta) noise)) G').
Proof.
  intros E1 E2 E3 E4 E5 E6 E7 E8. unfold MOCB.round.
  rewrite E1. cbn [bind]. rewrite E2. cbn [bind]. rewrite E3. cbn [bind].
  rewrite E4. cbn [bind]. rewrite E5. cbn [bind]. rewrite E6. cbn [bind].
  rewrite E7. cbn [bind]. rewrite E8. reflexivity.
Qed.

(** X12: the first round of every run plays arm 0.  Before any reward is
    seen [B] is zero, so the estimate and the gradient are zero, the ascent
    leaves [alpha] uniform and [np.argmax] returns the lowest index: after
    round 0, [alpha] is still uniform and [A] has been updated with the
    features of arm 0. *)
Theorem first_round_plays_arm_0 (self : MOCB.t) (e : MOCB.env) :
  runnable self -> weights_shaped self -> (1 <= MOCB.T self)%Z ->
  exists st,
    MOCB.run_rounds self e 1 = Some st /\
    MOCB.alpha st
    = vscale (1 / IZR (MOCB.K self)) (repeat 1 (Z.to_nat (MOCB.K self))) /\
    MOCB.A st
    = MOCB.update_A (mscale (MOCB.lam self) (identity (Z.to_nat (MOCB.M self))))
        (MOCB.features self e 0 0).
Proof.
  intros Hrun _ HT. pose proof Hrun as (HK & HM & HD & Hlam).
  unfold MOCB.run_rounds.
  destruct (init_state_ok self Hrun) as (st0 & E0 & H0).
  pose proof (init_state_eq self Hrun) as E0'. rewrite E0 in E0'.
  rewrite E0. cbn [bind].
  destruct (draw_Theta_ok self e Hrun) as (Theta & ETh & HTh). rewrite ETh. cbn [bind].
  destruct H0 as ((c & Hc & HA) & HB & Hal & Hsimp & Hr & HG & _).
  destruct (linalg_inv_spec _ _ (ridge_inverse (Z.to_nat (MOCB.M self)) _ c Hlam Hc))
    as (Ainv & EAinv & Hinv).
  rewrite <- HA in EAinv, Hinv.
  set (X := map (MOCB.features self e 0) (seq 0 (Z.to_nat (MOCB.K self)))).
  set (Theta_hat := mat_mul Ainv (MOCB.B st0)).
  assert (Hws : well_shaped self (MOCB.alpha st0) Theta_hat X).
  { unfold well_shaped. split; [rewrite Hal; lia|].
    split; [unfold X; rewrite length_map, length_seq; lia|].
    split; [unfold Theta_hat; simpl; rewrite HB; lia|].
    split; [apply wf_mat_mul|].
    apply Forall_forall. intros Xk HXk. unfold X in HXk.
    apply in_map_iff in HXk as (k & <- & _). rewrite length_features.
    unfold Theta_hat, nrows, mat_mul. simpl. rewrite length_map.
    destruct Hinv as (_ & _ & Hn & _). rewrite HA, nrows_ridge in Hn.
    unfold nrows in Hn. now rewrite Hn. }
  assert (Hz : forall m d, entry Theta_hat m d = 0).
  { intros m d. unfold Theta_hat. injection E0' as ->. apply mat_mul_zeros. }
  assert (Ealpha : MOCB.alpha st0
                   = repeat (1 / IZR (MOCB.K self) * 1) (S (Z.to_nat (MOCB.K self) - 1))).
  { injection E0' as ->. cbn [MOCB.alpha]. unfold vscale.
    replace (S (Z.to_nat (MOCB.K self) - 1)) with (Z.to_nat (MOCB.K self)) by lia.
    now rewrite map_repeat. }
  assert (EXk : nth_error X 0 = Some (MOCB.features self e 0 0)).
  { unfold X. destruct (Z.to_nat (MOCB.K self)) eqn:EK; [lia | reflexivity]. }
  set (Xk := MOCB.features self e 0 0).
  destruct (draw_noise_ok e 0 (vecmat Xk Theta) (range (MOCB.D self)))
    as (noise & En & Hnl).
  { apply Forall_forall. intros d Hd. unfold range in Hd. apply in_seq in Hd.
    rewrite length_vecmat. lia. }
  assert (Hrl : length (vadd (vecmat Xk Theta) noise) = Z.to_nat (MOCB.D self)).
  { rewrite length_vadd; rewrite length_vecmat; [exact HTh|].
    rewrite Hnl. unfold range. now rewrite length_seq. }
  destruct (list_set_in_range (MOCB.GGI_list st0) 0
              (MOCB.running_metric self
                 (vadd (MOCB.r_ave st0) (vadd (vecmat Xk Theta) noise)) 0)
              (Finite 0) ltac:(lia)) as (G' & EG & _).
  cbn [seq for_each].
  rewrite (round_steps self e Theta 0 st0 Ainv X (MOCB.alpha st0) 0 Xk noise
             (madd (MOCB.B st0) (outer Xk (vadd (vecmat Xk Theta) noise))) G').
  - cbn [bind]. eexists. split; [reflexivity|]. cbn [MOCB.alpha MOCB.A].
    injection E0' as ->. split; reflexivity.
  - exact EAinv.
  - apply draw_features_ok. lia.
  - now apply mirror_descent_zero_estimate.
  - rewrite Ealpha. apply np_argmax_repeat.
  - exact EXk.
  - exact En.
  - apply update_B_outer; [unfold Xk; rewrite length_features; lia | rewrite Hrl; lia].
  - exact EG.
Qed.

(** X12, witness: a run of [two_arms]. *)
Lemma first_round_plays_arm_0_witness :
  exists st,
    MOCB.run_rounds two_arms one_arm_env 1 = Some st /\
    MOCB.alpha st
    = vscale (1 / IZR (MOCB.K two_arms)) (repeat 1 (Z.to_nat (MOCB.K two_arms))) /\
    MOCB.A st
    = MOCB.update_A (mscale (MOCB.lam two_arms) (identity (Z.to_nat (MOCB.M two_arms))))
        (MOCB.features two_arms one_arm_env 0 0).
Proof.
  apply (first_round_plays_arm_0 two_arms one_arm_env).
  - unfold runnable. simpl. repeat split; try lia. lra.
  - reflexivity.
  - simpl. lia.
Defined.

(** ** A run without regularization *)

Lemma zero_matrix_singular (n : nat) (Ai : mat) :
  (1 <= n)%nat -> ~ is_inverse (ridge n 0 0) Ai.
Proof.
  intros Hn (_ & Hc & _ & _ & Hmul & _). rewrite nrows_ridge in Hc, Hmul.
  assert (H1 : entry (mat_mul (ridge n 0 0) Ai) 0 0 = 1).
  { rewrite Hmul, ridge_identity, entry_ridge.
    destruct (Nat.ltb_spec 0 n); [|lia]. cbn [andb]. unfold delta. simpl. lra. }
  rewrite entry_mat_mul in H1 by (rewrite ?nrows_ridge; lia).
  rewrite vdot_zero_l in H1; [lra|].
  intros a Ha. unfold ridge, vec in Ha. cbn [rows] in Ha.
  rewrite (nth_map_seq (fun i => map (fun j => 0 * delta i j + 0) (seq 0 n)) n 0 [])
    in Ha by lia.
  apply in_map_iff in Ha as (j & <- & _). lra.
Qed.

(** X13: with [lam = 0], [M >= 1] and [T >= 1] the run raises: [A] starts as
    the zero matrix, which [np.linalg.inv] rejects in the first round. *)
Theorem zero_lam_run_raises (self : MOCB.t) (e : MOCB.env) :
  MOCB.lam self = 0 -> (1 <= MOCB.M self)%Z -> (1 <= MOCB.T self)%Z ->
  MOCB.gaussian_test self e = None.
Proof.
  intros Hlam HM HT. unfold MOCB.gaussian_test, MOCB.run_rounds.
  destruct (MOCB.init_state self) as [st0|] eqn:E0; [|reflexivity]. cbn [bind].
  destruct (MOCB.draw_Theta self e) as [Theta|]; [|reflexivity]. cbn [bind].
  destruct (Z.to_nat (MOCB.T self)) as [|t] eqn:Et; [lia|].
  cbn [seq for_each]. unfold MOCB.round.
  rewrite (init_state_A self st0 E0), Hlam. unfold linalg_inv.
  destruct (excluded_middle_informative
              (exists Ai, is_inverse (ridge (Z.to_nat (MOCB.M self)) 0 0) Ai))
    as [(Ai & Hinv)|_]; [|reflexivity].
  exfalso. apply (zero_matrix_singular (Z.to_nat (MOCB.M self)) Ai); [lia | exact Hinv].
Qed.

(** X13, witness: [one_arm] with [lam = 0]. *)
Lemma zero_lam_run_raises_witness :
  MOCB.gaussian_test (MOCB.mk 1 1 2 1 0 1 1 [1]) one_arm_env = None.
Proof.
  apply (zero_lam_run_raises (MOCB.mk 1 1 2 1 0 1 1 [1]) one_arm_env).
  - reflexivity.
  - simpl. lia.
  - simpl. lia.
Defined.

(** ** One arm, symmetry in the objectives, and the arm that is played *)

(** X14: in a one-arm system ([K = 1]), inside the range of [float64], the
    multiplicative-weights ascent returns [[1]], whatever the number of
    passes. *)
Theorem mirror_descent_one_arm (self : MOCB.t) (alpha : vec) (Theta_hat : mat)
    (X : list vec) (L : R) :
  well_shaped self alpha Theta_hat X -> MOCB.K self = 1%Z -> on_simplex alpha ->
  in_range self Theta_hat X L ->
  2 * exp L <= F64.huge -> 2 * F64.tiny < exp (- L) ->
  F64.mirror_descent self (map F64.Fin alpha) Theta_hat X = Some [F64.Fin 1].
Proof.
  intros Hws HK Hs Hr HeL2 Htiny.
  assert (HeL : exp L < F64.huge) by (pose proof (exp_pos L); lra).
  assert (Ea : alpha = [1]).
  { destruct Hws as (HKa & _). rewrite HK in HKa. destruct Hs as [_ Hsum].
    destruct alpha as [|a0 [|a1 a]]; simpl in HKa; try lia.
    simpl in Hsum. f_equal. lra. }
  subst alpha. unfold F64.mirror_descent, range.
  destruct (for_each_invariant (fun _ a64 => a64 = [F64.Fin 1])
              (fun _ a => F64.mirror_step self Theta_hat X a)
              (Z.to_nat (MOCB.I self)) (map F64.Fin [1])) as (a64 & E & ->).
  - reflexivity.
  - intros n a64 _ ->.
    destruct (F64_mirror_step_in_range self Theta_hat X L [1])
      as (a' & E' & _ & _ & _ & _ & t & Hl & Hpos & ->); try assumption.
    + simpl. lra.
    + unfold nonneg. repeat constructor. lra.
    + simpl. lra.
    + exists [F64.Fin 1]. split; [|reflexivity].
      change [F64.Fin 1] with (map F64.Fin [1]) at 1. rewrite E'. f_equal.
      destruct t as [|t0 [|t1 t]]; simpl in Hl; try lia.
      simpl in Hpos |- *. f_equal. f_equal.
      replace (t0 / (t0 + 0)) with 1 by (field; lra).
      apply flush_id. rewrite Rabs_R1. pose proof tiny_small. lra.
  - exact E.
Qed.

(** X14, witness: the configuration [one_arm], with [L = 4]. *)
Lemma mirror_descent_one_arm_witness :
  F64.mirror_descent one_arm (map F64.Fin [1]) (mkMat 1 [[1]; [1]]) [[1; 2]]
  = Some [F64.Fin 1].
Proof.
  apply (mirror_descent_one_arm one_arm [1] (mkMat 1 [[1]; [1]]) [[1; 2]] 4).
  - unfold well_shaped, wf_mat, nrows. simpl. repeat split; repeat constructor.
  - reflexivity.
  - unfold on_simplex, nonneg. split; [repeat constructor; lra | simpl; lra].
  - exists 3. pose proof huge_big. split; [lra|]. split; [|split; [lra|]].
    + unfold bounded_by, transpose, col, nrows.
      cbn [rows ncols map seq length nth].
      repeat (apply Forall_cons || apply Forall_nil).
      cbn [map vdot]. rewrite !Rabs_right by lra. lra.
    + unfold weight_mass, one_arm. cbn [MOCB.w MOCB.eta map np_sum fold_right].
      rewrite !Rabs_right by lra. split; lra.
  - pose proof exp_small_bounds. pose proof huge_big. lra.
  - pose proof exp_small_bounds as (_ & _ & H4). pose proof tiny_small.
    pose proof (exp_pos 4). replace (- 4) with (Ropp 4) by lra.
    rewrite exp_Ropp.
    assert (/ 256 <= / exp 4) by (apply Rinv_le_contravar; lra). lra.
Defined.

(** X15: [GGI] is symmetric in the objectives: two inputs whose aggregate
    vectors are permutations of each other have the same value. *)
Theorem GGI_symmetric (self : MOCB.t) (alpha alpha' : vec) (Theta Theta' : mat)
    (X X' : list vec) (x x' : vec) :
  MOCB.aggregate self alpha Theta X = Some x ->
  MOCB.aggregate self alpha' Theta' X' = Some x' ->
  Permutation x x' ->
  MOCB.GGI self alpha Theta X = MOCB.GGI self alpha' Theta' X'.
Proof.
  intros E E' Hp. unfold MOCB.GGI. rewrite E, E'. cbn [bind]. do 2 f_equal.
  apply np_sort_unique; [|apply np_sort_sorted].
  rewrite np_sort_perm. exact Hp.
Qed.

(** X15, witness: all the weight on arm 0 against all the weight on arm 1,
    in the small instance: the aggregates are [[1, 0]] and [[0, 1]]. *)
Lemma GGI_symmetric_witness :
  MOCB.GGI two_arms [1; 0] two_arms_Theta two_arms_X
  = MOCB.GGI two_arms [0; 1] two_arms_Theta two_arms_X.
Proof.
  apply (GGI_symmetric two_arms [1; 0] [0; 1] two_arms_Theta two_arms_Theta
           two_arms_X two_arms_X [1; 0] [0; 1]).
  - unfold MOCB.aggregate, range, np_zeros.
    change (Z.to_nat (MOCB.K two_arms)) with 2%nat.
    change (MOCB.D two_arms) with 2%Z. change (Z.to_nat 2) with 2%nat.
    cbn. f_equal. f_equal; [lra | f_equal; lra].
  - unfold MOCB.aggregate, range, np_zeros.
    change (Z.to_nat (MOCB.K two_arms)) with 2%nat.
    change (MOCB.D two_arms) with 2%Z. change (Z.to_nat 2) with 2%nat.
    cbn. f_equal. f_equal; [lra | f_equal; lra].
  - apply perm_swap.
Defined.

Lemma argmax_from_spec (l pre : vec) (best : nat) (bv : R) :
  (best < length pre)%nat -> nth best pre 0 = bv ->
  (forall j, (j < length pre)%nat -> nth j pre 0 <= bv) ->
  (forall j, (j < best)%nat -> nth j pre 0 < bv) ->
  let k := argmax_from best bv (length pre) l in
  (k < length (pre ++ l))%nat /\
  (forall j, (j < length (pre ++ l))%nat -> nth j (pre ++ l) 0 <= nth k (pre ++ l) 0) /\
  (forall j, (j < k)%nat -> nth j (pre ++ l) 0 < nth k (pre ++ l) 0).
Proof.
  revert pre best bv. induction l as [|a l IH]; intros pre best bv Hb Hbv Hmax Hfirst.
  - simpl. rewrite app_nil_r, Hbv. auto.
  - cbn [argmax_from].
    assert (Hpre : length (pre ++ [a]) = S (length pre))
      by (rewrite length_app; simpl; lia).
    replace (pre ++ a :: l) with ((pre ++ [a]) ++ l) by (now rewrite <- app_assoc).
    rewrite <- Hpre.
    destruct (Rlt_dec bv a) as [Hlt|Hge].
    + replace (length (pre ++ [a])) with (S (length pre)) at 1 by lia.
      replace (argmax_from (length pre) a (S (length pre)) l)
        with (argmax_from (length pre) a (length (pre ++ [a])) l) by (now rewrite Hpre).
      apply IH.
      * lia.
      * rewrite app_nth2, Nat.sub_diag by lia. reflexivity.
      * intros j Hj. destruct (Nat.eq_dec j (length pre)) as [->|Hne].
        -- rewrite app_nth2, Nat.sub_diag by lia. simpl. lra.
        -- rewrite app_nth1 by lia. specialize (Hmax j ltac:(lia)). lra.
      * intros j Hj. rewrite app_nth1 by lia. specialize (Hmax j Hj). lra.
    + apply IH.
      * lia.
      * rewrite app_nth1 by lia. exact Hbv.
      * intros j Hj. destruct (Nat.eq_dec j (length pre)) as [->|Hne].
        -- rewrite app_nth2, Nat.sub_diag by lia. simpl. lra.
        -- rewrite app_nth1 by lia. apply Hmax. lia.
      * intros j Hj. rewrite app_nth1 by lia. now apply Hfirst.
Qed.

(** X16: the arm [np.argmax] selects on a non-empty [alpha] holds a largest
    entry and is the lowest index that does: ties go to the first arm. *)
Theorem np_argmax_first_maximum (alpha : vec) :
  alpha <> [] ->
  exists k,
    np_argmax alpha = Some k /\ (k < length alpha)%nat /\
    (forall j, (j < length alpha)%nat -> nth j alpha 0 <= nth k alpha 0) /\
    (forall j, (j < k)%nat -> nth j alpha 0 < nth k alpha 0).
Proof.
  destruct alpha as [|a l]; [congruence|]. intros _.
  eexists. split; [reflexivity|].
  apply (argmax_from_spec l [a] 0 a).
  - simpl. lia.
  - reflexivity.
  - intros [|j] Hj; simpl in *; [lra | lia].
  - intros j Hj. lia.
Qed.

(** X16, witness: a tie between arms 1 and 2. *)
Lemma np_argmax_first_maximum_witness :
  exists k,
    np_argmax [0; 1; 1] = Some k /\ (k < length [0; 1; 1])%nat /\
    (forall j, (j < length [0; 1; 1])%nat -> nth j [0; 1; 1] 0 <= nth k [0; 1; 1] 0) /\
    (forall j, (j < k)%nat -> nth j [0; 1; 1] 0 < nth k [0; 1; 1] 0).
Proof.
  apply (np_argmax_first_maximum [0; 1; 1]). discriminate.
Defined.
